(** * mdu: a multi-threaded disk-usage tool

    Shallow embedding of [src/mdu.c] and verification of its work queue,
    its termination protocol and its per-root accounting.

    Conventions of the model.
    - The file system is a finite map from path strings to what [lstat],
      [opendir]/[readdir] and [closedir] answer; it does not change during a
      run.
    - [int] size values wrap around at 32 bits ([wrap32]); the counters
      [nr_available_files], the loop indices and the root ids stay far below
      [INT_MAX] and are kept as unbounded numbers.
    - The worker threads interleave under sequential consistency.  Every
      access to a shared variable that is not protected by a mutex is a step
      of its own; a critical section that consists of one update
      ([set_available_file], [get_available_file], the updates of
      [exit_status] and [total_sizes]) is one step.  Program points are named
      after the line of [mdu.c] they stand for.
    - Allocation failures and failures of the pthread primitives end the
      process ([exit(EXIT_FAILURE)]) and are not part of the model of the
      pool; the relation [main] accounts for those that the number of
      threads asked for brings about. *)

From stdpp Require Import gmultiset.
From stdpp Require Import gmap strings list list_numbers fin_maps.

Local Open Scope Z_scope.

(** ** Machine integers *)

(** Conversion to a 32-bit [int], two's complement. *)
Definition wrap32 (x : Z) : Z := (x + 2^31) `mod` 2^32 - 2^31.

Definition INT_MAX : Z := 2^31 - 1.

(** ** The file system seen through the system calls *)

(** The two fields of [struct stat] the program reads. *)
Record stat := Stat { st_isdir : bool; st_blocks : Z }.

(** An open directory stream: the [d_name]s [readdir] will return, and whether
    [closedir] is going to fail. *)
Record dirstream := DirStream { d_names : list string; close_fails : bool }.

Record filesystem := FileSystem {
  fs_lstat : gmap string stat;
  fs_opendir : gmap string dirstream
}.

Definition lstat (fs : filesystem) (p : string) : option stat := fs_lstat fs !! p.
Definition opendir (fs : filesystem) (p : string) : option dirstream := fs_opendir fs !! p.

(** [S_ISDIR(file_stat.st_mode)] *)
Definition is_dir (file_stat : stat) : bool := st_isdir file_stat.

(** [sprintf(temp, "%s/%s", file.name, dirent_t->d_name)] *)
Definition path_join (dir d_name : string) : string :=
  String.append dir (String.append "/" d_name).

(** ** Program state *)

Record dir_info := DirInfo { parent_id : nat; name : string }.

Record thread_info := ThreadInfo { thread_max : nat; thread_id : nat }.

(** A line written to the error stream: the format string and its [%s]
    argument, if it has one. *)
Record logline := LogLine { fmt : string; arg : option string }.

Record world := World {
  total_sizes : list Z;
  nr_available_files : Z;
  exit_status : Z;
  done_threads : list bool;
  done : bool;
  available_files : list dir_info;
  available_lock : option nat;
  available_sem : nat;
  stderr : list logline
}.

Definition with_total_sizes (v : list Z) (w : world) : world :=
  World v (nr_available_files w) (exit_status w) (done_threads w) (done w)
        (available_files w) (available_lock w) (available_sem w) (stderr w).
Definition with_done_threads (v : list bool) (w : world) : world :=
  World (total_sizes w) (nr_available_files w) (exit_status w) v (done w)
        (available_files w) (available_lock w) (available_sem w) (stderr w).
Definition with_done (v : bool) (w : world) : world :=
  World (total_sizes w) (nr_available_files w) (exit_status w) (done_threads w) v
        (available_files w) (available_lock w) (available_sem w) (stderr w).
Definition with_lock (v : option nat) (w : world) : world :=
  World (total_sizes w) (nr_available_files w) (exit_status w) (done_threads w) (done w)
        (available_files w) v (available_sem w) (stderr w).

(** Contents of memory that was never written. *)
Definition junk_dir : dir_info := DirInfo 0 "".

(** The pending directories: the first [nr_available_files] cells of the
    array. *)
Definition queue (w : world) : list dir_info :=
  take (Z.to_nat (nr_available_files w)) (available_files w).

(** ** The functions of mdu.c that run as one step *)

(** Body of [set_available_file], between lock and unlock. *)
Definition set_available_file (f : dir_info) (w : world) : world :=
  let nr := nr_available_files w + 1 in
  World (total_sizes w) nr (exit_status w) (done_threads w) (done w)
        (<[Z.to_nat (nr - 1) := f]> (resize (Z.to_nat nr) junk_dir (available_files w)))
        (available_lock w) (available_sem w) (stderr w).

(** Body of [get_available_file], between lock and unlock.  Reading outside
    the array has no defined result. *)
Definition get_available_file (w : world) : option (dir_info * world) :=
  let nr := nr_available_files w - 1 in
  if bool_decide (0 ≤ nr) then
    f ← available_files w !! Z.to_nat nr;
    Some (f, World (total_sizes w) nr (exit_status w) (done_threads w) (done w)
                   (available_files w) (available_lock w) (available_sem w) (stderr w))
  else None.

Definition sem_post (w : world) : world :=
  World (total_sizes w) (nr_available_files w) (exit_status w) (done_threads w) (done w)
        (available_files w) (available_lock w) (S (available_sem w)) (stderr w).

(** [sem_wait] returns only when the value is positive. *)
Definition sem_wait (w : world) : option world :=
  match available_sem w with
  | O => None
  | S n => Some (World (total_sizes w) (nr_available_files w) (exit_status w)
                       (done_threads w) (done w) (available_files w)
                       (available_lock w) n (stderr w))
  end.

(** The error path shared by all failures: a line on [stderr], then
    [exit_status = 1] under [status_lock]. *)
Definition report (m : logline) (w : world) : world :=
  World (total_sizes w) (nr_available_files w) 1 (done_threads w) (done w)
        (available_files w) (available_lock w) (available_sem w) (stderr w ++ [m]).

(** [total_sizes[id] += size] under [size_lock]. *)
Definition add_size (id : nat) (size : Z) (w : world) : world :=
  with_total_sizes (alter (λ t, wrap32 (t + size)) id (total_sizes w)) w.

(** ** The root seeder *)

(** [initialize_files].  When [lstat] fails, [file_stat] is never written and
    the function goes on reading it: [garbage] is what the stack held. *)
Definition initialize_files (fs : filesystem) (garbage : stat) (file : dir_info)
    (w : world) : world :=
  let '(file_stat, w) :=
    match lstat fs (name file) with
    | None => (garbage, report (LogLine "unable to stat: '%s': " (Some (name file))) w)
    | Some st => (st, w)
    end in
  let w := with_total_sizes
             (alter (λ t, wrap32 (t + st_blocks file_stat)) (parent_id file) (total_sizes w)) w in
  if is_dir file_stat then sem_post (set_available_file file w) else w.

(** The loop of [initialize] over [argv], from root id [id] on. *)
Fixpoint initialize_from (fs : filesystem) (garbage : nat → stat) (id : nat)
    (argv : list string) (w : world) : world :=
  match argv with
  | [] => w
  | a :: argv =>
      let w := with_total_sizes (<[id := 0]> (resize (S id) 0 (total_sizes w))) w in
      let w := initialize_files fs (garbage id) (DirInfo id a) w in
      initialize_from fs garbage (S id) argv w
  end.

Definition initialize (fs : filesystem) (garbage : nat → stat) (argv : list string)
    (thread_max : nat) : world :=
  initialize_from fs garbage 0 argv
    (World [] 0 0 (replicate thread_max false) false [] None 0 []).

(** [print]: one number per root, [total_sizes[j] / 2]. *)
Definition print (w : world) : list Z := (λ t, Z.quot t 2) <$> total_sizes w.

(** ** The directory expander *)

(** What [get_available_file_size] does with one directory entry. *)
Inductive entry_action :=
  | Skipped
  | StatFailed (m : logline)
  | SubDirectory (temp_dir : dir_info) (file_stat : stat)
  | PlainFile (file_stat : stat).

Definition skip_name (d_name : string) : bool :=
  bool_decide (d_name = ".") || bool_decide (d_name = "..").

Definition entry_action_of (fs : filesystem) (file : dir_info) (d_name : string)
    : entry_action :=
  if skip_name d_name then Skipped
  else
    let temp := path_join (name file) d_name in
    match lstat fs temp with
    | None => StatFailed (LogLine "unable to stat: '%s': " (Some (name file)))
    | Some file_stat =>
        if is_dir file_stat then SubDirectory (DirInfo (parent_id file) temp) file_stat
        else PlainFile file_stat
    end.

(** [get_available_file_size] run without interruption: the value returned
    and the state left behind. *)
Definition get_available_file_size (fs : filesystem) (file : dir_info)
    (d_name : string) (w : world) : Z * world :=
  match entry_action_of fs file d_name with
  | Skipped => (0, w)
  | StatFailed m => (0, report m w)
  | SubDirectory temp_dir file_stat =>
      (wrap32 (st_blocks file_stat), sem_post (set_available_file temp_dir w))
  | PlainFile file_stat => (wrap32 (st_blocks file_stat), w)
  end.

(** ** The worker threads *)

(** Program points of [thread_func], with the live local variables.  [L182]
    to [L288] are inside the call of [get_directory_size]. *)
Inductive pc :=
  | L150                                   (* pthread_mutex_lock(&available_lock) *)
  | L151                                   (* done_threads[id] = true *)
  | L152                                   (* if(nr_available_files == 0) *)
  | L153                                   (* done = true *)
  | L154 (i : nat)                         (* i < thread_max; done_threads[i] == false *)
  | L156                                   (* done = false; break *)
  | L162                                   (* if(done) *)
  | L163 (i : nat)                         (* i < thread_max; sem_post *)
  | L166                                   (* unlock; break *)
  | L170                                   (* unlock *)
  | L172                                   (* sem_wait(&available_sem) *)
  | L174                                   (* if(done) break *)
  | L178                                   (* done_threads[id] = false *)
  | L181                                   (* f = get_available_file() *)
  | L182 (f : dir_info)                    (* get_directory_size: lstat, opendir *)
  | L230 (f : dir_info) (d : dirstream) (size : Z)   (* readdir loop *)
  | L288 (f : dir_info) (d : dirstream) (size : Z) (file_stat : stat)
                                           (* sem_post; return st_blocks *)
  | L183 (f : dir_info) (size : Z)         (* total_sizes[f.parent_id] += size *)
  | L188.                                  (* return arg *)

(** What a step shows to an observer. *)
Inductive event :=
  | Tau
  | Announce
  | Push (f : dir_info)
  | Pop (f : dir_info)
  | Post
  | Wait.

(** One step of a worker: [None] when the thread is blocked (on the mutex or
    on the semaphore), has returned, or has no defined behaviour. *)
Definition thread_func (fs : filesystem) (info : thread_info) (l : pc) (w : world)
    : option (event * pc * world) :=
  match l with
  | L150 =>
      match available_lock w with
      | None => Some (Tau, L151, with_lock (Some (thread_id info)) w)
      | Some _ => None
      end
  | L151 =>
      Some (Tau, L152, with_done_threads (<[thread_id info := true]> (done_threads w)) w)
  | L152 =>
      if bool_decide (nr_available_files w = 0) then Some (Tau, L153, w)
      else Some (Tau, L170, w)
  | L153 => Some (Tau, L154 0, with_done true w)
  | L154 i =>
      if bool_decide (i < thread_max info)%nat then
        match done_threads w !! i with
        | Some true => Some (Tau, L154 (S i), w)
        | Some false => Some (Tau, L156, w)
        | None => None
        end
      else Some (Tau, L162, w)
  | L156 => Some (Tau, L162, with_done false w)
  | L162 =>
      if done w then Some (Announce, L163 0, w) else Some (Tau, L170, w)
  | L163 i =>
      if bool_decide (i < thread_max info)%nat then Some (Post, L163 (S i), sem_post w)
      else Some (Tau, L166, w)
  | L166 => Some (Tau, L188, with_lock None w)
  | L170 => Some (Tau, L172, with_lock None w)
  | L172 => w' ← sem_wait w; Some (Wait, L174, w')
  | L174 => if done w then Some (Tau, L188, w) else Some (Tau, L178, w)
  | L178 =>
      Some (Tau, L181, with_done_threads (<[thread_id info := false]> (done_threads w)) w)
  | L181 =>
      match available_lock w with
      | None => '(f, w') ← get_available_file w; Some (Pop f, L182 f, w')
      | Some _ => None
      end
  | L182 f =>
      match lstat fs (name f) with
      | None =>
          Some (Tau, L183 f 0, report (LogLine "unable to stat: '%s'" (Some (name f))) w)
      | Some _ =>
          match opendir fs (name f) with
          | None =>
              Some (Tau, L183 f 0,
                    report (LogLine "du: cannot read directory '%s': " (Some (name f))) w)
          | Some d => Some (Tau, L230 f d 0, w)
          end
      end
  | L230 f d size =>
      match d_names d with
      | [] =>
          if close_fails d
          then Some (Tau, L183 f size, report (LogLine "closedir error: " None) w)
          else Some (Tau, L183 f size, w)
      | e :: rest =>
          let d' := DirStream rest (close_fails d) in
          match entry_action_of fs f e with
          | Skipped => Some (Tau, L230 f d' (wrap32 (size + 0)), w)
          | StatFailed m => Some (Tau, L230 f d' (wrap32 (size + 0)), report m w)
          | SubDirectory temp_dir file_stat =>
              match available_lock w with
              | None =>
                  Some (Push temp_dir, L288 f d' size file_stat, set_available_file temp_dir w)
              | Some _ => None
              end
          | PlainFile file_stat =>
              Some (Tau, L230 f d' (wrap32 (size + wrap32 (st_blocks file_stat))), w)
          end
      end
  | L288 f d size file_stat =>
      Some (Post, L230 f d (wrap32 (size + wrap32 (st_blocks file_stat))), sem_post w)
  | L183 f size => Some (Tau, L150, add_size (parent_id f) size w)
  | L188 => None
  end.

(** ** The pool: [run_threads] *)

(** The shared state and the program point of every worker. *)
Definition pool : Type := world * list pc.

(** Thread [t] takes its next step. *)
Definition step (fs : filesystem) (t : nat) (c : pool) : option (event * pool) :=
  l ← c.2 !! t;
  '(e, l', w') ← thread_func fs (ThreadInfo (length c.2) t) l c.1;
  Some (e, (w', <[t := l']> c.2)).

(** [run_threads] starts [thread_amount] workers on the state left by
    [initialize]. *)
Definition run_threads (w : world) (thread_amount : nat) : pool :=
  (w, replicate thread_amount L150).

(** Executions: the trace lists the thread and the event of every step. *)
Inductive run (fs : filesystem) (c0 : pool) : list (nat * event) → pool → Prop :=
  | run_nil : run fs c0 [] c0
  | run_snoc tr c t e c' :
      run fs c0 tr c → step fs t c = Some (e, c') → run fs c0 (tr ++ [(t, e)]) c'.

(** All workers have returned; [join_threads] can complete. *)
Definition joined (c : pool) : Prop := Forall (λ l, l = L188) c.2.

(** The execution that follows a schedule (the list of the threads that take
    the next step), if every thread named can take its step. *)
Fixpoint exec (fs : filesystem) (sched : list nat) (c : pool)
    : option (list (nat * event) * pool) :=
  match sched with
  | [] => Some ([], c)
  | t :: sched =>
      '(e, c') ← step fs t c;
      '(tr, c'') ← exec fs sched c';
      Some ((t, e) :: tr, c'')
  end.

(** ** [main] *)

(** [main] runs the pool only when [initialize] queued something. *)
Definition pool_started (w : world) : bool := bool_decide (0 < nr_available_files w).

(** The states [main] can print and return from: the state left by
    [initialize] when no pool is started, otherwise any state in which all
    workers have been joined. *)
Inductive main_final (fs : filesystem) (garbage : nat → stat) (argv : list string)
    (thread_amount : nat) : world → Prop :=
  | main_no_pool :
      pool_started (initialize fs garbage argv thread_amount) = false →
      main_final fs garbage argv thread_amount (initialize fs garbage argv thread_amount)
  | main_pool tr w ps :
      pool_started (initialize fs garbage argv thread_amount) = true →
      run fs (run_threads (initialize fs garbage argv thread_amount) thread_amount) tr (w, ps) →
      joined (w, ps) →
      main_final fs garbage argv thread_amount w.


(** ** Reference: disk usage by recursion over the directory tree *)

Definition sumZ (l : list Z) : Z := foldr Z.add 0 l.
Global Arguments sumZ : simpl never.

(** No path known to the file system is as long as [depth_bound]; a child's
    path is longer than its parent's, so [fuel_for] bounds the depth of the
    tree below a path. *)
Definition depth_bound (fs : filesystem) : nat :=
  S (max_list (String.length <$> (map_to_list (fs_lstat fs)).*1)).

Definition fuel_for (fs : filesystem) (p : string) : nat :=
  (depth_bound fs - String.length p)%nat.

(** The blocks of everything reachable from a path: the entry itself and, for
    a directory that can be read, every entry in it other than [.] and [..]. *)
Fixpoint du (fs : filesystem) (n : nat) (p : string) : Z :=
  match n with
  | O => 0
  | S n =>
      match lstat fs p with
      | None => 0
      | Some st =>
          st_blocks st +
          if is_dir st then
            match opendir fs p with
            | None => 0
            | Some d =>
                sumZ ((λ e, if skip_name e then 0 else du fs n (path_join p e)) <$> d_names d)
            end
          else 0
      end
  end.

Definition du_path (fs : filesystem) (p : string) : Z := du fs (fuel_for fs p) p.

(** What one entry of directory [dir] stands for, and what the entries of a
    directory add up to. *)
Definition entry_du (fs : filesystem) (dir e : string) : Z :=
  if skip_name e then 0 else du_path fs (path_join dir e).

Definition contents (fs : filesystem) (p : string) : Z :=
  match opendir fs p with
  | None => 0
  | Some d => sumZ (entry_du fs p <$> d_names d)
  end.

(** What a queued directory will still add to its root. *)
Definition pending (fs : filesystem) (f : dir_info) : Z :=
  match lstat fs (name f) with
  | None => 0
  | Some _ => contents fs (name f)
  end.

(** The total a root is expected to reach.  [file_stat] is what
    [initialize_files] read: the answer of [lstat], or the never written
    buffer. *)
Definition expected (fs : filesystem) (garbage : nat → stat) (argv : list string)
    (r : nat) : Z :=
  match argv !! r with
  | None => 0
  | Some a =>
      let file_stat := default (garbage r) (lstat fs a) in
      st_blocks file_stat + if is_dir file_stat then pending fs (DirInfo r a) else 0
  end.

(** ** A measure of the work that is left *)

Local Open Scope nat_scope.

(** Every semaphore unit pays for the steps of the worker it wakes. *)
Definition tok : nat := 4.

(** Steps of one pass from line 150 to the [sem_wait] of line 172, the posts
    of a declaring worker included. *)
Definition loop_rank (K : nat) : nat := 6 * K + 9.

(** Steps a queued directory stands for: its own scan, the scans of the
    directories below it, and the loop passes that follow them. *)
Fixpoint weight (fs : filesystem) (K n : nat) (p : string) : nat :=
  match n with
  | O => 2 + loop_rank K
  | S n =>
      match lstat fs p with
      | None => 2 + loop_rank K
      | Some _ =>
          match opendir fs p with
          | None => 2 + loop_rank K
          | Some d =>
              3 + loop_rank K +
              sum_list_with
                (λ e, match entry_action_of fs (DirInfo 0 p) e with
                      | SubDirectory temp_dir _ => 6 + weight fs K n (name temp_dir)
                      | _ => 1
                      end) (d_names d)
          end
      end
  end.

Definition weight_path (fs : filesystem) (K : nat) (p : string) : nat :=
  weight fs K (fuel_for fs p) p.

Definition entry_weight (fs : filesystem) (K : nat) (f : dir_info) (e : string) : nat :=
  match entry_action_of fs f e with
  | SubDirectory temp_dir _ => 6 + weight_path fs K (name temp_dir)
  | _ => 1
  end.

Definition rank (fs : filesystem) (K : nat) (l : pc) : nat :=
  match l with
  | L150 => loop_rank K
  | L151 => 6 * K + 8
  | L152 => 6 * K + 7
  | L153 => 6 * K + 6
  | L154 i => (K - i) + 5 * K + 5
  | L156 => 5 * K + 4
  | L162 => 5 * K + 3
  | L163 i => 5 * (K - i) + 2
  | L166 => 1
  | L170 => 1
  | L172 => 0
  | L174 => 3
  | L178 => 2
  | L181 => 1
  | L182 f => weight_path fs K (name f)
  | L230 f d _ => 2 + loop_rank K + sum_list_with (entry_weight fs K f) (d_names d)
  | L288 f d _ _ => 7 + loop_rank K + sum_list_with (entry_weight fs K f) (d_names d)
  | L183 _ _ => 1 + loop_rank K
  | L188 => 0
  end.

Definition potential (fs : filesystem) (c : pool) : nat :=
  sum_list_with (λ f, weight_path fs (length c.2) (name f)) (queue c.1)
  + tok * available_sem c.1
  + sum_list_with (rank fs (length c.2)) c.2.

Local Open Scope Z_scope.

(** ** Invariants of the pool *)

(** Program points between the lock of line 150 and the unlock of line 166
    or 170. *)
Definition in_cs (l : pc) : bool :=
  match l with
  | L151 | L152 | L153 | L154 _ | L156 | L162 | L163 _ | L166 | L170 => true
  | _ => false
  end.

(** Program points at which the worker's cell of [done_threads] is [true]. *)
Definition idle (l : pc) : bool :=
  match l with
  | L150 | L151 | L181 | L182 _ | L230 _ _ _ | L288 _ _ _ _ | L183 _ _ => false
  | _ => true
  end.

Record structure_ok (c : pool) : Prop := {
  so_flags : done_threads c.1 = idle <$> c.2;
  so_lock_in : ∀ t l, c.2 !! t = Some l → in_cs l = true → available_lock c.1 = Some t;
  so_lock_out : ∀ t, available_lock c.1 = Some t → ∃ l, c.2 !! t = Some l ∧ in_cs l = true;
  so_queue : 0 ≤ nr_available_files c.1 ≤ Z.of_nat (length (available_files c.1))
}.

(** A worker that holds a semaphore unit it has not yet turned into a pop, or
    that has pushed and not yet posted. *)
Definition credit (l : pc) : nat :=
  match l with
  | L174 | L178 | L181 | L288 _ _ _ _ => 1%nat
  | _ => 0%nat
  end.

Definition tentative (l : pc) : bool :=
  match l with L154 _ | L156 | L162 => true | _ => false end.

Definition saw_empty (l : pc) : bool :=
  match l with L153 | L154 _ | L156 | L162 => true | _ => false end.

Definition declaring (l : pc) : bool :=
  match l with L163 _ | L166 | L188 => true | _ => false end.

Definition busy_exists (ps : list pc) : Prop :=
  ∃ j l, ps !! j = Some l ∧ idle l = false.

Definition work (c : pool) : Prop :=
  0 < nr_available_files c.1 ∨ busy_exists c.2.

(** What the worker inside the critical section has established. *)
Definition holder_knows (c : pool) (l : pc) : Prop :=
  match l with
  | L154 i =>
      done c.1 = true ∧ ∀ j l', (j < i)%nat → c.2 !! j = Some l' → idle l' = true
  | L156 => busy_exists c.2
  | L162 => if done c.1 then ∀ j l', c.2 !! j = Some l' → idle l' = true
            else busy_exists c.2
  | L170 => work c
  | _ => True
  end.

(** Before termination is declared. *)
Record searching (c : pool) : Prop := {
  se_before : ∀ t l, c.2 !! t = Some l → declaring l = false;
  se_tokens :
    Z.of_nat (available_sem c.1) + Z.of_nat (sum_list_with credit c.2)
    = nr_available_files c.1;
  se_done : done c.1 = true → ∃ t l, c.2 !! t = Some l ∧ tentative l = true;
  se_empty : ∀ t l, c.2 !! t = Some l → saw_empty l = true → nr_available_files c.1 = 0;
  se_knows : ∀ t l, c.2 !! t = Some l → holder_knows c l;
  se_work : available_lock c.1 = None → work c
}.

(** Wake-up signals issued so far by a worker at a declaring program point;
    the last unit stands for its own return. *)
Definition posted (K : nat) (l : pc) : nat :=
  match l with L163 i => i | L166 => K | _ => S K end.

Definition spent (l : pc) : nat :=
  match l with L174 | L188 => 1%nat | _ => 0%nat end.

Definition leaving (l : pc) : bool :=
  match l with L172 | L174 | L188 => true | _ => false end.

(** After worker [d] has declared termination. *)
Record declared (c : pool) (d : nat) : Prop := {
  de_who : ∃ l, c.2 !! d = Some l ∧ declaring l = true
                ∧ (∀ i, l = L163 i → (i ≤ length c.2)%nat)
                ∧ (available_sem c.1 + sum_list_with spent c.2 = posted (length c.2) l)%nat;
  de_done : done c.1 = true;
  de_empty : nr_available_files c.1 = 0;
  de_others : ∀ t l, t ≠ d → c.2 !! t = Some l → leaving l = true
}.

Definition protocol_ok (c : pool) : Prop := searching c ∨ ∃ d, declared c d.

(** ** Accounting *)

(** Blocks a worker has found, or is about to find, for root [r]. *)
Definition inflight (fs : filesystem) (r : nat) (l : pc) : Z :=
  match l with
  | L182 f => if bool_decide (parent_id f = r) then pending fs f else 0
  | L230 f d size =>
      if bool_decide (parent_id f = r)
      then size + sumZ (entry_du fs (name f) <$> d_names d) else 0
  | L288 f d size file_stat =>
      if bool_decide (parent_id f = r)
      then size + st_blocks file_stat + sumZ (entry_du fs (name f) <$> d_names d) else 0
  | L183 f size => if bool_decide (parent_id f = r) then size else 0
  | _ => 0
  end.

Definition owed (fs : filesystem) (r : nat) (c : pool) : Z :=
  sumZ ((λ f, if bool_decide (parent_id f = r) then pending fs f else 0) <$> queue c.1)
  + sumZ (inflight fs r <$> c.2).

Record accounts_ok (fs : filesystem) (want : nat → Z) (c : pool) : Prop := {
  ac_range : ∀ r x, total_sizes c.1 !! r = Some x → wrap32 x = x;
  ac_sum : ∀ r x, total_sizes c.1 !! r = Some x →
           wrap32 (x + owed fs r c) = wrap32 (want r)
}.

(** ** Observations on traces *)

Definition pushes (tr : list (nat * event)) : list dir_info :=
  omap (λ te, match te.2 with Push f => Some f | _ => None end) tr.

Definition pops (tr : list (nat * event)) : list dir_info :=
  omap (λ te, match te.2 with Pop f => Some f | _ => None end) tr.

Definition declarations (tr : list (nat * event)) : list nat :=
  omap (λ te, match te.2 with Announce => Some te.1 | _ => None end) tr.

(** ** Auxiliary notions for the proofs *)

(** What the seeder leaves unchanged or keeps in step. *)
Record seeded (K : nat) (w : world) : Prop := {
  sd_flags : done_threads w = replicate K false;
  sd_done : done w = false;
  sd_lock : available_lock w = None;
  sd_sem : Z.of_nat (available_sem w) = nr_available_files w;
  sd_queue : nr_available_files w = Z.of_nat (length (available_files w))
}.

(** The pending blocks of root [r] in the queue. *)
Definition queued (fs : filesystem) (r : nat) (w : world) : Z :=
  sumZ ((λ f, if bool_decide (parent_id f = r) then pending fs f else 0) <$> queue w).

(** Program points at which a worker cannot move by itself. *)
Definition parked (l : pc) : bool :=
  match l with L172 | L188 => true | _ => false end.

Definition returned (l : pc) : bool :=
  match l with L188 => true | _ => false end.

(** Equality of 32-bit values. *)
Definition eqm (a b : Z) : Prop := wrap32 a = wrap32 b.

(** ** The seeder, as the specification words it *)

(** The directories the seeder queues, in the order of the roots. *)
Fixpoint seeded_dirs (fs : filesystem) (garbage : nat → stat) (id : nat)
    (argv : list string) : list dir_info :=
  match argv with
  | [] => []
  | a :: argv =>
      (if is_dir (default (garbage id) (lstat fs a)) then [DirInfo id a] else [])
      ++ seeded_dirs fs garbage (S id) argv
  end.

(** The accumulator slots the seeder fills, in the order of the roots: the
    block count of the path itself, as an [int]. *)
Fixpoint seeded_totals (fs : filesystem) (garbage : nat → stat) (id : nat)
    (argv : list string) : list Z :=
  match argv with
  | [] => []
  | a :: argv =>
      wrap32 (0 + st_blocks (default (garbage id) (lstat fs a)))
      :: seeded_totals fs garbage (S id) argv
  end.

(** ** Concrete inputs *)

(** Root [a/]: a file of 8 blocks and a directory [b] of 8 blocks holding a
    file of 16 blocks; [a/] itself costs 8 blocks. *)
Definition scenario_fs : filesystem :=
  FileSystem
    (list_to_map [("a/", Stat true 8); ("a//f", Stat false 8);
                  ("a//b", Stat true 8); ("a//b/g", Stat false 16)])
    (list_to_map [("a/", DirStream ["."; ".."; "f"; "b"] false);
                  ("a//b", DirStream ["."; ".."; "g"] false)]).

(** Stat buffers that hold zeroes where nothing was written. *)
Definition zeroed : nat → stat := λ _, Stat false 0.

(** An interleaving of two workers on the scenario. *)
Definition scenario_schedule : list nat :=
  [0; 0; 0; 0; 0; 1; 0; 1; 0; 1; 1; 0; 0; 0; 0; 0; 0; 0; 0; 1; 0; 1; 0; 1;
   0; 0; 0; 1; 1; 1; 1; 1; 1; 1; 1; 1; 1; 1; 1; 1; 1; 1; 1; 1; 0; 1; 0; 1]%nat.

Definition scenario_start : pool :=
  run_threads (initialize scenario_fs zeroed ["a/"] 2) 2.

Definition scenario_exec : list (nat * event) * pool :=
  Eval vm_compute in
    default ([], scenario_start) (exec scenario_fs scenario_schedule scenario_start).

(** The same execution up to the step before termination is declared. *)
Definition scenario_quiet : list (nat * event) * pool :=
  Eval vm_compute in
    default ([], scenario_start)
            (exec scenario_fs (take 41 scenario_schedule) scenario_start).

(** A regular file of 2^31 blocks (one tebibyte). *)
Definition big_fs : filesystem :=
  FileSystem (list_to_map [("big", Stat false 2147483648)]) ∅.

(** A directory [d] with a plain file, an entry that cannot be stat-ed, a
    sub-directory that cannot be opened, and a failing [closedir]. *)
Definition faulty_fs : filesystem :=
  FileSystem
    (list_to_map [("d", Stat true 8); ("d/x", Stat false 8); ("d/s", Stat true 8)])
    (list_to_map [("d", DirStream ["."; ".."; "gone"; "x"; "s"] true)]).

Definition faulty_start : pool :=
  run_threads (initialize faulty_fs zeroed ["d"] 1) 1.

Definition faulty_exec : list (nat * event) * pool :=
  Eval vm_compute in
    default ([], faulty_start) (exec faulty_fs (replicate 37 0%nat) faulty_start).

(** A directory holding one sub-directory of 8 blocks. *)
Definition nested_fs : filesystem :=
  FileSystem
    (list_to_map [("d", Stat true 8); ("d/s", Stat true 8)])
    (list_to_map [("d", DirStream ["s"] false); ("d/s", DirStream [] false)]).

(** Two roots, a file of 4 blocks and an empty directory of 8 blocks. *)
Definition two_roots_fs : filesystem :=
  FileSystem
    (list_to_map [("file", Stat false 4); ("dir", Stat true 8)])
    (list_to_map [("dir", DirStream ["."; ".."] false)]).

Definition scenario_start1 : pool :=
  run_threads (initialize scenario_fs zeroed ["a/"] 1) 1.

(** The scenario run by a single worker. *)
Definition scenario_exec1 : list (nat * event) * pool :=
  Eval vm_compute in
    default ([], scenario_start1) (exec scenario_fs (replicate 40 0%nat) scenario_start1).

(** The single worker just after its first [sem_wait]. *)
Definition scenario_woken : list (nat * event) * pool :=
  Eval vm_compute in
    default ([], scenario_start1) (exec scenario_fs (replicate 5 0%nat) scenario_start1).

(** An empty directory whose [closedir] fails. *)
Definition closefail_fs : filesystem :=
  FileSystem (list_to_map [("d", Stat true 8)])
             (list_to_map [("d", DirStream ["."; ".."] true)]).

Definition closefail_start : pool :=
  run_threads (initialize closefail_fs zeroed ["d"] 1) 1.

Definition closefail_exec : list (nat * event) * pool :=
  Eval vm_compute in
    default ([], closefail_start) (exec closefail_fs (replicate 23 0%nat) closefail_start).

Definition nested_start : pool :=
  run_threads (initialize nested_fs zeroed ["d"] 1) 1.

(** The worker of [nested_fs] just after it has handled the entry [s]. *)
Definition nested_exec : list (nat * event) * pool :=
  Eval vm_compute in
    default ([], nested_start) (exec nested_fs (replicate 11 0%nat) nested_start).






(** * Further definitions *)

(** ** [get_directory_size] run without interruption *)

(** The [readdir] loop of lines 230 to 232. *)
Fixpoint readdir_loop (fs : filesystem) (file : dir_info) (entries : list string)
    (size : Z) (w : world) : Z * world :=
  match entries with
  | [] => (size, w)
  | e :: entries =>
      let '(s, w) := get_available_file_size fs file e w in
      readdir_loop fs file entries (wrap32 (size + s)) w
  end.

(** [get_directory_size]: the value returned and the state left behind. *)
Definition get_directory_size (fs : filesystem) (file : dir_info) (w : world)
    : Z * world :=
  match lstat fs (name file) with
  | None => (0, report (LogLine "unable to stat: '%s'" (Some (name file))) w)
  | Some _ =>
      match opendir fs (name file) with
      | None =>
          (0, report (LogLine "du: cannot read directory '%s': " (Some (name file))) w)
      | Some d =>
          let '(size, w) := readdir_loop fs file (d_names d) 0 w in
          if close_fails d then (size, report (LogLine "closedir error: " None) w)
          else (size, w)
      end
  end.

(** What the entries of a directory give: the blocks counted, the
    directories queued and the lines written. *)
Definition entry_blocks (fs : filesystem) (file : dir_info) (e : string) : Z :=
  match entry_action_of fs file e with
  | SubDirectory _ file_stat | PlainFile file_stat => st_blocks file_stat
  | _ => 0
  end.

Definition entry_subdir (fs : filesystem) (file : dir_info) (e : string)
    : option dir_info :=
  match entry_action_of fs file e with
  | SubDirectory temp_dir _ => Some temp_dir
  | _ => None
  end.

Definition entry_error (fs : filesystem) (file : dir_info) (e : string)
    : option logline :=
  match entry_action_of fs file e with
  | StatFailed m => Some m
  | _ => None
  end.

(** ** [main], from the command line to the exit status *)

(** [free_memory] destroys the three mutexes and the semaphore and frees
    [done_threads], [total_sizes] and [available_files].  Destroying a mutex
    that is locked has no defined behaviour; [size_lock] and [status_lock]
    are never held between two steps, and no worker is left to wait for the
    semaphore. *)
Definition free_memory (w : world) : option unit :=
  match available_lock w with
  | None => Some ()
  | Some _ => None
  end.

(** The command line as [main] sees it through the library: [argc]; for
    every call of [getopt] that returns an option, the [int] returned and
    the number [strtol] reads from [optarg]; and the arguments from [optind]
    on once [getopt] has returned -1. *)
Record command_line := CommandLine {
  argc : nat;
  options : list (Z * Z);
  operands : list string
}.

(** The character constant ['j']. *)
Definition opt_j : Z := 106.

(** The loop of lines 76 to 83: every [-j] overwrites [thread_amount] with its
    number, converted from [long] to [int]; other options are ignored. *)
Definition thread_amount (cl : command_line) : Z :=
  foldl (λ n o, if bool_decide (o.1 = opt_j) then wrap32 o.2 else n) 1 (options cl).

(** [print], with the names: line [j] shows [total_sizes[j] / 2] and the
    [j]-th operand.  Reading behind the end of [total_sizes] has no defined
    result. *)
Fixpoint print_from (j : nat) (files : list string) (w : world)
    : option (list (Z * string)) :=
  match files with
  | [] => Some []
  | file :: files =>
      t ← total_sizes w !! j;
      rest ← print_from (S j) files w;
      Some ((Z.quot t 2, file) :: rest)
  end.

Definition print_lines (files : list string) (w : world) : option (list (Z * string)) :=
  print_from 0 files w.

(** What a run of the program shows: the lines [print] writes, the lines the
    program writes to the error stream (what [getopt] itself may write there
    is left out) and the exit status. *)
Record outcome := Outcome {
  out_lines : list (Z * string);
  err_lines : list logline;
  status : Z
}.

(** What the system grants a run of [main].  The number of threads asked
    for is the length of two arrays on the stack ([threads], line 85, and
    [thread_arg], line 111) and the size of [done_threads], and every worker
    needs a thread of the system. *)
Record system := System {
  (** the largest length with which [threads] of line 85 fits on the stack *)
  stack_main : Z;
  (** the largest size for which the [malloc] of [done_threads] succeeds *)
  heap_flags : Z;
  (** the largest length with which [thread_arg] of line 111 fits as well *)
  stack_pool : Z;
  (** the number of calls of [pthread_create] that succeed *)
  thread_limit : nat
}.

(** The runs of [main].  With fewer than two arguments it writes the usage
    line and exits with [EXIT_FAILURE].  Otherwise it declares [threads] and
    runs [initialize], which exits with [EXIT_FAILURE] after the line of
    [perror] when [done_threads] cannot be allocated.  When something is
    queued it calls [run_threads], which declares [thread_arg] and creates
    the workers one after the other: the workers created so far run while
    the others are created (a worker not yet created is a worker that has not
    taken a step), and a failing [pthread_create] ends the program with the
    line of [perror] and [EXIT_FAILURE], nothing being printed.  The workers
    run until the process has ended, so the line of [perror] comes after the
    lines of [initialize] and anywhere among the lines of the workers.  When
    all workers are joined, or when nothing was queued, [main] runs [print]
    and [free_memory] and returns [exit_status].

    A run with [thread_amount] below 1, or with an array that does not fit
    on the stack, has no defined behaviour (the process is killed at best):
    the relation has no outcome for it.  The other allocations are taken to
    succeed. *)
Inductive main (sys : system) (fs : filesystem) (garbage : nat → stat)
    (cl : command_line) : outcome → Prop :=
  | main_usage :
      (argc cl < 2)%nat →
      main sys fs garbage cl (Outcome [] [LogLine "usage: ./mdu file [files]\n" None] 1)
  | main_no_memory :
      (2 ≤ argc cl)%nat →
      1 ≤ thread_amount cl ≤ stack_main sys →
      heap_flags sys < thread_amount cl →
      main sys fs garbage cl (Outcome [] [LogLine "malloc 'done_threads': " None] 1)
  | main_no_thread tr c n :
      (2 ≤ argc cl)%nat →
      1 ≤ thread_amount cl ≤ stack_main sys →
      thread_amount cl ≤ heap_flags sys →
      pool_started (initialize fs garbage (operands cl) (Z.to_nat (thread_amount cl)))
      = true →
      thread_amount cl ≤ stack_pool sys →
      (thread_limit sys < Z.to_nat (thread_amount cl))%nat →
      run fs (run_threads (initialize fs garbage (operands cl) (Z.to_nat (thread_amount cl)))
                          (Z.to_nat (thread_amount cl))) tr c →
      Forall (λ te, (te.1 < thread_limit sys)%nat) tr →
      (length (stderr (initialize fs garbage (operands cl) (Z.to_nat (thread_amount cl))))
       ≤ n ≤ length (stderr c.1))%nat →
      main sys fs garbage cl
           (Outcome [] (take n (stderr c.1)
                          ++ LogLine "pthread_create: " None :: drop n (stderr c.1)) 1)
  | main_returns w lines :
      (2 ≤ argc cl)%nat →
      1 ≤ thread_amount cl ≤ stack_main sys →
      thread_amount cl ≤ heap_flags sys →
      (pool_started (initialize fs garbage (operands cl) (Z.to_nat (thread_amount cl)))
       = true →
       thread_amount cl ≤ stack_pool sys
       ∧ (Z.to_nat (thread_amount cl) ≤ thread_limit sys)%nat) →
      main_final fs garbage (operands cl) (Z.to_nat (thread_amount cl)) w →
      print_lines (operands cl) w = Some lines →
      free_memory w = Some () →
      main sys fs garbage cl (Outcome lines (stderr w) (exit_status w)).

(** ** Where the traversal goes *)

(** The directory a worker has taken from the queue and not yet accounted
    for: [f] between the call of [get_directory_size] in line 182 and the
    addition of line 184. *)
Definition pc_dir (l : pc) : option dir_info :=
  match l with
  | L182 f | L230 f _ _ | L288 f _ _ _ | L183 f _ => Some f
  | _ => None
  end.

(** [f] lies at or below the root it is counted for: its path is the path
    given on the command line for root [parent_id f], extended by [sprintf]
    with entry names, none of them [.] or [..]. *)
Definition below (argv : list string) (f : dir_info) : Prop :=
  ∃ a es, argv !! parent_id f = Some a
          ∧ name f = foldl path_join a es
          ∧ Forall (λ e, skip_name e = false) es.

(** [f] is a directory as far as [lstat] can tell: [lstat] says so, or [f]
    is a root that [lstat] does not find and that the seeder has queued
    because of what its stat buffer held. *)
Definition taken_for_dir (fs : filesystem) (garbage : nat → stat)
    (argv : list string) (f : dir_info) : Prop :=
  (∃ st, lstat fs (name f) = Some st ∧ is_dir st = true)
  ∨ (argv !! parent_id f = Some (name f) ∧ lstat fs (name f) = None
     ∧ is_dir (garbage (parent_id f)) = true).

(** ** The error stream *)

Global Instance logline_eq_dec : EqDecision logline.
Proof. solve_decision. Defined.

Global Instance logline_countable : Countable logline.
Proof.
  apply (inj_countable' (λ m, (fmt m, arg m)) (λ p, LogLine p.1 p.2)). by intros [].
Defined.

(** The lines to expect from a directory in the queue: what its scan writes
    and what the scans of the directories below it write, each line as often
    as it is written. *)
Fixpoint reports (fs : filesystem) (n : nat) (p : string) : gmultiset logline :=
  match n with
  | O => {[+ LogLine "unable to stat: '%s'" (Some p) +]}
  | S n =>
      match lstat fs p with
      | None => {[+ LogLine "unable to stat: '%s'" (Some p) +]}
      | Some _ =>
          match opendir fs p with
          | None => {[+ LogLine "du: cannot read directory '%s': " (Some p) +]}
          | Some d =>
              ⋃+ ((λ e, match entry_action_of fs (DirInfo 0 p) e with
                        | StatFailed m => {[+ m +]}
                        | SubDirectory temp_dir _ => reports fs n (name temp_dir)
                        | _ => ∅
                        end) <$> d_names d)
              ⊎ (if close_fails d then {[+ LogLine "closedir error: " None +]} else ∅)
          end
      end
  end.

Definition reports_path (fs : filesystem) (p : string) : gmultiset logline :=
  reports fs (fuel_for fs p) p.

(** The lines to expect from a run of [main]: one for every root that cannot
    be stat-ed, and those of the directories the seeder queues. *)
Definition expected_reports (fs : filesystem) (garbage : nat → stat)
    (argv : list string) : gmultiset logline :=
  list_to_set_disj ((λ a, LogLine "unable to stat: '%s': " (Some a))
                      <$> filter (λ a, lstat fs a = None) argv)
  ⊎ ⋃+ ((λ f, reports_path fs (name f)) <$> seeded_dirs fs garbage 0 argv).

(** The lines still to come from an entry, from what is left of a directory
    stream, and from a worker. *)
Definition reports_entry (fs : filesystem) (f : dir_info) (e : string)
    : gmultiset logline :=
  match entry_action_of fs f e with
  | StatFailed m => {[+ m +]}
  | SubDirectory temp_dir _ => reports_path fs (name temp_dir)
  | _ => ∅
  end.

Definition reports_stream (fs : filesystem) (f : dir_info) (d : dirstream)
    : gmultiset logline :=
  ⋃+ (reports_entry fs f <$> d_names d)
  ⊎ (if close_fails d then {[+ LogLine "closedir error: " None +]} else ∅).

Definition reports_inflight (fs : filesystem) (l : pc) : gmultiset logline :=
  match l with
  | L182 f => reports_path fs (name f)
  | L230 f d _ | L288 f d _ _ => reports_stream fs f d
  | _ => ∅
  end.

Definition reports_owed (fs : filesystem) (c : pool) : gmultiset logline :=
  ⋃+ ((λ f, reports_path fs (name f)) <$> queue c.1)
  ⊎ ⋃+ (reports_inflight fs <$> c.2).

(** A file system on which none of the system calls of a scan fails: every
    directory it knows can be opened and closed, and everything [readdir]
    returns, [.] and [..] apart, can be stat-ed. *)
Definition readable (fs : filesystem) (p : string) (st : stat) : bool :=
  negb (is_dir st) ||
  match opendir fs p with
  | None => false
  | Some d =>
      negb (close_fails d)
      && forallb (λ e, skip_name e || bool_decide (is_Some (lstat fs (path_join p e))))
                 (d_names d)
  end.

Definition trouble_free (fs : filesystem) : bool :=
  forallb (λ ps, readable fs ps.1 ps.2) (map_to_list (fs_lstat fs)).

(** ** The directories scanned *)

Global Instance dir_info_eq_dec : EqDecision dir_info.
Proof. solve_decision. Defined.

Global Instance dir_info_countable : Countable dir_info.
Proof.
  apply (inj_countable' (λ f, (parent_id f, name f)) (λ p, DirInfo p.1 p.2)). by intros [].
Defined.

(** The directories to be taken from the queue on behalf of a queued
    directory: the directory itself and, if it can be read, the directories
    among its entries with all the directories below them. *)
Fixpoint scans (fs : filesystem) (n : nat) (f : dir_info) : gmultiset dir_info :=
  {[+ f +]} ⊎
  match n with
  | O => ∅
  | S n =>
      match lstat fs (name f) with
      | None => ∅
      | Some _ =>
          match opendir fs (name f) with
          | None => ∅
          | Some d =>
              ⋃+ ((λ e, match entry_action_of fs f e with
                        | SubDirectory temp_dir _ => scans fs n temp_dir
                        | _ => ∅
                        end) <$> d_names d)
          end
      end
  end.

Definition scans_path (fs : filesystem) (f : dir_info) : gmultiset dir_info :=
  scans fs (fuel_for fs (name f)) f.

(** The directories a run of [main] has to scan. *)
Definition expected_scans (fs : filesystem) (garbage : nat → stat)
    (argv : list string) : gmultiset dir_info :=
  ⋃+ (scans_path fs <$> seeded_dirs fs garbage 0 argv).

(** The directories still to be queued for an entry, for what is left of a
    directory stream, and for a worker. *)
Definition scans_entry (fs : filesystem) (f : dir_info) (e : string)
    : gmultiset dir_info :=
  match entry_action_of fs f e with
  | SubDirectory temp_dir _ => scans_path fs temp_dir
  | _ => ∅
  end.

Definition scans_inflight (fs : filesystem) (l : pc) : gmultiset dir_info :=
  match l with
  | L182 f => scans_path fs f ∖ {[+ f +]}
  | L230 f d _ | L288 f d _ _ => ⋃+ (scans_entry fs f <$> d_names d)
  | _ => ∅
  end.

Definition scans_owed (fs : filesystem) (c : pool) : gmultiset dir_info :=
  ⋃+ (scans_path fs <$> queue c.1) ⊎ ⋃+ (scans_inflight fs <$> c.2).

(** ** The buffers for paths *)

(** Bytes a C string takes: its characters and the terminating NUL. *)
Definition c_size (s : string) : nat := S (String.length s).

(** Bytes [get_available_file_size] asks of [malloc] for [temp] (line 264). *)
Definition temp_alloc (file : dir_info) (d_name : string) : nat :=
  (String.length (name file) + String.length d_name + 2) * 1.

(** Bytes [initialize] asks of [malloc] for [file.name] (line 380). *)
Definition name_alloc (arg : string) : nat := (String.length arg + 1) * 1.

(** [malloc] and [free] of a buffer that holds a path.  Buffers are told
    apart by what they hold. *)
Inductive mem_op :=
  | Malloc (s : string)
  | Free (s : string).

(** A heap is the multiset of the buffers allocated and not yet freed.
    Freeing what is not allocated has no defined behaviour. *)
Definition mem_step (h : gmultiset string) (op : mem_op) : option (gmultiset string) :=
  match op with
  | Malloc s => Some (h ⊎ {[+ s +]})
  | Free s => if decide (s ∈ h) then Some (h ∖ {[+ s +]}) else None
  end.

Fixpoint mem_exec (ops : list mem_op) (h : gmultiset string) : option (gmultiset string) :=
  match ops with
  | [] => Some h
  | op :: ops => h' ← mem_step h op; mem_exec ops h'
  end.

(** [initialize] allocates [file.name] for every root (line 380), and
    [initialize_files] frees it again unless it queues the root (line
    424). *)
Fixpoint initialize_mem (fs : filesystem) (garbage : nat → stat) (id : nat)
    (argv : list string) : list mem_op :=
  match argv with
  | [] => []
  | a :: argv =>
      Malloc a
      :: (if is_dir (default (garbage id) (lstat fs a)) then [] else [Free a])
      ++ initialize_mem fs garbage (S id) argv
  end.

(** What a step of a worker allocates and frees: [get_directory_size] frees
    [file.name] when [lstat] or [opendir] fails (lines 215 and 225) and when
    the [readdir] loop is over (line 235); [get_available_file_size]
    allocates [temp] (line 264) and frees it (lines 277 and 291) unless it
    queues it. *)
Definition thread_func_mem (fs : filesystem) (l : pc) : list mem_op :=
  match l with
  | L182 f =>
      match lstat fs (name f) with
      | None => [Free (name f)]
      | Some _ =>
          match opendir fs (name f) with
          | None => [Free (name f)]
          | Some _ => []
          end
      end
  | L230 f d _ =>
      match d_names d with
      | [] => [Free (name f)]
      | e :: _ =>
          let temp := path_join (name f) e in
          match entry_action_of fs f e with
          | Skipped => []
          | StatFailed _ => [Malloc temp; Free temp]
          | SubDirectory _ _ => [Malloc temp]
          | PlainFile _ => [Malloc temp; Free temp]
          end
      end
  | _ => []
  end.

(** Executions of the pool together with the heap. *)
Inductive heap_run (fs : filesystem) (c0 : pool) (h0 : gmultiset string)
    : list (nat * event) → pool → gmultiset string → Prop :=
  | heap_run_nil : heap_run fs c0 h0 [] c0 h0
  | heap_run_snoc tr c h t l e c' h' :
      heap_run fs c0 h0 tr c h →
      c.2 !! t = Some l →
      step fs t c = Some (e, c') →
      mem_exec (thread_func_mem fs l) h = Some h' →
      heap_run fs c0 h0 (tr ++ [(t, e)]) c' h'.

(** The buffer a worker holds: [file.name], from the pop up to the [free] in
    [get_directory_size]. *)
Definition holds (l : pc) : gmultiset string :=
  match l with
  | L182 f | L230 f _ _ | L288 f _ _ _ => {[+ name f +]}
  | _ => ∅
  end.

(** The buffers in use: the names in the queue and those held by workers. *)
Definition live (c : pool) : gmultiset string :=
  list_to_set_disj (name <$> queue c.1) ⊎ ⋃+ (holds <$> c.2).

(** ** Accesses to [done] and [done_threads] *)

(** The two shared variables that are also accessed outside the critical
    section of [available_lock]: line 174 reads [done] and line 178 writes
    [done_threads[info.thread_id]] without holding the lock. *)
Inductive location :=
  | Done
  | DoneThread (i : nat).

Inductive access :=
  | Read (x : location)
  | Write (x : location).

(** The access to these variables a worker makes by its next step. *)
Definition next_access (info : thread_info) (l : pc) : option access :=
  match l with
  | L151 | L178 => Some (Write (DoneThread (thread_id info)))
  | L153 | L156 => Some (Write Done)
  | L154 i =>
      if bool_decide (i < thread_max info)%nat then Some (Read (DoneThread i)) else None
  | L162 | L174 => Some (Read Done)
  | _ => None
  end.

(** Two accesses conflict when they go to the same variable and one of them
    writes. *)
Definition conflict (a b : access) : Prop :=
  match a, b with
  | Read x, Write y | Write x, Read y | Write x, Write y => x = y
  | Read _, Read _ => False
  end.

(** ** Further states of the scenario *)

(** The scenario run by two workers, up to the step in which worker 0 has
    queued the directory [b] and not yet posted; worker 1 waits. *)
Definition scenario_scan : list (nat * event) * pool :=
  Eval vm_compute in
    default ([], scenario_start)
            (exec scenario_fs (take 17 scenario_schedule) scenario_start).

(** The scenario run by two workers, up to a state in which worker 0 is
    about to clear its cell of [done_threads] outside the critical section
    while worker 1, inside, is about to set its own. *)
Definition scenario_race : list (nat * event) * pool :=
  Eval vm_compute in
    default ([], scenario_start)
            (exec scenario_fs (take 7 scenario_schedule) scenario_start).

(** * Machine integers, paths and the reference recursion *)

(** [wrap32] picks the representative of a class modulo 2^32. *)
Lemma wrap32_mod x : wrap32 x `mod` 2^32 = x `mod` 2^32.
Proof.
  unfold wrap32.
  rewrite <- (Zminus_mod_idemp_l ((x + 2^31) `mod` 2^32)), Z.mod_mod by done.
  rewrite Zminus_mod_idemp_l. f_equal. lia.
Qed.

Lemma wrap32_eq x y : x `mod` 2^32 = y `mod` 2^32 ↔ wrap32 x = wrap32 y.
Proof.
  split.
  - intros H. unfold wrap32. f_equal.
    rewrite <- (Z.add_mod_idemp_l x), <- (Z.add_mod_idemp_l y) by done. by rewrite H.
  - intros H. rewrite <- (wrap32_mod x), <- (wrap32_mod y). by rewrite H.
Qed.

Lemma wrap32_add_l x y : wrap32 (wrap32 x + y) = wrap32 (x + y).
Proof.
  apply wrap32_eq. rewrite <- Z.add_mod_idemp_l, wrap32_mod by done.
  by rewrite Z.add_mod_idemp_l by done.
Qed.

Lemma wrap32_add_r x y : wrap32 (x + wrap32 y) = wrap32 (x + y).
Proof. rewrite (Z.add_comm x), wrap32_add_l. by rewrite Z.add_comm. Qed.

Lemma wrap32_idemp x : wrap32 (wrap32 x) = wrap32 x.
Proof. rewrite <- (Z.add_0_r (wrap32 x)) at 1. by rewrite wrap32_add_l, Z.add_0_r. Qed.

Lemma wrap32_small x : - 2^31 ≤ x ≤ INT_MAX → wrap32 x = x.
Proof.
  unfold wrap32, INT_MAX. change (2^31) with 2147483648. change (2^32) with 4294967296.
  intros H. rewrite Z.mod_small; lia.
Qed.

(** A joined path is longer than the directory's. *)
Lemma string_length_append (s1 s2 : string) :
  String.length (String.append s1 s2) = (String.length s1 + String.length s2)%nat.
Proof. induction s1 as [|a s1 IH]; simpl; [done|]. by rewrite IH. Qed.

Lemma path_join_length p e :
  String.length (path_join p e) = (String.length p + 1 + String.length e)%nat.
Proof. unfold path_join. rewrite !string_length_append. simpl. lia. Qed.

Section reference.
Context (fs : filesystem).

(** A path the file system knows is shorter than [depth_bound]. *)
Lemma lstat_length p st :
  lstat fs p = Some st → (String.length p < depth_bound fs)%nat.
Proof.
  unfold lstat, depth_bound. intros H.
  apply elem_of_map_to_list in H.
  assert (String.length p ∈ String.length <$> (map_to_list (fs_lstat fs)).*1) as Hp.
  { apply list_elem_of_fmap. exists p. split; [done|].
    apply list_elem_of_fmap. by exists (p, st). }
  apply max_list_elem_of_le in Hp. lia.
Qed.

(** Beyond [fuel_for] more fuel changes nothing. *)
Lemma du_stable n m p :
  (fuel_for fs p ≤ n)%nat → (fuel_for fs p ≤ m)%nat → du fs n p = du fs m p.
Proof.
  revert m p. induction n as [|n IH]; intros m p Hn Hm.
  - destruct m as [|m]; [done|]. simpl.
    destruct (lstat fs p) as [st|] eqn:Hst; [|done].
    apply lstat_length in Hst. unfold fuel_for in Hn. lia.
  - destruct m as [|m]; simpl.
    + destruct (lstat fs p) as [st|] eqn:Hst; [|done].
      apply lstat_length in Hst. unfold fuel_for in Hm. lia.
    + destruct (lstat fs p) as [st|] eqn:Hst; [|done].
      f_equal. destruct (is_dir st); [|done].
      destruct (opendir fs p) as [d|]; [|done].
      f_equal. apply list_fmap_ext. intros i e _.
      destruct (skip_name e); [done|].
      apply IH; unfold fuel_for in *; rewrite path_join_length; lia.
Qed.

(** The recursion equation of the reference, free of fuel. *)
Lemma du_path_unfold p :
  du_path fs p =
  match lstat fs p with
  | None => 0
  | Some st => st_blocks st + if is_dir st then contents fs p else 0
  end.
Proof.
  unfold du_path. destruct (lstat fs p) as [st|] eqn:Hst.
  - pose proof (lstat_length _ _ Hst) as Hlen.
    destruct (fuel_for fs p) as [|n] eqn:Hf; [unfold fuel_for in Hf; lia|].
    simpl. rewrite Hst. f_equal. destruct (is_dir st); [|done].
    unfold contents. destruct (opendir fs p) as [d|]; [|done].
    f_equal. apply list_fmap_ext. intros i e _. unfold entry_du.
    destruct (skip_name e); [done|]. unfold du_path.
    apply du_stable; unfold fuel_for in *; rewrite path_join_length; lia.
  - destruct (fuel_for fs p); simpl; [done|]. by rewrite Hst.
Qed.
End reference.

(** * Steps of a worker *)

(** A step of the pool is a step of one worker. *)
Lemma step_inv fs t w ps e c' :
  step fs t (w, ps) = Some (e, c') →
  ∃ l l' w', ps !! t = Some l
    ∧ thread_func fs (ThreadInfo (length ps) t) l w = Some (e, l', w')
    ∧ c' = (w', <[t := l']> ps).
Proof.
  unfold step. simpl. intros H.
  destruct (ps !! t) as [l|]; simpl in H; [|done].
  destruct (thread_func _ _ l w) as [[[e' l'] w']|] eqn:Hf; simpl in H; [|done].
  simplify_eq. by exists l, l', w'.
Qed.

(** A lookup after the stepping worker's program point was updated. *)
Ltac insert_cases H :=
  apply list_lookup_insert_Some in H as [(-> & <- & ?)|[? H]].

Lemma get_available_file_Some w f w' :
  get_available_file w = Some (f, w') →
  1 ≤ nr_available_files w
  ∧ available_files w !! Z.to_nat (nr_available_files w - 1) = Some f
  ∧ w' = World (total_sizes w) (nr_available_files w - 1) (exit_status w)
               (done_threads w) (done w) (available_files w)
               (available_lock w) (available_sem w) (stderr w).
Proof.
  unfold get_available_file. case_bool_decide; [|done].
  destruct (available_files w !! _) eqn:Hl; simpl; [|done].
  intros. simplify_eq. split; [lia|done].
Qed.

Lemma sem_wait_Some w w' :
  sem_wait w = Some w' →
  ∃ n, available_sem w = S n
  ∧ w' = World (total_sizes w) (nr_available_files w) (exit_status w)
               (done_threads w) (done w) (available_files w)
               (available_lock w) n (stderr w).
Proof. unfold sem_wait. destruct (available_sem w) as [|n]; [done|]. intros. exists n. by simplify_eq. Qed.

(** Case analysis over the program point of the stepping worker and over the
    branches it takes there. *)
Ltac thread_cases Hf :=
  match type of Hf with
  | thread_func _ _ ?l _ = Some _ =>
      destruct l; simpl in Hf;
      repeat first
        [ match type of Hf with
          | context [sem_wait ?w] =>
              let Hw := fresh "Hwait" in
              destruct (sem_wait w) as [?|] eqn:Hw; simpl in Hf;
              [apply sem_wait_Some in Hw as (? & Hw & ->)|done]
          | context [get_available_file ?w] =>
              let Hw := fresh "Hpop" in
              destruct (get_available_file w) as [[??]|] eqn:Hw; simpl in Hf;
              [apply get_available_file_Some in Hw as (? & Hw & ->)|done]
          end
        | case_match ];
      simplify_eq/=;
      repeat match goal with
        | H : bool_decide _ = true |- _ => apply bool_decide_eq_true in H
        | H : bool_decide _ = false |- _ => apply bool_decide_eq_false in H
        end
  end.

(** The lock discipline, the meaning of [done_threads] and the bounds of the
    queue are kept by every step. *)
Lemma structure_ok_step fs t c e c' :
  structure_ok c → step fs t c = Some (e, c') → structure_ok c'.
Proof.
  destruct c as [w ps]. intros [Hfl Hin Hout Hq] Hstep. simpl in *.
  apply step_inv in Hstep as (l & l' & w' & Hl & Hf & ->).
  pose proof (lookup_lt_Some _ _ _ Hl) as Hlt.
  assert (idle <$> ps = <[t := idle l]> (idle <$> ps)) as Hid.
  { symmetry. apply list_insert_id. by rewrite list_lookup_fmap, Hl. }
  split; simpl.
  - rewrite list_fmap_insert.
    thread_cases Hf; try (by rewrite Hfl); try (by rewrite Hfl, <- Hid).
  - intros t' l0 Hl0 Hcs. insert_cases Hl0.
    + thread_cases Hf; try done; try (by apply (Hin _ _ Hl)).
    + pose proof (Hin _ _ Hl0 Hcs) as Hlock.
      thread_cases Hf; try done; try congruence.
      all: pose proof (Hin _ _ Hl eq_refl); congruence.
  - intros t' Hlock.
    assert (available_lock w = Some t' → (in_cs l = true → in_cs l' = true) →
            ∃ l0, <[t:=l']> ps !! t' = Some l0 ∧ in_cs l0 = true) as Hkeep.
    { intros H1 H2. destruct (Hout _ H1) as (l0 & Hl0 & Hc0).
      destruct (decide (t' = t)) as [->|Hne].
      - exists l'. rewrite list_lookup_insert_eq by done. split; [done|].
        apply H2. by simplify_eq.
      - exists l0. by rewrite list_lookup_insert_ne. }
    thread_cases Hf; try (by apply Hkeep); try done.
    exists L151. by rewrite list_lookup_insert_eq.
  - thread_cases Hf; try done; try lia.
    rewrite length_insert, length_resize. lia.
Qed.

(** * The termination protocol *)

Lemma sum_list_with_insert {A} (f : A → nat) (ps : list A) t l l' :
  ps !! t = Some l →
  (sum_list_with f (<[t:=l']> ps) + f l = sum_list_with f ps + f l')%nat.
Proof.
  revert t. induction ps as [|a ps IH]; intros [|t] H; simplify_eq/=; [lia|].
  specialize (IH _ H). lia.
Qed.

Lemma sum_list_with_lookup {A} (f : A → nat) (ps : list A) t l :
  ps !! t = Some l → (f l ≤ sum_list_with f ps)%nat.
Proof. intros H. apply sum_list_with_in. by eapply list_elem_of_lookup_2. Qed.

Lemma sum_list_with_zero {A} (f : A → nat) (l : list A) :
  (∀ i x, l !! i = Some x → f x = 0%nat) → sum_list_with f l = 0%nat.
Proof.
  induction l as [|a l IH]; intros H; simpl; [done|].
  rewrite (H 0%nat a), IH; [done| |done]. intros i x Hi. by apply (H (S i)).
Qed.

Lemma busy_insert_keep ps t l l' :
  ps !! t = Some l → (idle l = false → idle l' = false) →
  busy_exists ps → busy_exists (<[t:=l']> ps).
Proof.
  intros Hl Himp (j & l0 & Hj & Hb). destruct (decide (j = t)) as [->|Hne].
  - exists t, l'. rewrite list_lookup_insert_eq by by eapply lookup_lt_Some.
    split; [done|]. apply Himp. by simplify_eq.
  - exists j, l0. by rewrite list_lookup_insert_ne.
Qed.

Lemma busy_insert_new ps t l l' :
  ps !! t = Some l → idle l' = false → busy_exists (<[t:=l']> ps).
Proof.
  intros Hl Hb. exists t, l'. by rewrite list_lookup_insert_eq by by eapply lookup_lt_Some.
Qed.

Lemma not_in_cs_knows c l : in_cs l = false → holder_knows c l.
Proof. by destruct l. Qed.

Lemma lock_free_not_in_cs c t l :
  structure_ok c → available_lock c.1 = None → c.2 !! t = Some l → in_cs l = false.
Proof.
  intros Hs Hfree Hl. destruct (in_cs l) eqn:Hcs; [|done].
  pose proof (so_lock_in _ Hs _ _ Hl Hcs). congruence.
Qed.

Lemma holder_unique c t l t' l' :
  structure_ok c → c.2 !! t = Some l → in_cs l = true →
  c.2 !! t' = Some l' → in_cs l' = true → t' = t.
Proof.
  intros Hs Hl Hcs Hl' Hcs'.
  pose proof (so_lock_in _ Hs _ _ Hl Hcs). pose proof (so_lock_in _ Hs _ _ Hl' Hcs').
  congruence.
Qed.

Lemma saw_empty_in_cs l : saw_empty l = true → in_cs l = true.
Proof. by destruct l. Qed.

Lemma tentative_saw_empty l : tentative l = true → saw_empty l = true.
Proof. by destruct l. Qed.

(** While some worker is past the emptiness test of line 152, nobody holds a
    semaphore unit and no push awaits its post. *)
Lemma searching_no_credit c t0 l0 t l :
  searching c → c.2 !! t0 = Some l0 → saw_empty l0 = true →
  c.2 !! t = Some l → credit l = 0%nat.
Proof.
  intros Hse Hl0 H0 Hl.
  pose proof (se_empty _ Hse _ _ Hl0 H0) as Hnr.
  pose proof (se_tokens _ Hse) as Htok.
  pose proof (sum_list_with_lookup credit _ _ _ Hl). lia.
Qed.

Lemma searching_done_no_credit c t l :
  searching c → done c.1 = true → c.2 !! t = Some l → credit l = 0%nat.
Proof.
  intros Hse Hd Hl. destruct (se_done _ Hse Hd) as (t0 & l0 & Hl0 & Ht).
  eapply searching_no_credit; eauto using tentative_saw_empty.
Qed.

(** When a worker finds [done] still set at line 162, everybody else is
    waiting on the semaphore. *)
Lemma declare_others w ps t t' l' :
  structure_ok (w, ps) → searching (w, ps) →
  ps !! t = Some L162 → done w = true →
  t' ≠ t → ps !! t' = Some l' → l' = L172.
Proof.
  intros Hs Hse Hl Hd Hne Hl'.
  pose proof (se_knows _ Hse _ _ Hl) as Hk. simpl in *. rewrite Hd in Hk.
  pose proof (Hk _ _ Hl') as Hidle.
  pose proof (se_before _ Hse _ _ Hl') as Hbef.
  pose proof (searching_no_credit _ _ _ _ _ Hse Hl eq_refl Hl') as Hcr.
  destruct (in_cs l') eqn:Hcs.
  { exfalso. apply Hne. by eapply (holder_unique (w, ps)). }
  simpl in *. by destruct l'.
Qed.

Lemma declare_step w ps t :
  structure_ok (w, ps) → searching (w, ps) →
  ps !! t = Some L162 → done w = true →
  declared (w, <[t:=L163 0]> ps) t.
Proof.
  intros Hs Hse Hl Hd.
  pose proof (lookup_lt_Some _ _ _ Hl) as Hlt.
  pose proof (se_empty _ Hse _ _ Hl eq_refl) as Hnr.
  pose proof (se_tokens _ Hse) as Htok.
  pose proof (λ t' l', declare_others w ps t t' l' Hs Hse Hl Hd) as Hothers.
  assert (sum_list_with spent ps = 0%nat) as Hspent.
  { apply sum_list_with_zero. intros t' l' Hl'.
    destruct (decide (t' = t)) as [->|Hne]; [by simplify_eq|].
    by rewrite (Hothers _ _ Hne Hl'). }
  split; simpl.
  - exists (L163 0). rewrite list_lookup_insert_eq by done. rewrite length_insert.
    split_and!; [done|done|intros i [= <-]; lia|].
    pose proof (sum_list_with_insert spent ps t L162 (L163 0) Hl). simpl in *. lia.
  - done.
  - done.
  - intros t' l' Hne Hl'. rewrite list_lookup_insert_ne in Hl' by done.
    by rewrite (Hothers _ _ Hne Hl').
Qed.

Lemma holder_knows_other w ps w' t l l' l0 :
  holder_knows (w, ps) l0 →
  ps !! t = Some l →
  done w' = done w → nr_available_files w' = nr_available_files w →
  idle l' = idle l ∨ (idle l' = false ∧ saw_empty l0 = false) →
  holder_knows (w', <[t:=l']> ps) l0.
Proof.
  intros Hk Hl Hd Hnr Hidle.
  assert (busy_exists ps → busy_exists (<[t:=l']> ps)) as Hbusy.
  { apply (busy_insert_keep _ _ _ _ Hl). destruct Hidle as [->|[-> _]]; done. }
  destruct l0; simpl in *; try done.
  - destruct Hk as [Hdone Hall]. split; [congruence|].
    intros j l1 Hj Hl1. destruct Hidle as [Hidle|[_ ?]]; [|done].
    apply list_lookup_insert_Some in Hl1 as [(-> & <- & ?)|[? Hl1]]; [|by eauto].
    rewrite Hidle. by eapply Hall.
  - by apply Hbusy.
  - rewrite Hd. destruct (done w); [|by apply Hbusy].
    intros j l1 Hl1. destruct Hidle as [Hidle|[_ ?]]; [|done].
    apply list_lookup_insert_Some in Hl1 as [(-> & <- & ?)|[? Hl1]]; [|by eauto].
    rewrite Hidle. by eapply Hk.
  - unfold work in *. simpl in *. rewrite Hnr. destruct Hk as [?|?]; [by left|right; by apply Hbusy].
Qed.

(** A step before the declaration either is the declaration or keeps all
    that the searching phase knows. *)
Lemma searching_step fs t c e c' :
  structure_ok c → searching c → step fs t c = Some (e, c') →
  (e = Announce ∧ declared c' t) ∨ (e ≠ Announce ∧ searching c').
Proof.
  destruct c as [w ps]. intros Hs Hse Hstep.
  apply step_inv in Hstep as (l & l' & w' & Hl & Hf & ->).
  assert ((l = L162 ∧ done w = true) ∨ ¬ (l = L162 ∧ done w = true)) as [[-> Hd]|Hnd].
  { destruct l; try (by right; intros [? ?]). destruct (done w); [by left|by right; intros [? ?]]. }
  { left. simpl in Hf. rewrite Hd in Hf. simplify_eq. split; [done|].
    by apply declare_step. }
  right.
  assert (e ≠ Announce) as He.
  { intros ->. thread_cases Hf. naive_solver. }
  split; [done|].
  pose proof (lookup_lt_Some _ _ _ Hl) as Hlt.
  pose proof (se_before _ Hse _ _ Hl) as Hdl.
  pose proof (se_tokens _ Hse) as Htok.
  pose proof (sum_list_with_insert credit ps t l l' Hl) as Hsum.
  pose proof (so_queue _ Hs) as Hq.
  pose proof (λ H, searching_done_no_credit _ _ _ Hse H Hl) as Hcr.
  simpl in *.
  split; simpl.
  - (* se_before *)
    intros t' l0 Hl0. insert_cases Hl0; [|by eapply (se_before _ Hse)].
    thread_cases Hf; try done. by specialize (Hcr eq_refl).
  - (* se_tokens *)
    thread_cases Hf; lia.
  - (* se_done *)
    intros Hd'.
    assert (done w = true → (tentative l = true → tentative l' = true) →
            ∃ t0 l0, <[t:=l']> ps !! t0 = Some l0 ∧ tentative l0 = true) as Hkeep.
    { intros Hd Himp. destruct (se_done _ Hse Hd) as (t0 & l0 & Hl0 & Ht0).
      destruct (decide (t0 = t)) as [->|Hne].
      - exists t, l'. rewrite list_lookup_insert_eq by done. split; [done|].
        apply Himp. by simplify_eq/=.
      - exists t0, l0. by rewrite list_lookup_insert_ne. }
    thread_cases Hf; try (by apply Hkeep); try done; try congruence.
    exists t, (L154 0). by rewrite list_lookup_insert_eq.
  - (* se_empty *)
    intros t' l0 Hl0 He0. insert_cases Hl0.
    + pose proof (se_empty _ Hse _ _ Hl) as Hold. simpl in Hold.
      thread_cases Hf; try done; try (by apply Hold).
    + pose proof (se_empty _ Hse _ _ Hl0 He0) as Hold.
      pose proof (so_lock_in _ Hs _ _ Hl0 (saw_empty_in_cs _ He0)) as Hlock.
      simpl in *.
      thread_cases Hf; try done; try congruence.
  - (* se_knows *)
    intros t' l0 Hl0. insert_cases Hl0.
    + pose proof (se_knows _ Hse _ _ Hl) as Hold.
      pose proof (so_flags _ Hs) as Hfl. simpl in Hfl.
      thread_cases Hf; try done.
      * left. simpl. lia.
      * split; [done|]. intros; lia.
      * destruct Hold as [Hd Hall]. split; [done|].
        intros j l1 Hj Hl1. insert_cases Hl1; [done|].
        destruct (decide (j = i)) as [->|]; [|eapply Hall; [|done]; lia].
        rewrite Hfl, list_lookup_fmap, Hl1 in *. by simplify_eq/=.
      * rewrite Hfl, list_lookup_fmap in *.
        destruct (ps !! i) as [l1|] eqn:Hi; simplify_eq/=.
        exists i, l1. split; [|done]. rewrite list_lookup_insert_ne; [done|].
        intros ->. by simplify_eq.
      * destruct Hold as [Hd Hall]. rewrite Hd.
        intros j l1 Hl1. insert_cases Hl1; [done|]. eapply Hall; [|done].
        apply lookup_lt_Some in Hl1. lia.
      * by eapply busy_insert_keep.
      * right. simpl. eapply busy_insert_keep; [done|done|].
        by destruct (done w').
    + destruct (in_cs l0) eqn:Hcs0; [|by apply not_in_cs_knows].
      assert (in_cs l = false) as Hcs.
      { destruct (in_cs l) eqn:Hcs; [|done]. exfalso.
        by pose proof (holder_unique (w, ps) _ _ _ _ Hs Hl Hcs Hl0 Hcs0). }
      pose proof (so_lock_in _ Hs _ _ Hl0 Hcs0) as Hlock.
      pose proof (se_knows _ Hse _ _ Hl0) as Hold.
      pose proof (λ H, searching_no_credit _ _ _ _ _ Hse Hl0 H Hl) as Hcr0.
      simpl in *.
      eapply holder_knows_other; [done|done|..].
      all: thread_cases Hf; try done; try congruence; try (by left).
      right. split; [done|]. destruct (saw_empty l0); [by specialize (Hcr0 eq_refl)|done].
  - (* se_work *)
    intros Hfree.
    assert (work (w, ps) → (idle l' = false ∨ (idle l = true ∧ nr_available_files w' = nr_available_files w)) →
            work (w', <[t:=l']> ps)) as Hkeep.
    { intros [Hnr|Hbusy] [Hi|[Hi Hnr']].
      - right. by eapply busy_insert_new.
      - left. simpl in *. lia.
      - right. by eapply busy_insert_new.
      - right. eapply busy_insert_keep; [done| |done]. congruence. }
    pose proof (se_work _ Hse) as Hold.
    pose proof (se_knows _ Hse _ _ Hl) as Hk.
    pose proof (so_lock_in _ Hs _ _ Hl) as Hlock.
    simpl in *.
    thread_cases Hf; try (specialize (Hlock eq_refl); congruence).
    all: try (apply Hkeep; [by auto|]; by auto).
Qed.

(** After the declaration the workers only consume wake-up signals and
    return. *)
Lemma declared_step fs t c d e c' :
  structure_ok c → declared c d → step fs t c = Some (e, c') →
  e ≠ Announce ∧ declared c' d.
Proof.
  destruct c as [w ps]. intros Hs [(ld & Hld & Hdecl & Hle & Hsum) Hdone Hnr Hoth] Hstep.
  apply step_inv in Hstep as (l & l' & w' & Hl & Hf & ->).
  pose proof (lookup_lt_Some _ _ _ Hl) as Hlt.
  pose proof (sum_list_with_insert spent ps t l l' Hl) as Hins.
  simpl in *.
  destruct (decide (t = d)) as [->|Hne].
  - assert (∀ t' l0, t' ≠ d → <[d:=l']> ps !! t' = Some l0 → leaving l0 = true) as Hoth'.
    { intros t' l0 Hne Hl0. rewrite list_lookup_insert_ne in Hl0 by done. eauto. }
    simplify_eq.
    thread_cases Hf; try done.
    all: split; [done|]; split; simpl; try done.
    all: eexists; rewrite list_lookup_insert_eq by done; rewrite length_insert.
    all: specialize (Hle _ eq_refl) || clear Hle.
    all: split_and!; [done|done|intros ? [= <-]; lia || done|simpl in *; lia].
  - pose proof (Hoth _ _ Hne Hl) as Hleave.
    assert (∀ t' l0, t' ≠ d → leaving l' = true →
            <[t:=l']> ps !! t' = Some l0 → leaving l0 = true) as Hoth'.
    { intros t' l0 Hne' Hl' Hl0. insert_cases Hl0; eauto. }
    thread_cases Hf; try done; try congruence.
    all: split; [done|]; split; simpl; try done; try (by intros; eapply Hoth').
    all: exists ld; rewrite list_lookup_insert_ne by done; rewrite length_insert.
    all: split_and!; [done|done|done|simpl in *; lia].
Qed.

Lemma protocol_ok_step fs t c e c' :
  structure_ok c → protocol_ok c → step fs t c = Some (e, c') → protocol_ok c'.
Proof.
  intros Hs [Hse|[d Hde]] Hstep.
  - destruct (searching_step _ _ _ _ _ Hs Hse Hstep) as [[_ ?]|[_ ?]].
    + right. by exists t.
    + by left.
  - right. exists d. by eapply declared_step.
Qed.

(** * The state left by the seeder *)

(** A push appends to the queue. *)
Lemma set_available_file_queue f w :
  0 ≤ nr_available_files w ≤ Z.of_nat (length (available_files w)) →
  queue (set_available_file f w) = queue w ++ [f].
Proof.
  intros Hq. unfold queue, set_available_file. simpl.
  replace (nr_available_files w + 1 - 1) with (nr_available_files w) by lia.
  replace (Z.to_nat (nr_available_files w + 1)) with (S (Z.to_nat (nr_available_files w))) by lia.
  rewrite take_ge by (rewrite length_insert, length_resize; lia).
  rewrite resize_spec.
  replace (S (Z.to_nat (nr_available_files w)) - length (available_files w))%nat
    with (if decide (Z.to_nat (nr_available_files w) = length (available_files w))
          then 1%nat else 0%nat) by (case_decide; lia).
  case_decide as Hd; simpl.
  - rewrite !take_ge by lia. rewrite Hd.
    replace (length (available_files w)) with (length (available_files w) + 0)%nat at 1 by lia.
    by rewrite insert_app_r.
  - rewrite app_nil_r.
    destruct (lookup_lt_is_Some_2 (available_files w) (Z.to_nat (nr_available_files w)))
      as [x Hx]; [lia|].
    rewrite (take_S_r _ _ _ Hx).
    replace (Z.to_nat (nr_available_files w))
      with (length (take (Z.to_nat (nr_available_files w)) (available_files w)) + 0)%nat at 1
      by (rewrite length_take; lia).
    by rewrite insert_app_r.
Qed.

Lemma seeded_initialize_files K fs g file w :
  seeded K w → seeded K (initialize_files fs g file w).
Proof.
  intros [Hfl Hd Hlk Hsem Hq]. unfold initialize_files.
  destruct (lstat fs (name file)) as [st|]; simpl.
  - destruct (is_dir st); split; simpl; try done; try lia.
    rewrite length_insert, length_resize. lia.
  - destruct (is_dir g); split; simpl; try done; try lia.
    rewrite length_insert, length_resize. lia.
Qed.

Lemma seeded_initialize_from K fs g id argv w :
  seeded K w → seeded K (initialize_from fs g id argv w).
Proof.
  revert id w. induction argv as [|a argv IH]; intros id w Hw; simpl; [done|].
  apply IH, seeded_initialize_files. by destruct Hw.
Qed.

Lemma seeded_initialize fs g argv K : seeded K (initialize fs g argv K).
Proof. apply seeded_initialize_from. by split. Qed.

Lemma seeded_structure_ok K w : seeded K w → structure_ok (run_threads w K).
Proof.
  intros [Hfl Hd Hlk Hsem Hq]. split; simpl.
  - by rewrite fmap_replicate.
  - intros t l [-> _]%lookup_replicate. done.
  - intros t. by rewrite Hlk.
  - lia.
Qed.

Lemma sum_list_with_replicate {A} (f : A → nat) n x :
  sum_list_with f (replicate n x) = (n * f x)%nat.
Proof. induction n as [|n IH]; simpl; [done|]. by rewrite IH. Qed.

Lemma seeded_searching K w : (1 ≤ K)%nat → seeded K w → searching (run_threads w K).
Proof.
  intros HK [Hfl Hd Hlk Hsem Hq]. split; simpl.
  - intros t l [-> _]%lookup_replicate. done.
  - rewrite sum_list_with_replicate. simpl. lia.
  - by rewrite Hd.
  - intros t l [-> _]%lookup_replicate. done.
  - intros t l [-> _]%lookup_replicate. done.
  - intros _. right. exists 0%nat, L150. split; [|done].
    apply lookup_replicate. split; [done|lia].
Qed.

(** Both invariants hold in every reachable state of the pool. *)
Lemma run_invariants fs g argv K tr c :
  (1 ≤ K)%nat →
  run fs (run_threads (initialize fs g argv K) K) tr c →
  structure_ok c ∧ protocol_ok c.
Proof.
  intros HK Hrun. induction Hrun as [|tr c t e c' _ [IHs IHp] Hstep].
  - pose proof (seeded_initialize fs g argv K) as Hsd. split.
    + by apply seeded_structure_ok.
    + left. by apply seeded_searching.
  - split.
    + by eapply structure_ok_step.
    + by eapply protocol_ok_step.
Qed.

Lemma run_length fs c0 tr c : run fs c0 tr c → length c.2 = length c0.2.
Proof.
  induction 1 as [|tr c t e c' _ IH Hstep]; [done|].
  destruct c as [w ps]. apply step_inv in Hstep as (l & l' & w' & Hl & Hf & ->).
  simpl in *. by rewrite length_insert.
Qed.

(** * Absence of deadlock *)

Lemma step_enabled fs t w ps l :
  ps !! t = Some l →
  is_Some (thread_func fs (ThreadInfo (length ps) t) l w) →
  ∃ e c', step fs t (w, ps) = Some (e, c').
Proof.
  intros Hl [[[e l'] w'] Hf]. unfold step. simpl. rewrite Hl. simpl. rewrite Hf. simpl.
  by eexists _, _.
Qed.

Lemma find_or_all {A} (p : A → bool) (l : list A) :
  (∃ i x, l !! i = Some x ∧ p x = false) ∨ (∀ i x, l !! i = Some x → p x = true).
Proof.
  induction l as [|a l [(i & x & Hi & Hx)|IH]].
  - right. intros i x. by rewrite lookup_nil.
  - left. by exists (S i), x.
  - destruct (p a) eqn:Ha.
    + right. intros [|i] x Hi; simplify_eq/=; eauto.
    + left. by exists 0%nat, a.
Qed.

Lemma sum_list_with_le_length {A} (f : A → nat) (l : list A) :
  (∀ x, f x ≤ 1)%nat → (sum_list_with f l ≤ length l)%nat.
Proof. intros H. induction l as [|a l IH]; simpl; [done|]. specialize (H a). lia. Qed.

(** The holder of the lock is never blocked. *)
Lemma holder_enabled fs c t :
  structure_ok c → available_lock c.1 = Some t →
  ∃ e c', step fs t c = Some (e, c').
Proof.
  destruct c as [w ps]. intros Hs Hlock.
  destruct (so_lock_out _ Hs _ Hlock) as (l & Hl & Hcs). simpl in *.
  apply (step_enabled _ _ _ _ _ Hl).
  destruct l; simpl in *; try done; repeat case_match; try done.
  pose proof (so_flags _ Hs) as Hfl. simpl in Hfl.
  match goal with H : done_threads w !! _ = None |- _ =>
    apply lookup_ge_None in H; rewrite Hfl, length_fmap in H end.
  match goal with H : bool_decide _ = true |- _ => apply bool_decide_eq_true in H end.
  lia.
Qed.

(** A pool in which nobody can move has been joined. *)
Lemma progress fs c :
  structure_ok c → protocol_ok c →
  joined c ∨ ∃ t e c', step fs t c = Some (e, c').
Proof.
  destruct c as [w ps]. intros Hs Hp.
  destruct (available_lock w) as [t|] eqn:Hlock.
  { right. exists t. by apply holder_enabled. }
  destruct (find_or_all parked ps) as [(t & l & Hl & Hpk)|Hall].
  - right. exists t. apply (step_enabled _ _ _ _ _ Hl).
    pose proof (lock_free_not_in_cs _ _ _ Hs Hlock Hl) as Hcs.
    destruct l; simpl in *; try done; try (rewrite Hlock); try done; repeat case_match; try done.
    (* line 181: the pop finds an item *)
    assert (1 ≤ nr_available_files w) as Hnr.
    { destruct Hp as [Hse|[d Hde]].
      - pose proof (se_tokens _ Hse) as Htok.
        pose proof (sum_list_with_lookup credit _ _ _ Hl). simpl in *. lia.
      - destruct Hde as [(ld & Hld & Hdecl & _) _ _ Hoth]. simpl in *.
        destruct (decide (t = d)) as [->|Hne]; [by simplify_eq|].
        by pose proof (Hoth _ _ Hne Hl). }
    pose proof (so_queue _ Hs) as Hq. simpl in *.
    unfold get_available_file. rewrite bool_decide_eq_true_2 by lia.
    destruct (lookup_lt_is_Some_2 (available_files w) (Z.to_nat (nr_available_files w - 1)))
      as [f Hf]; [lia|].
    rewrite Hf. simpl. done.
  - destruct (find_or_all returned ps) as [(t & l & Hl & Hret)|Hret].
    + right. exists t. apply (step_enabled _ _ _ _ _ Hl).
      pose proof (Hall _ _ Hl) as Hpk. destruct l; try done. simpl.
      assert (available_sem w ≠ 0%nat) as Hsem; [|unfold sem_wait; by destruct (available_sem w)].
      destruct Hp as [Hse|[d Hde]].
      * pose proof (se_tokens _ Hse) as Htok.
        destruct (se_work _ Hse Hlock) as [Hnr|(j & lj & Hj & Hb)]; simpl in *.
        -- rewrite sum_list_with_zero in Htok; [lia|].
           intros i x Hi. pose proof (Hall _ _ Hi). by destruct x.
        -- pose proof (Hall _ _ Hj). by destruct lj.
      * destruct Hde as [(ld & Hld & Hdecl & _ & Hsum) _ _ Hoth]. simpl in *.
        pose proof (Hall _ _ Hld). destruct ld; try done. simpl in Hsum.
        pose proof (sum_list_with_insert spent ps t L172 L188 Hl) as Hins.
        pose proof (sum_list_with_le_length spent (<[t:=L188]> ps)) as Hle.
        rewrite length_insert in Hle. simpl in *.
        assert (∀ x, (spent x ≤ 1)%nat) as H1 by (intros []; simpl; lia).
        specialize (Hle H1). lia.
    + left. unfold joined. simpl. apply Forall_lookup. intros i x Hi.
      pose proof (Hret _ _ Hi). by destruct x.
Qed.

(** * Every execution is finite *)

Lemma entry_action_of_subdir fs f e temp_dir st :
  entry_action_of fs f e = SubDirectory temp_dir st →
  temp_dir = DirInfo (parent_id f) (path_join (name f) e)
  ∧ skip_name e = false
  ∧ lstat fs (path_join (name f) e) = Some st
  ∧ is_dir st = true.
Proof.
  unfold entry_action_of. destruct (skip_name e); [done|].
  destruct (lstat fs _) as [st'|]; [|done].
  destruct (is_dir st') eqn:Hd; [|done]. intros. by simplify_eq.
Qed.

Local Open Scope nat_scope.

Lemma sum_list_with_ext {A} (f g : A → nat) (l : list A) :
  (∀ x, x ∈ l → f x = g x) → sum_list_with f l = sum_list_with g l.
Proof.
  induction l as [|a l IH]; intros H; simpl; [done|].
  rewrite (H a), IH; [done| |left]. intros x Hx. apply H. by right.
Qed.

Section measure.
Context (fs : filesystem) (K : nat).

Lemma weight_S n p :
  weight fs K (S n) p =
  match lstat fs p with
  | None => 2 + loop_rank K
  | Some _ =>
      match opendir fs p with
      | None => 2 + loop_rank K
      | Some d =>
          3 + loop_rank K +
          sum_list_with
            (λ e, match entry_action_of fs (DirInfo 0 p) e with
                  | SubDirectory temp_dir _ => 6 + weight fs K n (name temp_dir)
                  | _ => 1
                  end) (d_names d)
      end
  end.
Proof. done. Qed.

(** As for [du], more fuel than [fuel_for] changes nothing. *)
Lemma weight_stable n m p :
  fuel_for fs p ≤ n → fuel_for fs p ≤ m → weight fs K n p = weight fs K m p.
Proof.
  revert m p. induction n as [|n IH]; intros m p Hn Hm.
  - destruct m as [|m]; [done|]. rewrite weight_S.
    destruct (lstat fs p) as [st|] eqn:Hst; [|done].
    apply lstat_length in Hst. unfold fuel_for in Hn. lia.
  - destruct m as [|m]; rewrite !weight_S.
    + destruct (lstat fs p) as [st|] eqn:Hst; [|done].
      apply lstat_length in Hst. unfold fuel_for in Hm. lia.
    + destruct (lstat fs p) as [st|] eqn:Hst; [|done].
      destruct (opendir fs p) as [d|]; [|done].
      f_equal. apply sum_list_with_ext. intros e _.
      destruct (entry_action_of fs (DirInfo 0 p) e) as [| |temp_dir st'|] eqn:He; try done.
      apply entry_action_of_subdir in He as (-> & _ & _ & _). f_equal.
      apply IH; unfold fuel_for in *; simpl; rewrite path_join_length; lia.
Qed.

Lemma entry_weight_name f e :
  entry_weight fs K f e = entry_weight fs K (DirInfo 0 (name f)) e.
Proof.
  unfold entry_weight, entry_action_of. simpl. destruct (skip_name e); [done|].
  destruct (lstat fs _) as [st|]; [|done]. by destruct (is_dir st).
Qed.

Lemma weight_path_unfold f :
  weight_path fs K (name f) =
  match lstat fs (name f), opendir fs (name f) with
  | Some _, Some d => 3 + loop_rank K + sum_list_with (entry_weight fs K f) (d_names d)
  | _, _ => 2 + loop_rank K
  end.
Proof.
  unfold weight_path. destruct (lstat fs (name f)) as [st|] eqn:Hst.
  - pose proof (lstat_length _ _ _ Hst) as Hlen.
    destruct (fuel_for fs (name f)) as [|n] eqn:Hf; [unfold fuel_for in Hf; lia|].
    rewrite weight_S, Hst. destruct (opendir fs (name f)) as [d|]; [|done].
    f_equal. apply sum_list_with_ext. intros e _.
    rewrite entry_weight_name. unfold entry_weight.
    destruct (entry_action_of fs (DirInfo 0 (name f)) e) as [| |temp_dir st'|] eqn:He; try done.
    apply entry_action_of_subdir in He as (-> & _ & _ & _). f_equal.
    apply weight_stable; unfold fuel_for in *; simpl; rewrite path_join_length; lia.
  - destruct (fuel_for fs (name f)); [done|]. by rewrite weight_S, Hst.
Qed.

End measure.

(** Every step uses up some of the potential. *)
Lemma step_potential fs t c e c' :
  structure_ok c → step fs t c = Some (e, c') → potential fs c' < potential fs c.
Proof.
  destruct c as [w ps]. intros Hs Hstep.
  apply step_inv in Hstep as (l & l' & w' & Hl & Hf & ->).
  pose proof (sum_list_with_insert (rank fs (length ps)) ps t l l' Hl) as Hins.
  pose proof (so_queue _ Hs) as Hq.
  unfold potential. simpl in *. rewrite length_insert.
  thread_cases Hf; simpl in *.
  all: try match goal with
       | Hl : _ = Some (L182 _) |- _ => rewrite weight_path_unfold in Hins
       end.
  all: repeat match goal with
       | H : d_names ?d = _ |- _ => rewrite H in Hins; simpl in Hins
       | H : lstat _ _ = _ |- _ => rewrite H in Hins
       | H : opendir _ _ = _ |- _ => rewrite H in Hins
       | H : entry_action_of _ _ _ = _ |- _ => unfold entry_weight at 1 in Hins; rewrite H in Hins
       end.
  all: unfold tok, loop_rank in *.
  all: try (unfold queue; simpl; lia).
  - unfold queue at 2. simpl.
    replace (Z.to_nat (nr_available_files w))
      with (S (Z.to_nat (nr_available_files w - 1))) by lia.
    rewrite (take_S_r _ _ _ Hpop), sum_list_with_app. unfold queue. simpl. lia.
  - rewrite set_available_file_queue, sum_list_with_app by done. simpl. lia.
Qed.

Lemma run_potential fs g argv K tr c :
  run fs (run_threads (initialize fs g argv K) K) tr c →
  structure_ok c ∧
  potential fs c + length tr ≤ potential fs (run_threads (initialize fs g argv K) K).
Proof.
  intros Hrun. induction Hrun as [|tr c t e c' _ [IHs IHp] Hstep].
  - split; [|simpl; lia]. apply seeded_structure_ok, seeded_initialize.
  - split; [by eapply structure_ok_step|].
    pose proof (step_potential _ _ _ _ _ IHs Hstep). rewrite length_app. simpl. lia.
Qed.

Local Open Scope Z_scope.

(** * Accounting of blocks *)

Global Instance eqm_equiv : Equivalence eqm.
Proof.
  split.
  - by intros a.
  - by intros a b.
  - intros a b c. unfold eqm. congruence.
Qed.

Global Instance eqm_add : Proper (eqm ==> eqm ==> eqm) Z.add.
Proof.
  intros a a' Ha b b' Hb. unfold eqm in *.
  rewrite <- wrap32_add_l, <- wrap32_add_r, Ha, Hb.
  by rewrite wrap32_add_l, wrap32_add_r.
Qed.

Global Instance eqm_sub : Proper (eqm ==> eqm ==> eqm) Z.sub.
Proof.
  intros a a' Ha b b' Hb. unfold eqm in *. apply wrap32_eq.
  apply wrap32_eq in Ha, Hb. by rewrite Zminus_mod, Ha, Hb, <- Zminus_mod.
Qed.

Lemma eqm_wrap a : eqm (wrap32 a) a.
Proof. apply wrap32_idemp. Qed.

Ltac eqm_lia :=
  match goal with
  | |- eqm ?a ?b => replace a with b by lia; reflexivity
  end.

Lemma sumZ_cons a l : sumZ (a :: l) = a + sumZ l.
Proof. done. Qed.

Lemma sumZ_nil : sumZ [] = 0.
Proof. done. Qed.

Lemma sumZ_app l k : sumZ (l ++ k) = sumZ l + sumZ k.
Proof.
  induction l as [|a l IH]; [done|].
  rewrite <- app_comm_cons, !sumZ_cons, IH. lia.
Qed.

Lemma sumZ_insert {A} (f : A → Z) (ps : list A) t l l' :
  ps !! t = Some l →
  sumZ (f <$> <[t:=l']> ps) = sumZ (f <$> ps) - f l + f l'.
Proof.
  revert t. induction ps as [|a ps IH]; intros [|t] H; simplify_eq/=.
  - rewrite !sumZ_cons. lia.
  - rewrite !sumZ_cons, (IH _ H). lia.
Qed.

Lemma sumZ_zero {A} (f : A → Z) (l : list A) :
  (∀ i x, l !! i = Some x → f x = 0) → sumZ (f <$> l) = 0.
Proof.
  induction l as [|a l IH]; intros H; [done|].
  rewrite fmap_cons. change (f a + sumZ (f <$> l) = 0).
  rewrite (H 0%nat a), IH; [done| |done]. intros i x Hi. by apply (H (S i)).
Qed.

(** What an entry stands for, by the case [get_available_file_size] is in. *)
Lemma entry_du_action fs f e :
  entry_du fs (name f) e =
  match entry_action_of fs f e with
  | Skipped | StatFailed _ => 0
  | PlainFile st => st_blocks st
  | SubDirectory temp_dir st => st_blocks st + pending fs temp_dir
  end.
Proof.
  unfold entry_du, entry_action_of, pending. destruct (skip_name e); [done|].
  rewrite du_path_unfold. destruct (lstat fs (path_join (name f) e)) as [st|] eqn:Hst; [|done].
  destruct (is_dir st); simpl; [by rewrite Hst|lia].
Qed.

Lemma pending_unfold fs f :
  pending fs f =
  match lstat fs (name f), opendir fs (name f) with
  | Some _, Some d => sumZ (entry_du fs (name f) <$> d_names d)
  | _, _ => 0
  end.
Proof.
  unfold pending, contents. destruct (lstat fs (name f)); [|done].
  by destruct (opendir fs (name f)).
Qed.

(** No step changes, modulo 2^32, what a root has plus what it is owed. *)
Lemma accounts_ok_step fs want t c e c' :
  structure_ok c → accounts_ok fs want c → step fs t c = Some (e, c') →
  accounts_ok fs want c'.
Proof.
  destruct c as [w ps]. intros Hs [Hrange Hsum] Hstep.
  apply step_inv in Hstep as (l & l' & w' & Hl & Hf & ->).
  pose proof (so_queue _ Hs) as Hq. simpl in *.
  split; simpl.
  - intros r x. thread_cases Hf; try by apply Hrange.
    unfold add_size. simpl. rewrite list_lookup_alter. case_decide; [|by apply Hrange].
    destruct (total_sizes w !! parent_id f); intros; simplify_eq/=. apply wrap32_idemp.
  - intros r x Hx. fold (eqm (x + owed fs r (w', <[t:=l']> ps)) (want r)).
    unfold owed. simpl. rewrite (sumZ_insert _ _ _ _ _ Hl).
    thread_cases Hf.
    all: try (pose proof (Hsum _ _ Hx) as Hold;
              match type of Hold with wrap32 ?a = wrap32 ?b => change (eqm a b) in Hold end;
              rewrite <- Hold; unfold owed; simpl).
    all: try match goal with
         | Hl : _ = Some (L182 _) |- _ => rewrite pending_unfold
         end.
    all: repeat match goal with
         | H : d_names ?d = _ |- _ =>
             rewrite H; rewrite ?fmap_cons, ?sumZ_cons, ?fmap_nil, ?sumZ_nil
         | H : lstat _ _ = _ |- _ => rewrite H
         | H : opendir _ _ = _ |- _ => rewrite H
         | H : entry_action_of _ _ _ = _ |- _ => rewrite entry_du_action, H
         end.
    all: repeat case_bool_decide.
    all: rewrite ?eqm_wrap.
    all: try (unfold queue; simpl; eqm_lia).
    + (* pop, for this root *)
      unfold queue. simpl.
      replace (Z.to_nat (nr_available_files w))
        with (S (Z.to_nat (nr_available_files w - 1))) by lia.
      rewrite (take_S_r _ _ _ Hpop), fmap_app, sumZ_app. simpl.
      rewrite bool_decide_eq_true_2, ?sumZ_cons, ?sumZ_nil by done. eqm_lia.
    + unfold queue. simpl.
      replace (Z.to_nat (nr_available_files w))
        with (S (Z.to_nat (nr_available_files w - 1))) by lia.
      rewrite (take_S_r _ _ _ Hpop), fmap_app, sumZ_app. simpl.
      rewrite bool_decide_eq_false_2, ?sumZ_cons, ?sumZ_nil by done. eqm_lia.
    + (* push, for this root *)
      match goal with H : entry_action_of _ _ _ = _ |- _ =>
        apply entry_action_of_subdir in H as (-> & _) end.
      rewrite set_available_file_queue, fmap_app, sumZ_app by done. simpl.
      rewrite bool_decide_eq_true_2, ?sumZ_cons, ?sumZ_nil by done. eqm_lia.
    + match goal with H : entry_action_of _ _ _ = _ |- _ =>
        apply entry_action_of_subdir in H as (-> & _) end.
      rewrite set_available_file_queue, fmap_app, sumZ_app by done. simpl.
      rewrite bool_decide_eq_false_2, ?sumZ_cons, ?sumZ_nil by done. eqm_lia.
    + (* the add of line 184, for this root *)
      unfold add_size in Hx. simpl in Hx. rewrite list_lookup_alter in Hx.
      case_decide; [|done].
      destruct (total_sizes w !! parent_id f) as [x0|] eqn:Hx0; simplify_eq/=.
      pose proof (Hsum _ _ Hx0) as Hold.
      match type of Hold with wrap32 ?a = wrap32 ?b => change (eqm a b) in Hold end.
      rewrite <- Hold, eqm_wrap. unfold owed, queue. simpl. eqm_lia.
    + unfold add_size in Hx. simpl in Hx. rewrite list_lookup_alter in Hx.
      case_decide; [done|].
      pose proof (Hsum _ _ Hx) as Hold.
      match type of Hold with wrap32 ?a = wrap32 ?b => change (eqm a b) in Hold end.
      rewrite <- Hold. unfold owed, queue. simpl. eqm_lia.
Qed.

Lemma total_sizes_grow (totals : list Z) :
  <[length totals := 0]> (resize (S (length totals)) 0 totals) = totals ++ [0].
Proof.
  rewrite resize_spec, take_ge by lia.
  replace (S (length totals) - length totals)%nat with 1%nat by lia. simpl.
  replace (length totals) with (length totals + 0)%nat at 1 by lia.
  by rewrite insert_app_r.
Qed.

Lemma initialize_files_totals fs g file w :
  total_sizes (initialize_files fs g file w) =
  alter (λ t, wrap32 (t + st_blocks (default g (lstat fs (name file)))))
        (parent_id file) (total_sizes w).
Proof.
  unfold initialize_files. destruct (lstat fs (name file)) as [st|]; simpl.
  - by destruct (is_dir st).
  - by destruct (is_dir g).
Qed.

Lemma initialize_files_queue K fs g file w :
  seeded K w →
  queue (initialize_files fs g file w) =
  queue w ++ (if is_dir (default g (lstat fs (name file))) then [file] else []).
Proof.
  intros Hw. pose proof (sd_queue _ _ Hw) as Hq. unfold initialize_files.
  destruct (lstat fs (name file)) as [st|]; simpl.
  - destruct (is_dir st); [|by rewrite app_nil_r].
    change (queue (sem_post ?w)) with (queue w).
    rewrite set_available_file_queue; [done|simpl; lia].
  - destruct (is_dir g); [|by rewrite app_nil_r].
    change (queue (sem_post ?w)) with (queue w).
    rewrite set_available_file_queue; [done|simpl; lia].
Qed.

Lemma expected_app fs g pre a rest :
  expected fs g (pre ++ a :: rest) (length pre) =
  let st := default (g (length pre)) (lstat fs a) in
  st_blocks st + if is_dir st then pending fs (DirInfo (length pre) a) else 0.
Proof. unfold expected. by rewrite list_lookup_middle. Qed.

(** The seeder establishes the accounting invariant root by root. *)
Lemma initialize_from_accounts K fs g argv pre rest w :
  argv = pre ++ rest →
  seeded K w →
  length (total_sizes w) = length pre →
  (∀ r x, total_sizes w !! r = Some x →
          wrap32 x = x ∧ eqm (x + queued fs r w) (expected fs g argv r)) →
  (∀ r, (length pre ≤ r)%nat → queued fs r w = 0) →
  let w' := initialize_from fs g (length pre) rest w in
  length (total_sizes w') = length argv ∧
  ∀ r x, total_sizes w' !! r = Some x →
         wrap32 x = x ∧ eqm (x + queued fs r w') (expected fs g argv r).
Proof.
  revert pre w. induction rest as [|a rest IH]; intros pre w -> Hw Hlen Hacc Hzero; simpl.
  { rewrite app_nil_r in *. done. }
  set (w1 := with_total_sizes _ w).
  set (w2 := initialize_files fs _ _ w1).
  assert (seeded K w1) as Hw1 by by destruct Hw.
  assert (seeded K w2) as Hw2 by by apply seeded_initialize_files.
  assert (total_sizes w1 = total_sizes w ++ [0]) as Ht1.
  { unfold w1. simpl. rewrite <- Hlen. apply total_sizes_grow. }
  assert (total_sizes w2 = total_sizes w ++
            [wrap32 (0 + st_blocks (default (g (length pre)) (lstat fs a)))]) as Ht2.
  { unfold w2. rewrite initialize_files_totals, Ht1. simpl.
    replace (length pre) with (length (total_sizes w) + 0)%nat by lia.
    by rewrite alter_app_r. }
  assert (queue w2 = queue w ++
            (if is_dir (default (g (length pre)) (lstat fs a))
             then [DirInfo (length pre) a] else [])) as Hq2.
  { unfold w2. by rewrite (initialize_files_queue K). }
  assert (∀ r, queued fs r w2 = queued fs r w +
            if bool_decide (length pre = r) then
              if is_dir (default (g (length pre)) (lstat fs a))
              then pending fs (DirInfo (length pre) a) else 0
            else 0) as Hqd.
  { intros r. unfold queued. rewrite Hq2, fmap_app, sumZ_app. f_equal.
    destruct (is_dir _); simpl; [|by case_bool_decide].
    rewrite sumZ_cons, sumZ_nil. case_bool_decide; lia. }
  replace (S (length pre)) with (length (pre ++ [a])) by (rewrite length_app; simpl; lia).
  apply IH.
  - by rewrite <- app_assoc.
  - done.
  - rewrite Ht2, !length_app. simpl. lia.
  - intros r x Hx. rewrite Ht2 in Hx. rewrite Hqd.
    apply lookup_app_Some in Hx as [Hx|[Hge Hx]].
    + pose proof (lookup_lt_Some _ _ _ Hx).
      rewrite bool_decide_eq_false_2 by lia.
      destruct (Hacc _ _ Hx) as [Hr Hs]. split; [done|].
      rewrite Z.add_0_r. done.
    + destruct (r - length (total_sizes w))%nat as [|n] eqn:Hn; simplify_eq/=.
      assert (r = length pre) as -> by lia.
      rewrite bool_decide_eq_true_2 by done.
      split; [apply wrap32_idemp|].
      rewrite Hzero by done. rewrite expected_app. simpl.
      rewrite eqm_wrap. eqm_lia.
  - intros r Hr. rewrite length_app in Hr. simpl in Hr.
    rewrite Hqd, Hzero by lia. rewrite bool_decide_eq_false_2 by lia. done.
Qed.

Lemma initialize_accounts fs g argv K :
  length (total_sizes (initialize fs g argv K)) = length argv ∧
  accounts_ok fs (expected fs g argv) (run_threads (initialize fs g argv K) K).
Proof.
  destruct (initialize_from_accounts K fs g argv [] argv
              (World [] 0 0 (replicate K false) false [] None 0 [])) as [Hlen Hacc];
    try done.
  simpl in *. split; [done|]. split; simpl.
  - intros r x Hx. by destruct (Hacc _ _ Hx).
  - intros r x Hx. destruct (Hacc _ _ Hx) as [_ Hq]. unfold owed. simpl.
    rewrite (sumZ_zero (inflight fs r)); [by rewrite Z.add_0_r|].
    intros i l [-> _]%lookup_replicate. done.
Qed.

(** * Traces *)

Lemma step_queue fs t c e c' :
  structure_ok c → step fs t c = Some (e, c') →
  match e with
  | Push f => queue c'.1 = queue c.1 ++ [f]
  | Pop f => queue c.1 = queue c'.1 ++ [f]
  | _ => queue c'.1 = queue c.1
  end.
Proof.
  destruct c as [w ps]. intros Hs Hstep.
  apply step_inv in Hstep as (l & l' & w' & Hl & Hf & ->).
  pose proof (so_queue _ Hs) as Hq. simpl in *.
  thread_cases Hf; try done.
  - unfold queue. simpl.
    replace (Z.to_nat (nr_available_files w))
      with (S (Z.to_nat (nr_available_files w - 1))) by lia.
    by apply take_S_r.
  - by apply set_available_file_queue.
Qed.

Lemma pushes_snoc tr t e :
  pushes (tr ++ [(t, e)]) = pushes tr ++ match e with Push f => [f] | _ => [] end.
Proof. unfold pushes. rewrite omap_app. f_equal. by destruct e. Qed.

Lemma pops_snoc tr t e :
  pops (tr ++ [(t, e)]) = pops tr ++ match e with Pop f => [f] | _ => [] end.
Proof. unfold pops. rewrite omap_app. f_equal. by destruct e. Qed.

Lemma declarations_snoc tr t e :
  declarations (tr ++ [(t, e)]) =
  declarations tr ++ match e with Announce => [t] | _ => [] end.
Proof. unfold declarations. rewrite omap_app. f_equal. by destruct e. Qed.


(** The phase of the protocol can be read off the trace. *)
Lemma run_phase fs g argv K tr c :
  (1 ≤ K)%nat →
  run fs (run_threads (initialize fs g argv K) K) tr c →
  (declarations tr = [] ∧ searching c) ∨ (∃ d, declarations tr = [d] ∧ declared c d).
Proof.
  intros HK Hrun.
  assert (structure_ok c ∧
          ((declarations tr = [] ∧ searching c)
           ∨ (∃ d, declarations tr = [d] ∧ declared c d))) as [_ ?]; [|done].
  induction Hrun as [|tr c t e c' _ [IHs IH] Hstep].
  - pose proof (seeded_initialize fs g argv K) as Hsd. split.
    + by apply seeded_structure_ok.
    + left. split; [done|]. by apply seeded_searching.
  - split; [by eapply structure_ok_step|].
    rewrite declarations_snoc.
    destruct IH as [[Hd Hse]|(d & Hd & Hde)].
    + destruct (searching_step _ _ _ _ _ IHs Hse Hstep) as [[-> Hde]|[He Hse']].
      * right. exists t. by rewrite Hd.
      * left. split; [|done]. rewrite Hd. by destruct e.
    + destruct (declared_step _ _ _ _ _ _ IHs Hde Hstep) as [He Hde'].
      right. exists d. split; [|done]. rewrite Hd. by destruct e.
Qed.

(** * Complete runs of [main] *)

Lemma run_trans fs c0 tr c tr' c' :
  run fs c0 tr c → run fs c tr' c' → run fs c0 (tr ++ tr') c'.
Proof.
  intros H1 H2. induction H2 as [|tr' c1 t e c2 _ IH Hstep].
  - by rewrite app_nil_r.
  - rewrite app_assoc. by eapply run_snoc.
Qed.

Lemma run_cons fs c t e c1 tr c' :
  step fs t c = Some (e, c1) → run fs c1 tr c' → run fs c ((t, e) :: tr) c'.
Proof.
  intros Hstep Hrun. change ((t, e) :: tr) with ([(t, e)] ++ tr).
  eapply run_trans; [|done]. apply (run_snoc _ _ [] c); [constructor|done].
Qed.

Lemma exec_run fs sched c tr c' :
  exec fs sched c = Some (tr, c') → run fs c tr c'.
Proof.
  revert c tr. induction sched as [|t sched IH]; intros c tr H; simpl in H.
  - simplify_eq. constructor.
  - destruct (step fs t c) as [[e c1]|] eqn:Hstep; simpl in H; [|done].
    destruct (exec fs sched c1) as [[tr1 c2]|] eqn:Hex; simpl in H; [|done].
    simplify_eq. eapply run_cons; [done|]. by apply IH.
Qed.

Lemma run_accounts fs g argv K tr c :
  run fs (run_threads (initialize fs g argv K) K) tr c →
  structure_ok c ∧ accounts_ok fs (expected fs g argv) c
  ∧ length (total_sizes c.1) = length argv.
Proof.
  intros Hrun. induction Hrun as [|tr c t e c' _ (IHs & IHa & IHl) Hstep].
  - destruct (initialize_accounts fs g argv K) as [Hlen Hacc].
    split_and!; [apply seeded_structure_ok, seeded_initialize|done|done].
  - split_and!; [by eapply structure_ok_step|by eapply accounts_ok_step|].
    destruct c as [w ps]. apply step_inv in Hstep as (l & l' & w' & Hl & Hf & ->).
    simpl in *. thread_cases Hf; try done.
    unfold add_size. simpl. by rewrite length_alter.
Qed.

Lemma joined_declared c :
  (1 ≤ length c.2)%nat → joined c → protocol_ok c → ∃ d, declared c d.
Proof.
  intros HK Hj [Hse|?]; [|done]. exfalso.
  destruct c as [w [|l ps]]; simpl in *; [lia|].
  unfold joined in Hj. simpl in Hj. apply Forall_cons in Hj as [-> _].
  by pose proof (se_before _ Hse 0%nat L188 eq_refl).
Qed.

Lemma joined_owed fs r c :
  joined c → nr_available_files c.1 = 0 → owed fs r c = 0.
Proof.
  intros Hj Hnr. unfold owed, queue. rewrite Hnr. simpl.
  rewrite sumZ_zero; [done|].
  intros i l Hl. unfold joined in Hj. rewrite Forall_lookup in Hj.
  by rewrite (Hj _ _ Hl).
Qed.

Lemma accounts_settled fs want c n :
  accounts_ok fs want c → length (total_sizes c.1) = n →
  (∀ r, owed fs r c = 0) →
  total_sizes c.1 = (λ r, wrap32 (want r)) <$> seq 0 n.
Proof.
  intros [Hrange Hsum] Hlen Hzero. apply list_eq. intros r.
  rewrite list_lookup_fmap. destruct (total_sizes c.1 !! r) as [x|] eqn:Hx.
  - pose proof (lookup_lt_Some _ _ _ Hx).
    rewrite lookup_seq_lt by lia. simpl. f_equal.
    rewrite <- (Hrange _ _ Hx), <- (Hsum _ _ Hx), Hzero. f_equal. lia.
  - apply lookup_ge_None in Hx. rewrite lookup_seq_ge by lia. done.
Qed.

(** Whatever the schedule, [main] ends with the same totals. *)
Lemma main_final_totals fs g argv K w :
  (1 ≤ K)%nat → main_final fs g argv K w →
  total_sizes w = (λ r, wrap32 (expected fs g argv r)) <$> seq 0 (length argv).
Proof.
  intros HK Hmain. destruct Hmain as [Hno|tr w ps Hyes Hrun Hj].
  - destruct (initialize_accounts fs g argv K) as [Hlen Hacc].
    apply (accounts_settled fs _ (run_threads (initialize fs g argv K) K)); [done|done|].
    intros r. unfold owed. simpl.
    pose proof (seeded_initialize fs g argv K) as Hsd.
    unfold pool_started in Hno. apply bool_decide_eq_false in Hno.
    pose proof (sd_queue _ _ Hsd). unfold queue.
    replace (nr_available_files (initialize fs g argv K)) with 0 by lia. simpl.
    rewrite sumZ_zero; [done|]. by intros i l [-> _]%lookup_replicate.
  - destruct (run_accounts _ _ _ _ _ _ Hrun) as (Hs & Hacc & Hlen).
    destruct (run_invariants _ _ _ _ _ _ HK Hrun) as [_ Hp].
    pose proof (run_length _ _ _ _ Hrun) as HlenK. simpl in HlenK.
    rewrite length_replicate in HlenK.
    destruct (joined_declared (w, ps)) as [d Hde]; [simpl; lia|done|done|].
    apply (accounts_settled fs _ (w, ps)); [done|done|].
    intros r. apply joined_owed; [done|]. by destruct Hde.
Qed.

Lemma expected_statted fs g argv r a st :
  argv !! r = Some a → lstat fs a = Some st → expected fs g argv r = du_path fs a.
Proof.
  intros Ha Hst. unfold expected, pending. rewrite Ha, Hst. simpl. rewrite Hst.
  by rewrite du_path_unfold, Hst.
Qed.

Lemma fmap_seq_lookup {A B} (f : nat → B) (h : A → B) (l : list A) :
  (∀ r a, l !! r = Some a → f r = h a) →
  f <$> seq 0 (length l) = h <$> l.
Proof.
  intros H. apply list_eq. intros r. rewrite !list_lookup_fmap.
  destruct (l !! r) as [a|] eqn:Ha; simpl.
  - rewrite lookup_seq_lt by by eapply lookup_lt_Some. simpl. f_equal. by eapply H.
  - rewrite lookup_seq_ge; [done|]. by apply lookup_ge_None.
Qed.

(** The error flag and the error stream. *)
Lemma step_errors fs t c e c' :
  step fs t c = Some (e, c') →
  (exit_status c.1 = 1 → exit_status c'.1 = 1)
  ∧ (stderr c'.1 = stderr c.1 ∨
     ∃ m, stderr c'.1 = stderr c.1 ++ [m] ∧ exit_status c'.1 = 1).
Proof.
  destruct c as [w ps]. intros Hstep.
  apply step_inv in Hstep as (l & l' & w' & Hl & Hf & ->). simpl.
  thread_cases Hf; split; try done; try (by left); try (right; by eexists).
Qed.

Lemma initialize_files_errors fs garbage_file file w :
  (stderr w ≠ [] → exit_status w = 1) →
  stderr (initialize_files fs garbage_file file w) ≠ [] →
  exit_status (initialize_files fs garbage_file file w) = 1.
Proof.
  unfold initialize_files.
  destruct (lstat fs (name file)) as [st|]; simpl.
  - by destruct (is_dir st).
  - by destruct (is_dir garbage_file).
Qed.

Lemma initialize_from_errors fs g id argv w :
  (stderr w ≠ [] → exit_status w = 1) →
  stderr (initialize_from fs g id argv w) ≠ [] →
  exit_status (initialize_from fs g id argv w) = 1.
Proof.
  revert id w. induction argv as [|a argv IH]; intros id w Hw; simpl; [done|].
  apply IH. by apply initialize_files_errors.
Qed.

Lemma run_errors fs g argv K tr c :
  run fs (run_threads (initialize fs g argv K) K) tr c →
  stderr c.1 ≠ [] → exit_status c.1 = 1.
Proof.
  induction 1 as [|tr c t e c' _ IH Hstep].
  - simpl. by apply initialize_from_errors.
  - destruct (step_errors _ _ _ _ _ Hstep) as [Hkeep [Heq|(m & Heq & Hst)]]; [|done].
    rewrite Heq. auto.
Qed.

(** * Facts shared by the claims *)

(** From a state that satisfies the invariants some execution leads to a
    state in which every worker has returned. *)
Lemma run_completes fs c :
  structure_ok c → protocol_ok c → ∃ tr c', run fs c tr c' ∧ joined c'.
Proof.
  intros Hs Hp. remember (potential fs c) as n eqn:Hn. revert c Hs Hp Hn.
  induction (lt_wf n) as [n _ IH]. intros c Hs Hp ->.
  destruct (progress fs c Hs Hp) as [Hj|(t & e & c1 & Hstep)].
  - exists [], c. split; [constructor|done].
  - destruct (IH (potential fs c1)) with (c := c1) as (tr & c' & Hrun & Hj);
      [by eapply step_potential|by eapply structure_ok_step
      |by eapply protocol_ok_step|done|].
    exists ((t, e) :: tr), c'. split; [by eapply run_cons|done].
Qed.

(** Only the test of line 162 declares termination. *)
Lemma declare_inv fs t w ps c' :
  step fs t (w, ps) = Some (Announce, c') → ps !! t = Some L162 ∧ done w = true.
Proof.
  intros Hstep. apply step_inv in Hstep as (l & l' & w' & Hl & Hf & ->).
  by thread_cases Hf.
Qed.

(** The state in which a worker declares termination. *)
Lemma declare_state fs c t c' :
  structure_ok c → searching c → step fs t c = Some (Announce, c') →
  available_lock c.1 = Some t
  ∧ nr_available_files c.1 = 0
  ∧ queue c.1 = []
  ∧ Forall (λ b, b = true) (done_threads c.1)
  ∧ ∀ t' l, t' ≠ t → c.2 !! t' = Some l → l = L172.
Proof.
  intros Hs Hse Hstep.
  destruct c as [w ps]. destruct (declare_inv _ _ _ _ _ Hstep) as [Hl Hdone].
  pose proof (se_empty _ Hse _ _ Hl eq_refl) as Hnr.
  pose proof (se_knows _ Hse _ _ Hl) as Hk.
  pose proof (so_flags _ Hs) as Hfl. simpl in *. rewrite Hdone in Hk.
  split_and!; try done.
  - by apply (so_lock_in _ Hs _ _ Hl).
  - unfold queue. by rewrite Hnr.
  - rewrite Hfl. apply Forall_fmap, Forall_lookup.
    intros i l Hi. by apply (Hk _ _ Hi).
  - intros t' l Hne Hl'. by eapply declare_others.
Qed.

(** Before the declaration a worker that has returned from [sem_wait] finds
    [done] unset: the tentative assignment of line 153 is never seen. *)
Lemma woken_sees_no_done c t :
  searching c → c.2 !! t = Some L174 → done c.1 = false.
Proof.
  intros Hse Hl. destruct (done c.1) eqn:Hd; [|done].
  by pose proof (searching_done_no_credit _ _ _ Hse Hd Hl).
Qed.

(** [nr_available_files] counts the queue. *)
Lemma queue_length c :
  structure_ok c → nr_available_files c.1 = Z.of_nat (length (queue c.1)).
Proof.
  intros Hs. pose proof (so_queue _ Hs). unfold queue. rewrite length_take. lia.
Qed.

(** A worker that is about to pop holds a semaphore unit that stands for
    an item. *)
Lemma pop_finds_item c t :
  protocol_ok c → c.2 !! t = Some L181 → 1 ≤ nr_available_files c.1.
Proof.
  intros [Hse|[d Hde]] Hl.
  - pose proof (se_tokens _ Hse) as Htok.
    pose proof (sum_list_with_lookup credit _ _ _ Hl). simpl in *. lia.
  - destruct Hde as [(ld & Hld & Hdecl & _) _ _ Hoth]. exfalso.
    destruct (decide (t = d)) as [->|Hne]; [by simplify_eq|].
    by pose proof (Hoth _ _ Hne Hl).
Qed.

(** The totals of roots that can be stat-ed, in terms of the reference. *)
Lemma main_final_du fs g argv K w :
  (1 ≤ K)%nat →
  (∀ a, a ∈ argv → is_Some (lstat fs a)) →
  main_final fs g argv K w →
  total_sizes w = (λ a, wrap32 (du_path fs a)) <$> argv.
Proof.
  intros HK Hst Hmain. rewrite (main_final_totals _ _ _ _ _ HK Hmain).
  apply fmap_seq_lookup. intros r a Ha.
  destruct (Hst a) as [st Hlstat]; [by eapply list_elem_of_lookup_2|].
  by rewrite (expected_statted _ _ _ _ _ _ Ha Hlstat).
Qed.

(** A complete run of [main] on the scenario, with two workers. *)
Lemma scenario_main_final : main_final scenario_fs zeroed ["a/"] 2 scenario_exec.2.1.
Proof.
  apply (main_pool _ _ _ _ scenario_exec.1 scenario_exec.2.1 scenario_exec.2.2).
  - by vm_compute.
  - apply (exec_run scenario_fs scenario_schedule). vm_compute. reflexivity.
  - repeat constructor.
Defined.


(** The two cases of an entry that [lstat] accepts. *)
Lemma entry_action_of_statted fs file e st :
  skip_name e = false →
  lstat fs (path_join (name file) e) = Some st →
  entry_action_of fs file e =
  if is_dir st then SubDirectory (DirInfo (parent_id file) (path_join (name file) e)) st
  else PlainFile st.
Proof. intros Hskip Hst. unfold entry_action_of. by rewrite Hskip, Hst. Qed.

(** A push leaves the worker in front of its [sem_post]. *)
Lemma push_then_post fs t c f c' :
  step fs t c = Some (Push f, c') →
  available_sem c'.1 = available_sem c.1
  ∧ ∃ f0 d size st, c'.2 !! t = Some (L288 f0 d size st)
                    ∧ f = DirInfo (parent_id f0) (name f).
Proof.
  destruct c as [w ps]. intros Hstep.
  apply step_inv in Hstep as (l & l' & w' & Hl & Hf & ->).
  pose proof (lookup_lt_Some _ _ _ Hl). simpl.
  thread_cases Hf. split; [done|]. eexists _, _, _, _.
  rewrite list_lookup_insert_eq by done. split; [done|].
  match goal with H : entry_action_of _ _ _ = _ |- _ =>
    by apply entry_action_of_subdir in H as (-> & _) end.
Qed.

(** The [sem_post] that follows a push is never blocked. *)
Lemma post_enabled fs t c f d size st :
  c.2 !! t = Some (L288 f d size st) →
  ∃ c', step fs t c = Some (Post, c')
        ∧ available_sem c'.1 = S (available_sem c.1)
        ∧ nr_available_files c'.1 = nr_available_files c.1
        ∧ c'.2 !! t = Some (L230 f d (wrap32 (size + wrap32 (st_blocks st)))).
Proof.
  destruct c as [w ps]. intros Hl. pose proof (lookup_lt_Some _ _ _ Hl). simpl in *.
  eexists. unfold step. simpl. rewrite Hl. simpl. split; [done|]. simpl.
  by rewrite list_lookup_insert_eq.
Qed.

(** The slots and the queue the seeder produces. *)
Lemma initialize_from_totals fs g id argv w :
  length (total_sizes w) = id →
  total_sizes (initialize_from fs g id argv w)
  = total_sizes w ++ seeded_totals fs g id argv.
Proof.
  revert id w. induction argv as [|a argv IH]; intros id w Hlen; simpl.
  { by rewrite app_nil_r. }
  rewrite IH.
  - rewrite initialize_files_totals. simpl. rewrite <- Hlen, total_sizes_grow.
    replace (length (total_sizes w)) with (length (total_sizes w) + 0)%nat at 1 by lia.
    rewrite alter_app_r. simpl. by rewrite <- app_assoc.
  - rewrite initialize_files_totals, length_alter. simpl.
    rewrite length_insert, length_resize. done.
Qed.

Lemma initialize_from_queue K fs g id argv w :
  seeded K w →
  queue (initialize_from fs g id argv w) = queue w ++ seeded_dirs fs g id argv.
Proof.
  revert id w. induction argv as [|a argv IH]; intros id w Hw; simpl.
  { by rewrite app_nil_r. }
  assert (seeded K (with_total_sizes (<[id:=0]> (resize (S id) 0 (total_sizes w))) w))
    as Hw1 by by destruct Hw.
  rewrite IH by by apply seeded_initialize_files.
  rewrite (initialize_files_queue K) by done. simpl. by rewrite <- app_assoc.
Qed.

Lemma initialize_files_status fs garbage_file file w :
  (exit_status w = 1 → exit_status (initialize_files fs garbage_file file w) = 1)
  ∧ (lstat fs (name file) = None → exit_status (initialize_files fs garbage_file file w) = 1).
Proof.
  unfold initialize_files. destruct (lstat fs (name file)) as [st|]; simpl.
  - by destruct (is_dir st).
  - by destruct (is_dir garbage_file).
Qed.

(** A root that cannot be stat-ed sets the error flag for good. *)
Lemma initialize_from_status fs g id argv w :
  (exit_status w = 1 ∨ ∃ a, a ∈ argv ∧ lstat fs a = None) →
  exit_status (initialize_from fs g id argv w) = 1.
Proof.
  revert id w. induction argv as [|a argv IH]; intros id w H; simpl.
  - destruct H as [?|(a & Ha & _)]; [done|]. by apply not_elem_of_nil in Ha.
  - apply IH.
    set (w1 := with_total_sizes _ w).
    destruct (initialize_files_status fs (g id) (DirInfo id a) w1) as [Hkeep Hset].
    destruct H as [?|(a' & [->|Ha']%elem_of_cons & Hnone)].
    + left. by apply Hkeep.
    + left. by apply Hset.
    + right. by exists a'.
Qed.


(** [main] returns 1 when something was written to the error stream. *)
Lemma main_final_errors fs g argv K w :
  main_final fs g argv K w → stderr w ≠ [] → exit_status w = 1.
Proof.
  intros [Hno|tr w' ps Hyes Hrun Hj].
  - by apply initialize_from_errors.
  - apply (run_errors _ _ _ _ _ _ Hrun).
Qed.

(** A complete run of [main] on [faulty_fs]. *)
Lemma faulty_main_final : main_final faulty_fs zeroed ["d"] 1 faulty_exec.2.1.
Proof.
  apply (main_pool _ _ _ _ faulty_exec.1 faulty_exec.2.1 faulty_exec.2.2).
  - by vm_compute.
  - apply (exec_run faulty_fs (replicate 37 0%nat)). vm_compute. reflexivity.
  - repeat constructor.
Defined.

(** * The claims *)

(** C1 (amended): when every root path can be stat-ed, then for every thread
    count K >= 1 and every schedule the final accumulator of each root is the
    sum of the block counts of the root and of everything reachable from it
    (each entry once), converted to a 32-bit [int]; it is that sum itself when
    the sum fits into an [int].  In the scenario of the specification the
    total of root [a/] is 40 and 20 is printed. *)
Theorem C1_root_totals fs g argv K w :
  (1 ≤ K)%nat →
  (∀ a, a ∈ argv → is_Some (lstat fs a)) →
  main_final fs g argv K w →
  total_sizes w = (λ a, wrap32 (du_path fs a)) <$> argv
  ∧ ((∀ a, a ∈ argv → - 2^31 ≤ du_path fs a ≤ INT_MAX) →
     total_sizes w = du_path fs <$> argv)
  ∧ (∀ w', main_final scenario_fs g ["a/"] K w' →
           du_path scenario_fs "a/" = 40 ∧ total_sizes w' = [40] ∧ print w' = [20]).
Proof.
  intros HK Hst Hmain. split_and!.
  - by apply (main_final_du _ g _ K).
  - intros Hfit. rewrite (main_final_du _ g _ K) by done.
    apply list_fmap_ext. intros i a Ha. apply wrap32_small, Hfit.
    by eapply list_elem_of_lookup_2.
  - intros w' Hmain'.
    assert (total_sizes w' = [40]) as Ht.
    { assert (∀ a, a ∈ ["a/"] → is_Some (lstat scenario_fs a)) as Hroots.
      { intros a ->%list_elem_of_singleton. eexists. vm_compute. reflexivity. }
      rewrite (main_final_du _ g _ K _ HK Hroots Hmain'). by vm_compute. }
    split_and!; [by vm_compute|done|]. unfold print. by rewrite Ht.
Qed.

(** C1 at the scenario, run by two workers under [scenario_schedule]. *)
Lemma C1_witness :
  total_sizes scenario_exec.2.1 = (λ a, wrap32 (du_path scenario_fs a)) <$> ["a/"]
  ∧ ((∀ a, a ∈ ["a/"] → - 2^31 ≤ du_path scenario_fs a ≤ INT_MAX) →
     total_sizes scenario_exec.2.1 = du_path scenario_fs <$> ["a/"])
  ∧ (∀ w', main_final scenario_fs zeroed ["a/"] 2 w' →
           du_path scenario_fs "a/" = 40 ∧ total_sizes w' = [40] ∧ print w' = [20]).
Proof.
  apply (C1_root_totals scenario_fs zeroed ["a/"] 2 scenario_exec.2.1).
  - lia.
  - intros a ->%list_elem_of_singleton. eexists. vm_compute. reflexivity.
  - apply scenario_main_final.
Defined.

(** C1, as stated, fails on a root that is a regular file of 2^31 blocks: no
    pool is started, [main] prints the state left by the seeder, and the
    accumulator holds -2^31, not the sum 2^31. *)
Lemma C1_counterexample :
  main_final big_fs zeroed ["big"] 1 (initialize big_fs zeroed ["big"] 1)
  ∧ lstat big_fs "big" = Some (Stat false 2147483648)
  ∧ du_path big_fs "big" = 2147483648
  ∧ total_sizes (initialize big_fs zeroed ["big"] 1) = [-2147483648]
  ∧ total_sizes (initialize big_fs zeroed ["big"] 1) ≠ du_path big_fs <$> ["big"].
Proof.
  split_and!; try by vm_compute.
  apply main_no_pool. by vm_compute.
Qed.

(** The second scenario of the specification: a file of 4 blocks and an
    empty directory of 8 blocks give the totals 4 and 8, printed as 2 and 4. *)
Example two_roots_totals K w :
  (1 ≤ K)%nat →
  main_final two_roots_fs zeroed ["file"; "dir"] K w →
  total_sizes w = [4; 8] ∧ print w = [2; 4].
Proof.
  intros HK Hmain.
  assert (total_sizes w = [4; 8]) as Ht.
  { rewrite (main_final_du _ _ _ _ _ HK) with (2 := Hmain); [by vm_compute|].
    intros a [->| ->%list_elem_of_singleton]%elem_of_cons; eexists; vm_compute; reflexivity. }
  split; [done|]. unfold print. by rewrite Ht.
Qed.

(** C2: for every finite tree and every thread count K >= 1 all K workers
    reach line 188 (Terminated): every execution of the pool is finite (its
    length is bounded by the potential of the initial state, so there is no
    livelock), an execution can only stop when every worker has returned (no
    deadlock), and every execution can be extended to one in which all K
    workers have returned. *)
Theorem C2_pool_terminates fs g argv K tr c :
  (1 ≤ K)%nat →
  run fs (run_threads (initialize fs g argv K) K) tr c →
  (length tr ≤ potential fs (run_threads (initialize fs g argv K) K))%nat
  ∧ length c.2 = K
  ∧ (joined c ∨ ∃ t e c', step fs t c = Some (e, c'))
  ∧ ∃ tr' c', run fs (run_threads (initialize fs g argv K) K) (tr ++ tr') c' ∧ joined c'.
Proof.
  intros HK Hrun.
  destruct (run_invariants _ _ _ _ _ _ HK Hrun) as [Hs Hp].
  destruct (run_potential _ _ _ _ _ _ Hrun) as [_ Hpot].
  split_and!.
  - lia.
  - rewrite (run_length _ _ _ _ Hrun). simpl. by rewrite length_replicate.
  - by apply progress.
  - destruct (run_completes fs c Hs Hp) as (tr' & c' & Hrun' & Hj).
    exists tr', c'. split; [by eapply run_trans|done].
Qed.

(** C2 at the scenario, for the execution of two workers under
    [scenario_schedule]. *)
Lemma C2_witness :
  (length scenario_exec.1 ≤ potential scenario_fs scenario_start)%nat
  ∧ length scenario_exec.2.2 = 2%nat
  ∧ (joined scenario_exec.2 ∨ ∃ t e c', step scenario_fs t scenario_exec.2 = Some (e, c'))
  ∧ ∃ tr' c', run scenario_fs scenario_start (scenario_exec.1 ++ tr') c' ∧ joined c'.
Proof.
  apply (C2_pool_terminates scenario_fs zeroed ["a/"] 2 scenario_exec.1 scenario_exec.2).
  - lia.
  - apply (exec_run scenario_fs scenario_schedule). vm_compute. reflexivity.
Defined.

(** C3: at most one worker ever declares termination (finds [done] set at
    line 162 and enters the loop of wake-up signals).  When it does, nobody
    has declared before, it holds [available_lock], the queue is empty, every
    cell of [done_threads] is set, and every other worker is waiting in the
    [sem_wait] of line 172, so none is inside a push.  The assignments
    [done = true] of line 153 that are taken back at line 156 are not
    declarations: a worker that reads [done] at line 174 finds it set only
    after a declaration. *)
Theorem C3_single_declaration fs g argv K tr c :
  (1 ≤ K)%nat →
  run fs (run_threads (initialize fs g argv K) K) tr c →
  (length (declarations tr) ≤ 1)%nat
  ∧ (∀ t c', step fs t c = Some (Announce, c') →
      declarations tr = []
      ∧ available_lock c.1 = Some t
      ∧ nr_available_files c.1 = 0
      ∧ queue c.1 = []
      ∧ Forall (λ b, b = true) (done_threads c.1)
      ∧ ∀ t' l, t' ≠ t → c.2 !! t' = Some l → l = L172)
  ∧ (∀ t, c.2 !! t = Some L174 → done c.1 = true → declarations tr ≠ []).
Proof.
  intros HK Hrun.
  destruct (run_invariants _ _ _ _ _ _ HK Hrun) as [Hs _].
  destruct (run_phase _ _ _ _ _ _ HK Hrun) as [[Hd Hse]|(d & Hd & Hde)].
  - split_and!.
    + rewrite Hd. simpl. lia.
    + intros t c' Hstep. split; [done|]. by eapply declare_state.
    + intros t Hl Hdone. by rewrite (woken_sees_no_done _ _ Hse Hl) in Hdone.
  - split_and!.
    + by rewrite Hd.
    + intros t c' Hstep. by destruct (declared_step _ _ _ _ _ _ Hs Hde Hstep).
    + intros _ _ _. by rewrite Hd.
Qed.

(** C3 at the scenario run by two workers, in the state in which worker 1 is
    about to declare termination. *)
Lemma C3_witness :
  fst <$> step scenario_fs 1 scenario_quiet.2 = Some Announce
  ∧ (length (declarations scenario_quiet.1) ≤ 1)%nat
  ∧ (∀ t c', step scenario_fs t scenario_quiet.2 = Some (Announce, c') →
      declarations scenario_quiet.1 = []
      ∧ available_lock scenario_quiet.2.1 = Some t
      ∧ nr_available_files scenario_quiet.2.1 = 0
      ∧ queue scenario_quiet.2.1 = []
      ∧ Forall (λ b, b = true) (done_threads scenario_quiet.2.1)
      ∧ ∀ t' l, t' ≠ t → scenario_quiet.2.2 !! t' = Some l → l = L172)
  ∧ (∀ t, scenario_quiet.2.2 !! t = Some L174 → done scenario_quiet.2.1 = true →
          declarations scenario_quiet.1 ≠ []).
Proof.
  split; [by vm_compute|].
  apply (C3_single_declaration scenario_fs zeroed ["a/"] 2 scenario_quiet.1 scenario_quiet.2).
  - lia.
  - apply (exec_run scenario_fs (take 41 scenario_schedule)). vm_compute. reflexivity.
Defined.







(** C6 (amended): when the expander has stat-ed an entry, it adds the entry's
    block count (as an [int]) to its local total whether or not the entry is
    a directory; a directory is in addition queued with the [parent_id] of
    the directory being expanded and announced by one [sem_post].  The local
    total is later added to [total_sizes[parent_id]]. *)
Theorem C6_expander_entry fs info file e rest cf size st w :
  skip_name e = false →
  lstat fs (path_join (name file) e) = Some st →
  let temp_dir := DirInfo (parent_id file) (path_join (name file) e) in
  let local := wrap32 (size + wrap32 (st_blocks st)) in
  get_available_file_size fs file e w
  = (wrap32 (st_blocks st),
     if is_dir st then sem_post (set_available_file temp_dir w) else w)
  ∧ (is_dir st = true → available_lock w = None →
     thread_func fs info (L230 file (DirStream (e :: rest) cf) size) w
     = Some (Push temp_dir, L288 file (DirStream rest cf) size st,
             set_available_file temp_dir w)
     ∧ ∀ w1, thread_func fs info (L288 file (DirStream rest cf) size st) w1
             = Some (Post, L230 file (DirStream rest cf) local, sem_post w1))
  ∧ (is_dir st = false →
     thread_func fs info (L230 file (DirStream (e :: rest) cf) size) w
     = Some (Tau, L230 file (DirStream rest cf) local, w))
  ∧ (∀ total w2, thread_func fs info (L183 file total) w2
                 = Some (Tau, L150, add_size (parent_id file) total w2)).
Proof.
  intros Hskip Hst temp_dir local.
  pose proof (entry_action_of_statted fs file e st Hskip Hst) as Hact.
  split_and!.
  - unfold get_available_file_size. rewrite Hact. by destruct (is_dir st).
  - intros Hdir Hlock. simpl. rewrite Hact, Hdir, Hlock. done.
  - intros Hdir. simpl. by rewrite Hact, Hdir.
  - done.
Qed.

(** C6 at the entry [s] of the directory [d] of [nested_fs]. *)
Lemma C6_witness :
  let file := DirInfo 0 "d" in
  let w := initialize nested_fs zeroed ["d"] 1 in
  let temp_dir := DirInfo (parent_id file) (path_join (name file) "s") in
  let local := wrap32 (0 + wrap32 (st_blocks (Stat true 8))) in
  get_available_file_size nested_fs file "s" w
  = (wrap32 (st_blocks (Stat true 8)),
     if is_dir (Stat true 8) then sem_post (set_available_file temp_dir w) else w)
  ∧ (is_dir (Stat true 8) = true → available_lock w = None →
     thread_func nested_fs (ThreadInfo 1 0) (L230 file (DirStream ("s" :: []) false) 0) w
     = Some (Push temp_dir, L288 file (DirStream [] false) 0 (Stat true 8),
             set_available_file temp_dir w)
     ∧ ∀ w1, thread_func nested_fs (ThreadInfo 1 0)
               (L288 file (DirStream [] false) 0 (Stat true 8)) w1
             = Some (Post, L230 file (DirStream [] false) local, sem_post w1))
  ∧ (is_dir (Stat true 8) = false →
     thread_func nested_fs (ThreadInfo 1 0) (L230 file (DirStream ("s" :: []) false) 0) w
     = Some (Tau, L230 file (DirStream [] false) local, w))
  ∧ (∀ total w2, thread_func nested_fs (ThreadInfo 1 0) (L183 file total) w2
                 = Some (Tau, L150, add_size (parent_id file) total w2)).
Proof.
  apply (C6_expander_entry nested_fs (ThreadInfo 1 0) (DirInfo 0 "d") "s" [] false 0
           (Stat true 8) (initialize nested_fs zeroed ["d"] 1)).
  - reflexivity.
  - vm_compute. reflexivity.
Defined.

(** C6, as stated, fails on a directory [d] whose only entry is the
    sub-directory [s] of 8 blocks: the entry is a directory, and still
    [get_available_file_size] returns its 8 blocks, which the worker adds to
    its local total. *)
Lemma C6_counterexample :
  lstat nested_fs (path_join "d" "s") = Some (Stat true 8)
  ∧ is_dir (Stat true 8) = true
  ∧ (get_available_file_size nested_fs (DirInfo 0 "d") "s"
       (initialize nested_fs zeroed ["d"] 1)).1 = 8
  ∧ run nested_fs nested_start nested_exec.1 nested_exec.2
  ∧ nested_exec.2.2 = [L230 (DirInfo 0 "d") (DirStream [] false) 8]
  ∧ queue nested_exec.2.1 = [DirInfo 0 "d/s"].
Proof.
  split_and!; try by vm_compute.
  apply (exec_run nested_fs (replicate 11 0%nat)). vm_compute. reflexivity.
Qed.

(** C7 (amended): before termination is declared, the semaphore value plus
    the number of workers between [sem_wait] and their pop plus the number of
    workers between a push and its [sem_post] is the number of queued items,
    so the semaphore never exceeds the queue length; after the declaration
    the queue is empty and the semaphore holds what is left of the wake-up
    signals.  The seeder leaves the semaphore equal to the queue length.
    Every push is followed by exactly one post of the same worker, and a
    worker that is about to pop finds an item in the queue. *)
Theorem C7_semaphore_accounting fs g argv K tr c :
  (1 ≤ K)%nat →
  run fs (run_threads (initialize fs g argv K) K) tr c →
  Z.of_nat (available_sem (initialize fs g argv K))
  = nr_available_files (initialize fs g argv K)
  ∧ (declarations tr = [] →
     Z.of_nat (available_sem c.1) + Z.of_nat (sum_list_with credit c.2)
     = nr_available_files c.1
     ∧ Z.of_nat (available_sem c.1) ≤ Z.of_nat (length (queue c.1)))
  ∧ (declarations tr ≠ [] →
     queue c.1 = []
     ∧ ∃ d l, c.2 !! d = Some l ∧ declaring l = true
              ∧ (available_sem c.1 + sum_list_with spent c.2 = posted K l)%nat)
  ∧ (∀ t, c.2 !! t = Some L181 →
          1 ≤ nr_available_files c.1 ≤ Z.of_nat (length (available_files c.1)))
  ∧ (∀ t f c', step fs t c = Some (Push f, c') →
       available_sem c'.1 = available_sem c.1
       ∧ ∃ f0 d size st, c'.2 !! t = Some (L288 f0 d size st)
                         ∧ f = DirInfo (parent_id f0) (name f))
  ∧ (∀ t f d size st, c.2 !! t = Some (L288 f d size st) →
       ∃ c', step fs t c = Some (Post, c')
             ∧ available_sem c'.1 = S (available_sem c.1)
             ∧ nr_available_files c'.1 = nr_available_files c.1
             ∧ c'.2 !! t = Some (L230 f d (wrap32 (size + wrap32 (st_blocks st))))).
Proof.
  intros HK Hrun.
  destruct (run_invariants _ _ _ _ _ _ HK Hrun) as [Hs Hp].
  pose proof (run_length _ _ _ _ Hrun) as Hlen. simpl in Hlen.
  rewrite length_replicate in Hlen.
  split_and!.
  - apply (sd_sem K), seeded_initialize.
  - intros Hd.
    destruct (run_phase _ _ _ _ _ _ HK Hrun) as [[_ Hse]|(d & Hd' & _)]; [|congruence].
    pose proof (se_tokens _ Hse). pose proof (queue_length _ Hs). lia.
  - intros Hd.
    destruct (run_phase _ _ _ _ _ _ HK Hrun) as [[? _]|(d & _ & Hde)]; [done|].
    destruct Hde as [(l & Hl & Hdecl & _ & Hsum) _ Hnr _].
    split; [unfold queue; by rewrite Hnr|]. exists d, l. by rewrite <- Hlen.
  - intros t Hl. split; [by eapply pop_finds_item|by destruct (so_queue _ Hs)].
  - intros t f c'. apply push_then_post.
  - intros t f d size st. apply post_enabled.
Qed.

(** C7 at the scenario, just after the single worker's first [sem_wait]. *)
Lemma C7_witness :
  Z.of_nat (available_sem (initialize scenario_fs zeroed ["a/"] 1))
  = nr_available_files (initialize scenario_fs zeroed ["a/"] 1)
  ∧ (declarations scenario_woken.1 = [] →
     Z.of_nat (available_sem scenario_woken.2.1)
     + Z.of_nat (sum_list_with credit scenario_woken.2.2)
     = nr_available_files scenario_woken.2.1
     ∧ Z.of_nat (available_sem scenario_woken.2.1)
       ≤ Z.of_nat (length (queue scenario_woken.2.1))).
Proof.
  destruct (C7_semaphore_accounting scenario_fs zeroed ["a/"] 1
              scenario_woken.1 scenario_woken.2) as (H1 & H2 & _).
  - lia.
  - apply (exec_run scenario_fs (replicate 5 0%nat)). vm_compute. reflexivity.
  - split; [exact H1|exact H2].
Defined.

(** C7, as stated, fails in the scenario with one worker: after the worker's
    first [sem_wait] and before its pop the semaphore is 0 while the queue
    holds one item; and when the run is over the semaphore is 1 while the
    queue is empty. *)
Lemma C7_counterexample :
  run scenario_fs scenario_start1 scenario_woken.1 scenario_woken.2
  ∧ available_sem scenario_woken.2.1 = 0%nat
  ∧ queue scenario_woken.2.1 = [DirInfo 0 "a/"]
  ∧ run scenario_fs scenario_start1 scenario_exec1.1 scenario_exec1.2
  ∧ available_sem scenario_exec1.2.1 = 1%nat
  ∧ queue scenario_exec1.2.1 = [].
Proof.
  split_and!; try by vm_compute.
  - apply (exec_run scenario_fs (replicate 5 0%nat)). vm_compute. reflexivity.
  - apply (exec_run scenario_fs (replicate 40 0%nat)). vm_compute. reflexivity.
Qed.

(** C8 (amended): a failing [lstat] or [opendir] of the popped directory
    writes a line that carries the directory's path and the directory adds
    nothing; a failing [lstat] of an entry writes a line and the entry adds
    nothing; a failing [closedir] writes a line without any path and the
    size found is kept.  Every such line comes with [exit_status = 1], which
    no step clears.  The expander goes on with the remaining entries, and
    whatever the schedule each root ends with the blocks of everything that
    could be stat-ed and listed; [main] returns 1 when a line was written. *)
Theorem C8_error_isolation fs g argv K :
  (1 ≤ K)%nat →
  (∀ info f w, lstat fs (name f) = None →
     thread_func fs info (L182 f) w
     = Some (Tau, L183 f 0, report (LogLine "unable to stat: '%s'" (Some (name f))) w))
  ∧ (∀ info f st w, lstat fs (name f) = Some st → opendir fs (name f) = None →
     thread_func fs info (L182 f) w
     = Some (Tau, L183 f 0,
             report (LogLine "du: cannot read directory '%s': " (Some (name f))) w))
  ∧ (∀ info f e rest cf size w,
       skip_name e = false → lstat fs (path_join (name f) e) = None →
       ∃ m, thread_func fs info (L230 f (DirStream (e :: rest) cf) size) w
            = Some (Tau, L230 f (DirStream rest cf) (wrap32 (size + 0)), report m w))
  ∧ (∀ info f size w,
       thread_func fs info (L230 f (DirStream [] true) size) w
       = Some (Tau, L183 f size, report (LogLine "closedir error: " None) w))
  ∧ (∀ m w, exit_status (report m w) = 1 ∧ stderr (report m w) = stderr w ++ [m]
            ∧ total_sizes (report m w) = total_sizes w ∧ queue (report m w) = queue w)
  ∧ (∀ p, lstat fs p = None → du_path fs p = 0)
  ∧ (∀ p, opendir fs p = None → contents fs p = 0)
  ∧ (∀ tr c, run fs (run_threads (initialize fs g argv K) K) tr c →
       (stderr c.1 ≠ [] → exit_status c.1 = 1)
       ∧ ∀ t e c', step fs t c = Some (e, c') →
           (exit_status c.1 = 1 → exit_status c'.1 = 1)
           ∧ (stderr c'.1 = stderr c.1
              ∨ ∃ m, stderr c'.1 = stderr c.1 ++ [m] ∧ exit_status c'.1 = 1))
  ∧ (∀ w, main_final fs g argv K w →
       total_sizes w = (λ r, wrap32 (expected fs g argv r)) <$> seq 0 (length argv)
       ∧ (stderr w ≠ [] → exit_status w = 1)).
Proof.
  intros HK. split_and!.
  - intros info f w Hst. simpl. by rewrite Hst.
  - intros info f st w Hst Hop. simpl. by rewrite Hst, Hop.
  - intros info f e rest cf size w Hskip Hst. eexists. simpl.
    unfold entry_action_of. by rewrite Hskip, Hst.
  - done.
  - done.
  - intros p Hst. by rewrite du_path_unfold, Hst.
  - intros p Hop. unfold contents. by rewrite Hop.
  - intros tr c Hrun. split; [by apply (run_errors _ _ _ _ _ _ Hrun)|].
    intros t e c'. apply step_errors.
  - intros w Hmain.
    split; [by apply (main_final_totals _ _ _ K)|by apply (main_final_errors _ _ _ _ _ Hmain)].
Qed.

(** C8 at [faulty_fs]: the run ends with 24 blocks for [d] and the flag set. *)
Lemma C8_witness :
  total_sizes faulty_exec.2.1
  = (λ r, wrap32 (expected faulty_fs zeroed ["d"] r)) <$> seq 0 (length ["d"])
  ∧ (stderr faulty_exec.2.1 ≠ [] → exit_status faulty_exec.2.1 = 1).
Proof.
  destruct (C8_error_isolation faulty_fs zeroed ["d"] 1) as (_ & _ & _ & _ & _ & _ & _ & _ & H).
  - lia.
  - apply H, faulty_main_final.
Defined.

(** C8, as stated, fails on an empty directory [d] whose [closedir] fails:
    the run ends with a single line on the error stream, and that line does
    not carry the path. *)
Lemma C8_counterexample :
  opendir closefail_fs "d" = Some (DirStream ["."; ".."] true)
  ∧ run closefail_fs closefail_start closefail_exec.1 closefail_exec.2
  ∧ joined closefail_exec.2
  ∧ stderr closefail_exec.2.1 = [LogLine "closedir error: " None]
  ∧ ¬ ∃ m, m ∈ stderr closefail_exec.2.1 ∧ arg m = Some "d".
Proof.
  split_and!; try by vm_compute.
  - apply (exec_run closefail_fs (replicate 23 0%nat)). vm_compute. reflexivity.
  - repeat constructor.
  - intros (m & Hm & Harg). vm_compute in Hm.
    apply list_elem_of_singleton in Hm. by subst m.
Qed.

(** C9: what the seeder computes.  Root ids follow the order of the paths;
    the slot of a root holds the block count found in [file_stat]; a failing
    [lstat] sets the error flag and the seeder goes on; the root is queued
    (and announced by one post) when [file_stat] describes a directory.  But
    when [lstat] fails [file_stat] was never written: for a root that does
    not exist the slot and the decision to queue it are whatever the buffer
    held, for instance 12345 blocks and a directory. *)
Theorem C9_seeder fs g argv K :
  total_sizes (initialize fs g argv K) = seeded_totals fs g 0 argv
  ∧ queue (initialize fs g argv K) = seeded_dirs fs g 0 argv
  ∧ Z.of_nat (available_sem (initialize fs g argv K))
    = Z.of_nat (length (queue (initialize fs g argv K)))
  ∧ ((∃ a, a ∈ argv ∧ lstat fs a = None) → exit_status (initialize fs g argv K) = 1)
  ∧ total_sizes (initialize (FileSystem ∅ ∅) g ["missing"] K)
    = [wrap32 (0 + st_blocks (g 0%nat))]
  ∧ queue (initialize (FileSystem ∅ ∅) g ["missing"] K)
    = (if is_dir (g 0%nat) then [DirInfo 0 "missing"] else [])
  ∧ total_sizes (initialize (FileSystem ∅ ∅) (λ _, Stat true 12345) ["missing"] K) = [12345]
  ∧ queue (initialize (FileSystem ∅ ∅) (λ _, Stat true 12345) ["missing"] K)
    = [DirInfo 0 "missing"]
  ∧ total_sizes (initialize (FileSystem ∅ ∅) zeroed ["missing"] K) = [0].
Proof.
  pose proof (seeded_initialize fs g argv K) as Hsd.
  assert (∀ g', total_sizes (initialize (FileSystem ∅ ∅) g' ["missing"] K)
                = [wrap32 (0 + st_blocks (g' 0%nat))]) as Ht.
  { intros g'. unfold initialize. by rewrite initialize_from_totals. }
  assert (∀ g', queue (initialize (FileSystem ∅ ∅) g' ["missing"] K)
                = (if is_dir (g' 0%nat) then [DirInfo 0 "missing"] else [])) as Hq.
  { intros g'. unfold initialize. rewrite (initialize_from_queue K) by by split.
    simpl. by rewrite app_nil_r. }
  split_and!.
  - unfold initialize. by rewrite initialize_from_totals.
  - unfold initialize. by rewrite (initialize_from_queue K) by by split.
  - rewrite (sd_sem _ _ Hsd). apply (queue_length (run_threads _ K)).
    by apply seeded_structure_ok.
  - intros H. apply initialize_from_status. by right.
  - apply Ht.
  - apply Hq.
  - by rewrite Ht.
  - by rewrite Hq.
  - by rewrite Ht.
Qed.






(** * The queue, the flags and the seeder *)

(** The structural invariant holds whatever the number of workers. *)
Lemma run_structure fs g argv K tr c :
  run fs (run_threads (initialize fs g argv K) K) tr c → structure_ok c.
Proof. intros Hrun. by destruct (run_accounts _ _ _ _ _ _ Hrun). Qed.

(** The number of workers of a pool does not change. *)
Lemma run_workers fs g argv K tr c :
  run fs (run_threads (initialize fs g argv K) K) tr c → length c.2 = K.
Proof.
  intros Hrun. rewrite (run_length _ _ _ _ Hrun). simpl. by rewrite length_replicate.
Qed.

(** A pop returns the last cell of the queue. *)
Lemma get_available_file_last q f w :
  nr_available_files w ≤ Z.of_nat (length (available_files w)) →
  queue w = q ++ [f] →
  ∃ w', get_available_file w = Some (f, w') ∧ queue w' = q
        ∧ nr_available_files w' = nr_available_files w - 1.
Proof.
  intros Hle Hq.
  assert (length (queue w) = S (length q)) as Hlen by (rewrite Hq, length_app; simpl; lia).
  unfold queue in Hlen, Hq. rewrite length_take in Hlen.
  assert (available_files w !! length q = Some f) as Hf.
  { assert (take (Z.to_nat (nr_available_files w)) (available_files w) !! length q = Some f)
      as Hl.
    { rewrite Hq, lookup_app_r; [|reflexivity]. by rewrite Nat.sub_diag. }
    by apply lookup_take_Some in Hl as [Hl _]. }
  assert (Z.to_nat (nr_available_files w) = S (length q)) as Hnr by lia.
  unfold get_available_file. rewrite bool_decide_eq_true_2 by lia.
  replace (Z.to_nat (nr_available_files w - 1)) with (length q) by lia.
  rewrite Hf. simpl. eexists. split; [done|]. unfold queue. simpl.
  replace (Z.to_nat (nr_available_files w - 1)) with (length q) by lia.
  split; [|done].
  apply (f_equal (take (length q))) in Hq.
  rewrite take_take, take_app_length in Hq.
  by replace (length q `min` Z.to_nat (nr_available_files w))%nat
    with (length q) in Hq by lia.
Qed.

(** The error stream and the flag left by the seeder. *)
Lemma initialize_files_report fs garbage_file file w :
  stderr (initialize_files fs garbage_file file w)
  = stderr w ++ match lstat fs (name file) with
                | None => [LogLine "unable to stat: '%s': " (Some (name file))]
                | Some _ => []
                end
  ∧ exit_status (initialize_files fs garbage_file file w)
    = match lstat fs (name file) with None => 1 | Some _ => exit_status w end.
Proof.
  unfold initialize_files. destruct (lstat fs (name file)) as [st|]; simpl.
  - rewrite app_nil_r. by destruct (is_dir st).
  - by destruct (is_dir garbage_file).
Qed.

(** One line for every root that cannot be stat-ed. *)
Lemma initialize_from_stderr fs g id argv w :
  stderr (initialize_from fs g id argv w)
  = stderr w ++ ((λ a, LogLine "unable to stat: '%s': " (Some a))
                   <$> filter (λ a, lstat fs a = None) argv).
Proof.
  revert id w. induction argv as [|a argv IH]; intros id w; simpl.
  { by rewrite app_nil_r. }
  rewrite IH. destruct (initialize_files_report fs (g id) (DirInfo id a)
    (with_total_sizes (<[id:=0]> (resize (S id) 0 (total_sizes w))) w)) as [-> _].
  simpl. rewrite filter_cons. destruct (lstat fs a) as [st|] eqn:Hst; simpl.
  - by rewrite app_nil_r.
  - by rewrite <- app_assoc.
Qed.

(** The flag is set when one of them cannot. *)
Lemma initialize_from_exit fs g id argv w :
  exit_status (initialize_from fs g id argv w)
  = if decide (Forall (λ a, is_Some (lstat fs a)) argv) then exit_status w else 1.
Proof.
  revert id w. induction argv as [|a argv IH]; intros id w; cbn [initialize_from].
  { by rewrite decide_True by constructor. }
  rewrite IH. destruct (initialize_files_report fs (g id) (DirInfo id a)
    (with_total_sizes (<[id:=0]> (resize (S id) 0 (total_sizes w))) w)) as [_ ->].
  cbn [name]. destruct (lstat fs a) as [st|] eqn:Hst.
  - destruct (decide (Forall _ argv)) as [Hall|Hnot].
    + rewrite decide_True; [done|]. constructor; [by rewrite Hst|done].
    + rewrite decide_False; [done|]. by intros [_ ?]%Forall_cons.
  - rewrite (decide_False (P := Forall _ (a :: argv))).
    + by destruct (decide (Forall _ argv)).
    + intros [[? Hsome] _]%Forall_cons. by rewrite Hst in Hsome.
Qed.

(** When every worker has returned, one of them has declared termination and
    the others have each used one of its wake-up signals. *)
Lemma joined_spent (ps : list pc) :
  Forall (λ l, l = L188) ps → sum_list_with spent ps = length ps.
Proof.
  induction 1 as [|l ps -> _ IH]; simpl; [done|]. by rewrite IH.
Qed.

Lemma joined_idle (ps : list pc) :
  Forall (λ l, l = L188) ps → idle <$> ps = replicate (length ps) true.
Proof.
  induction 1 as [|l ps -> _ IH]; simpl; [done|]. by rewrite <- IH.
Qed.

(** * Below the roots *)

(** The directories the seeder queues are roots of the command line. *)
Lemma seeded_dirs_roots fs g id argv f :
  f ∈ seeded_dirs fs g id argv →
  ∃ r a, argv !! r = Some a ∧ f = DirInfo (id + r) a.
Proof.
  revert id. induction argv as [|a argv IH]; intros id; simpl.
  { by intros ?%not_elem_of_nil. }
  intros [Hin|Hin]%elem_of_app.
  - destruct (is_dir _); [|by apply not_elem_of_nil in Hin].
    apply list_elem_of_singleton in Hin as ->. exists 0%nat, a.
    by rewrite Nat.add_0_r.
  - destruct (IH _ Hin) as (r & a' & Ha' & ->). exists (S r), a'.
    split; [done|]. f_equal. lia.
Qed.

Lemma below_root argv r a : argv !! r = Some a → below argv (DirInfo r a).
Proof. intros Ha. exists a, []. by split_and!. Qed.

Lemma below_entry argv f e :
  below argv f → skip_name e = false →
  below argv (DirInfo (parent_id f) (path_join (name f) e)).
Proof.
  intros (a & es & Ha & Hn & Hes) He. exists a, (es ++ [e]). simpl. split_and!.
  - done.
  - by rewrite foldl_app, <- Hn.
  - apply Forall_app. split; [done|]. by constructor.
Qed.

(** Every directory in the queue, in the hands of a worker, or named by a
    push or a pop lies below the root it is counted for. *)
Lemma run_below fs g argv K tr c :
  run fs (run_threads (initialize fs g argv K) K) tr c →
  Forall (below argv) (queue c.1)
  ∧ (∀ t l f, c.2 !! t = Some l → pc_dir l = Some f → below argv f)
  ∧ Forall (below argv) (pushes tr)
  ∧ Forall (below argv) (pops tr).
Proof.
  intros Hrun.
  assert (structure_ok c ∧ Forall (below argv) (queue c.1)
          ∧ (∀ t l f, c.2 !! t = Some l → pc_dir l = Some f → below argv f)
          ∧ Forall (below argv) (pushes tr)
          ∧ Forall (below argv) (pops tr)) as (_ & ?); [|done].
  induction Hrun as [|tr c t e c' _ (IHs & IHq & IHp & IHpush & IHpop) Hstep].
  - pose proof (seeded_initialize fs g argv K) as Hsd.
    split_and!; try by constructor.
    + by apply seeded_structure_ok.
    + simpl. unfold initialize. rewrite (initialize_from_queue K) by by split.
      simpl. apply Forall_forall. intros f (r & a & Ha & ->)%seeded_dirs_roots.
      by apply below_root.
    + simpl. by intros t l f [-> _]%lookup_replicate.
  - pose proof (step_queue _ _ _ _ _ IHs Hstep) as Hq.
    split; [by eapply structure_ok_step|].
    rewrite pushes_snoc, pops_snoc.
    destruct c as [w ps]. apply step_inv in Hstep as (l & l' & w' & Hl & Hf & ->).
    simpl in *.
    assert (∀ f, e = Push f → below argv f) as Hpushed.
    { intros f ->. thread_cases Hf.
      match goal with H : entry_action_of _ _ _ = _ |- _ =>
        apply entry_action_of_subdir in H as (-> & Hskip & _) end.
      apply below_entry; [|done]. by eapply IHp. }
    assert (∀ f, e = Pop f → below argv f) as Hpopped.
    { intros f ->. rewrite Hq in IHq. by apply Forall_app in IHq as [_ [? _]%Forall_cons]. }
    split_and!.
    + destruct e; try (by rewrite Hq).
      * rewrite Hq. apply Forall_app. split; [done|]. constructor; [by apply Hpushed|done].
      * rewrite Hq in IHq. by apply Forall_app in IHq as [? _].
    + intros t' l0 f Hl0 Hdir. insert_cases Hl0; [|by eapply IHp].
      thread_cases Hf; simplify_eq/=; try (by eapply (IHp _ _ _ Hl)); by apply Hpopped.
    + apply Forall_app. split; [done|]. destruct e; try by constructor.
      constructor; [by apply Hpushed|done].
    + apply Forall_app. split; [done|]. destruct e; try by constructor.
      constructor; [by apply Hpopped|done].
Qed.

(** What the seeder queues, in full. *)
Lemma seeded_dirs_elem fs g id argv f :
  f ∈ seeded_dirs fs g id argv →
  ∃ r a, argv !! r = Some a ∧ f = DirInfo (id + r) a
         ∧ is_dir (default (g (id + r)%nat) (lstat fs a)) = true.
Proof.
  revert id. induction argv as [|a argv IH]; intros id; simpl.
  { by intros ?%not_elem_of_nil. }
  intros [Hin|Hin]%elem_of_app.
  - destruct (is_dir _) eqn:Hdir; [|by apply not_elem_of_nil in Hin].
    apply list_elem_of_singleton in Hin as ->. exists 0%nat, a.
    by rewrite Nat.add_0_r.
  - destruct (IH _ Hin) as (r & a' & Ha' & -> & Hdir). exists (S r), a'.
    replace (id + S r)%nat with (S id + r)%nat by lia. done.
Qed.

Lemma seeded_dirs_taken fs g argv f :
  f ∈ seeded_dirs fs g 0 argv → taken_for_dir fs g argv f.
Proof.
  intros (r & a & Ha & -> & Hdir)%seeded_dirs_elem. simpl in *.
  destruct (lstat fs a) as [st|] eqn:Hst; simpl in Hdir.
  - left. by exists st.
  - right. by split_and!.
Qed.

(** Whatever is queued, scanned, pushed or popped was taken for a
    directory. *)
Lemma run_taken fs g argv K tr c :
  run fs (run_threads (initialize fs g argv K) K) tr c →
  Forall (taken_for_dir fs g argv) (queue c.1)
  ∧ (∀ t l f, c.2 !! t = Some l → pc_dir l = Some f → taken_for_dir fs g argv f)
  ∧ Forall (taken_for_dir fs g argv) (pushes tr)
  ∧ Forall (taken_for_dir fs g argv) (pops tr).
Proof.
  intros Hrun.
  assert (structure_ok c ∧ Forall (taken_for_dir fs g argv) (queue c.1)
          ∧ (∀ t l f, c.2 !! t = Some l → pc_dir l = Some f → taken_for_dir fs g argv f)
          ∧ Forall (taken_for_dir fs g argv) (pushes tr)
          ∧ Forall (taken_for_dir fs g argv) (pops tr)) as (_ & ?); [|done].
  induction Hrun as [|tr c t e c' _ (IHs & IHq & IHp & IHpush & IHpop) Hstep].
  - pose proof (seeded_initialize fs g argv K) as Hsd.
    split_and!; try by constructor.
    + by apply seeded_structure_ok.
    + simpl. unfold initialize. rewrite (initialize_from_queue K) by by split.
      simpl. apply Forall_forall. intros f. apply seeded_dirs_taken.
    + simpl. by intros t l f [-> _]%lookup_replicate.
  - pose proof (step_queue _ _ _ _ _ IHs Hstep) as Hq.
    split; [by eapply structure_ok_step|].
    rewrite pushes_snoc, pops_snoc.
    destruct c as [w ps]. apply step_inv in Hstep as (l & l' & w' & Hl & Hf & ->).
    simpl in *.
    assert (∀ f, e = Push f → taken_for_dir fs g argv f) as Hpushed.
    { intros f ->. thread_cases Hf.
      match goal with H : entry_action_of _ _ _ = _ |- _ =>
        apply entry_action_of_subdir in H as (-> & _ & Hst & Hdir) end.
      left. by eexists. }
    assert (∀ f, e = Pop f → taken_for_dir fs g argv f) as Hpopped.
    { intros f ->. rewrite Hq in IHq. by apply Forall_app in IHq as [_ [? _]%Forall_cons]. }
    split_and!.
    + destruct e; try (by rewrite Hq).
      * rewrite Hq. apply Forall_app. split; [done|]. constructor; [by apply Hpushed|done].
      * rewrite Hq in IHq. by apply Forall_app in IHq as [? _].
    + intros t' l0 f Hl0 Hdir. insert_cases Hl0; [|by eapply IHp].
      thread_cases Hf; simplify_eq/=; try (by eapply (IHp _ _ _ Hl)); by apply Hpopped.
    + apply Forall_app. split; [done|]. destruct e; try by constructor.
      constructor; [by apply Hpushed|done].
    + apply Forall_app. split; [done|]. destruct e; try by constructor.
      constructor; [by apply Hpopped|done].
Qed.

(** * [get_directory_size] in one piece *)

(** The worker's steps through the [readdir] loop, when no other worker
    moves, do what [readdir_loop] does. *)
Lemma readdir_loop_run fs t f cf entries size w ps :
  ps !! t = Some (L230 f (DirStream entries cf) size) →
  available_lock w = None →
  ∃ tr, run fs (w, ps) tr
          ((readdir_loop fs f entries size w).2,
           <[t := L230 f (DirStream [] cf) (readdir_loop fs f entries size w).1]> ps)
        ∧ Forall (λ te, te.1 = t) tr
        ∧ pushes tr = omap (entry_subdir fs f) entries
        ∧ pops tr = []
        ∧ available_lock (readdir_loop fs f entries size w).2 = None.
Proof.
  revert size w ps. induction entries as [|e entries IH]; intros size w ps Hl Hlock.
  { exists []. simpl. rewrite list_insert_id by done. split_and!; try done. constructor. }
  pose proof (lookup_lt_Some _ _ _ Hl) as Hlt.
  cbn [readdir_loop]. unfold get_available_file_size.
  cbn [omap list_omap]. unfold entry_subdir at 1.
  destruct (entry_action_of fs f e) as [|m|temp_dir st|st] eqn:He.
  - (* . and .. *)
    destruct (IH (wrap32 (size + 0)) w (<[t := L230 f (DirStream entries cf) (wrap32 (size + 0))]> ps))
      as (tr & Hrun & Ht & Hpush & Hpop & Hlock'); [by rewrite list_lookup_insert_eq|done|].
    rewrite list_insert_insert_eq in Hrun.
    exists ((t, Tau) :: tr). split_and!; try done.
    + eapply run_cons; [|done]. unfold step. simpl. rewrite Hl. simpl. by rewrite He.
    + by constructor.
  - (* lstat fails *)
    destruct (IH (wrap32 (size + 0)) (report m w)
                (<[t := L230 f (DirStream entries cf) (wrap32 (size + 0))]> ps))
      as (tr & Hrun & Ht & Hpush & Hpop & Hlock'); [by rewrite list_lookup_insert_eq|done|].
    rewrite list_insert_insert_eq in Hrun.
    exists ((t, Tau) :: tr). split_and!; try done.
    + eapply run_cons; [|done]. unfold step. simpl. rewrite Hl. simpl. by rewrite He.
    + by constructor.
  - (* a directory: the push, then the post *)
    destruct (IH (wrap32 (size + wrap32 (st_blocks st)))
                (sem_post (set_available_file temp_dir w))
                (<[t := L230 f (DirStream entries cf) (wrap32 (size + wrap32 (st_blocks st)))]> ps))
      as (tr & Hrun & Ht & Hpush & Hpop & Hlock'); [by rewrite list_lookup_insert_eq|done|].
    rewrite list_insert_insert_eq in Hrun.
    exists ((t, Push temp_dir) :: (t, Post) :: tr). split_and!; try done.
    + eapply run_cons.
      { unfold step. simpl. rewrite Hl. simpl. by rewrite He, Hlock. }
      eapply run_cons; [|done].
      unfold step. simpl. rewrite list_lookup_insert_eq by done. simpl.
      by rewrite list_insert_insert_eq.
    + by repeat constructor.
    + change (pushes ((t, Push temp_dir) :: (t, Post) :: tr)) with (temp_dir :: pushes tr).
      by rewrite Hpush.
  - (* any other file *)
    destruct (IH (wrap32 (size + wrap32 (st_blocks st))) w
                (<[t := L230 f (DirStream entries cf) (wrap32 (size + wrap32 (st_blocks st)))]> ps))
      as (tr & Hrun & Ht & Hpush & Hpop & Hlock'); [by rewrite list_lookup_insert_eq|done|].
    rewrite list_insert_insert_eq in Hrun.
    exists ((t, Tau) :: tr). split_and!; try done.
    + eapply run_cons; [|done]. unfold step. simpl. rewrite Hl. simpl. by rewrite He.
    + by constructor.
Qed.

(** What [readdir_loop] returns and leaves behind. *)
Lemma readdir_loop_spec fs f entries size w :
  0 ≤ nr_available_files w ≤ Z.of_nat (length (available_files w)) →
  wrap32 size = size →
  let r := readdir_loop fs f entries size w in
  r.1 = wrap32 (size + sumZ (entry_blocks fs f <$> entries))
  ∧ queue r.2 = queue w ++ omap (entry_subdir fs f) entries
  ∧ 0 ≤ nr_available_files r.2 ≤ Z.of_nat (length (available_files r.2))
  ∧ available_sem r.2 = (available_sem w + length (omap (entry_subdir fs f) entries))%nat
  ∧ stderr r.2 = stderr w ++ omap (entry_error fs f) entries
  ∧ exit_status r.2 = (if omap (entry_error fs f) entries is [] then exit_status w else 1)
  ∧ total_sizes r.2 = total_sizes w
  ∧ done_threads r.2 = done_threads w
  ∧ done r.2 = done w
  ∧ available_lock r.2 = available_lock w.
Proof.
  revert size w. induction entries as [|e entries IH]; intros size w Hq Hsize.
  { simpl. rewrite sumZ_nil, Z.add_0_r, !app_nil_r, Nat.add_0_r, Hsize.
    split_and!; try done; lia. }
  cbn [readdir_loop]. unfold get_available_file_size.
  cbn [omap list_omap fmap list_fmap]. rewrite sumZ_cons.
  assert (entry_subdir fs f e = match entry_action_of fs f e with
                                | SubDirectory temp_dir _ => Some temp_dir
                                | _ => None
                                end) as -> by done.
  assert (entry_error fs f e = match entry_action_of fs f e with
                               | StatFailed m => Some m
                               | _ => None
                               end) as -> by done.
  assert (entry_blocks fs f e = match entry_action_of fs f e with
                                | SubDirectory _ st | PlainFile st => st_blocks st
                                | _ => 0
                                end) as -> by done.
  destruct (entry_action_of fs f e) as [|m|temp_dir st|st] eqn:He.
  - destruct (IH (wrap32 (size + 0)) w Hq (wrap32_idemp _))
      as (H1 & H2 & H3 & H4 & H5 & H6 & H7 & H8 & H9 & H10).
    cbv zeta. split_and!; try done; try lia.
    rewrite H1, wrap32_add_l. f_equal. lia.
  - destruct (IH (wrap32 (size + 0)) (report m w) Hq (wrap32_idemp _))
      as (H1 & H2 & H3 & H4 & H5 & H6 & H7 & H8 & H9 & H10).
    cbv zeta. split_and!; try done; try lia.
    + rewrite H1, wrap32_add_l. f_equal. lia.
    + rewrite H5. simpl. by rewrite <- app_assoc.
    + rewrite H6. simpl. by destruct (omap (entry_error fs f) entries).
  - pose proof (set_available_file_queue temp_dir w Hq) as Hpush.
    destruct (IH (wrap32 (size + wrap32 (st_blocks st)))
                (sem_post (set_available_file temp_dir w)))
      as (H1 & H2 & H3 & H4 & H5 & H6 & H7 & H8 & H9 & H10).
    { simpl. rewrite length_insert, length_resize. lia. }
    { apply wrap32_idemp. }
    cbv zeta. split_and!; try done; try lia.
    + rewrite H1, wrap32_add_l. set (rest := sumZ _).
      replace (size + wrap32 (st_blocks st) + rest)
        with (size + rest + wrap32 (st_blocks st)) by lia.
      rewrite wrap32_add_r. f_equal. lia.
    + rewrite H2. change (queue (sem_post ?w)) with (queue w).
      rewrite Hpush. by rewrite <- app_assoc.
    + rewrite H4. simpl. lia.
  - destruct (IH (wrap32 (size + wrap32 (st_blocks st))) w Hq (wrap32_idemp _))
      as (H1 & H2 & H3 & H4 & H5 & H6 & H7 & H8 & H9 & H10).
    cbv zeta. split_and!; try done; try lia.
    rewrite H1, wrap32_add_l. set (rest := sumZ _).
      replace (size + wrap32 (st_blocks st) + rest)
        with (size + rest + wrap32 (st_blocks st)) by lia.
      rewrite wrap32_add_r. f_equal. lia.
Qed.

(** What [get_directory_size] leaves untouched. *)
Lemma get_directory_size_frame fs f w :
  0 ≤ nr_available_files w ≤ Z.of_nat (length (available_files w)) →
  let r := get_directory_size fs f w in
  total_sizes r.2 = total_sizes w
  ∧ done_threads r.2 = done_threads w
  ∧ done r.2 = done w
  ∧ available_lock r.2 = available_lock w
  ∧ 0 ≤ nr_available_files r.2 ≤ Z.of_nat (length (available_files r.2)).
Proof.
  intros Hq. unfold get_directory_size.
  destruct (lstat fs (name f)) as [st|]; [|by split_and!; try done; simpl; lia].
  destruct (opendir fs (name f)) as [d|]; [|by split_and!; try done; simpl; lia].
  destruct (readdir_loop_spec fs f (d_names d) 0 w Hq eq_refl)
    as (_ & _ & H3 & _ & _ & _ & H7 & H8 & H9 & H10).
  destruct (readdir_loop fs f (d_names d) 0 w) as [size w'].
  destruct (close_fails d); simpl in *; split_and!; try done; lia.
Qed.

(** * The lines on the error stream *)

(** The error flag tells whether a line was written. *)
Lemma step_report fs t c e c' :
  step fs t c = Some (e, c') →
  (stderr c'.1 = stderr c.1 ∧ exit_status c'.1 = exit_status c.1)
  ∨ ∃ m, stderr c'.1 = stderr c.1 ++ [m] ∧ exit_status c'.1 = 1.
Proof.
  destruct c as [w ps]. intros Hstep.
  apply step_inv in Hstep as (l & l' & w' & Hl & Hf & ->). simpl.
  thread_cases Hf; try (by left); try (right; by eexists).
Qed.

(** No root fails when every root can be stat-ed. *)
Lemma filter_failed_roots fs (argv : list string) :
  filter (λ a, lstat fs a = None) argv = [] ↔ Forall (λ a, is_Some (lstat fs a)) argv.
Proof.
  induction argv as [|a argv IH]; [done|]. rewrite filter_cons, Forall_cons.
  destruct (lstat fs a) as [st|] eqn:Hst.
  - rewrite decide_False by done. rewrite IH. split; [by split|by intros [_ ?]].
  - rewrite decide_True by done. split; [done|]. by intros [[? ?] _].
Qed.

(** [exit_status] is 0 as long as nothing has been written, and 1 from then
    on. *)
Lemma run_exit_status fs g argv K tr c :
  run fs (run_threads (initialize fs g argv K) K) tr c →
  exit_status c.1 = (if stderr c.1 is [] then 0 else 1).
Proof.
  induction 1 as [|tr c t e c' _ IH Hstep].
  - simpl. unfold initialize. rewrite initialize_from_stderr, initialize_from_exit. simpl.
    destruct (decide (Forall _ argv)) as [Hall|Hnot].
    + apply filter_failed_roots in Hall. by rewrite Hall.
    + destruct (filter _ argv) eqn:Hf; [|done].
      by apply filter_failed_roots in Hf.
  - destruct (step_report _ _ _ _ _ Hstep) as [[-> ->]|(m & -> & ->)]; [done|].
    by destruct (stderr c.1).
Qed.

Section reports.
Context (fs : filesystem).

Lemma reports_S n p :
  reports fs (S n) p =
  match lstat fs p with
  | None => {[+ LogLine "unable to stat: '%s'" (Some p) +]}
  | Some _ =>
      match opendir fs p with
      | None => {[+ LogLine "du: cannot read directory '%s': " (Some p) +]}
      | Some d =>
          ⋃+ ((λ e, match entry_action_of fs (DirInfo 0 p) e with
                    | StatFailed m => {[+ m +]}
                    | SubDirectory temp_dir _ => reports fs n (name temp_dir)
                    | _ => ∅
                    end) <$> d_names d)
          ⊎ (if close_fails d then {[+ LogLine "closedir error: " None +]} else ∅)
      end
  end.
Proof. done. Qed.

(** As for [du], more fuel than [fuel_for] changes nothing. *)
Lemma reports_stable n m p :
  (fuel_for fs p ≤ n)%nat → (fuel_for fs p ≤ m)%nat → reports fs n p = reports fs m p.
Proof.
  revert m p. induction n as [|n IH]; intros m p Hn Hm.
  - destruct m as [|m]; [done|]. rewrite reports_S.
    destruct (lstat fs p) as [st|] eqn:Hst; [|done].
    apply lstat_length in Hst. unfold fuel_for in Hn. lia.
  - destruct m as [|m]; rewrite !reports_S.
    + destruct (lstat fs p) as [st|] eqn:Hst; [|done].
      apply lstat_length in Hst. unfold fuel_for in Hm. lia.
    + destruct (lstat fs p) as [st|] eqn:Hst; [|done].
      destruct (opendir fs p) as [d|]; [|done].
      f_equal. f_equal. apply list_fmap_ext. intros i e _.
      destruct (entry_action_of fs (DirInfo 0 p) e) as [| |temp_dir st'|] eqn:He; try done.
      apply entry_action_of_subdir in He as (-> & _ & _ & _).
      apply IH; unfold fuel_for in *; simpl; rewrite path_join_length; lia.
Qed.

(** The lines of an entry depend on the directory's path only. *)
Lemma reports_entry_name f e :
  reports_entry fs f e = reports_entry fs (DirInfo 0 (name f)) e.
Proof.
  unfold reports_entry, entry_action_of. simpl. destruct (skip_name e); [done|].
  destruct (lstat fs _) as [st|]; [|done]. by destruct (is_dir st).
Qed.

(** The lines of a queued directory, free of fuel. *)
Lemma reports_path_unfold f :
  reports_path fs (name f) =
  match lstat fs (name f), opendir fs (name f) with
  | None, _ => {[+ LogLine "unable to stat: '%s'" (Some (name f)) +]}
  | Some _, None => {[+ LogLine "du: cannot read directory '%s': " (Some (name f)) +]}
  | Some _, Some d => reports_stream fs f d
  end.
Proof.
  unfold reports_path. destruct (lstat fs (name f)) as [st|] eqn:Hst.
  - pose proof (lstat_length _ _ _ Hst) as Hlen.
    destruct (fuel_for fs (name f)) as [|n] eqn:Hf; [unfold fuel_for in Hf; lia|].
    rewrite reports_S, Hst. destruct (opendir fs (name f)) as [d|]; [|done].
    unfold reports_stream. f_equal. f_equal. apply list_fmap_ext. intros i e _.
    rewrite reports_entry_name. unfold reports_entry.
    destruct (entry_action_of fs (DirInfo 0 (name f)) e) as [| |temp_dir st'|] eqn:He; try done.
    apply entry_action_of_subdir in He as (-> & _ & _ & _).
    apply reports_stable; unfold fuel_for in *; simpl; rewrite path_join_length; lia.
  - destruct (fuel_for fs (name f)); [done|]. by rewrite reports_S, Hst.
Qed.

End reports.

(** Sums of multisets over the workers. *)
Lemma disj_union_list_insert {A} `{Countable A} {B} (f : B → gmultiset A)
    (ps : list B) t l l' :
  ps !! t = Some l →
  ⋃+ (f <$> <[t:=l']> ps) ⊎ f l = ⋃+ (f <$> ps) ⊎ f l'.
Proof.
  revert t. induction ps as [|a ps IH]; intros [|t] Hl; simplify_eq/=.
  - multiset_solver.
  - specialize (IH _ Hl). multiset_solver.
Qed.

Lemma disj_union_list_empty {A} `{Countable A} {B} (f : B → gmultiset A) (l : list B) :
  (∀ i x, l !! i = Some x → f x = ∅) → ⋃+ (f <$> l) = ∅.
Proof.
  induction l as [|a l IH]; intros Hall; [done|].
  rewrite fmap_cons, gmultiset_disj_union_list_cons.
  rewrite (Hall 0%nat a), IH; [multiset_solver| |done].
  intros i x Hi. by apply (Hall (S i)).
Qed.

(** No step changes what has been written plus what is still to be
    written. *)
Lemma reports_step fs t c e c' :
  structure_ok c → step fs t c = Some (e, c') →
  list_to_set_disj (stderr c'.1) ⊎ reports_owed fs c'
  = list_to_set_disj (stderr c.1) ⊎ reports_owed fs c.
Proof.
  destruct c as [w ps]. intros Hs Hstep.
  apply step_inv in Hstep as (l & l' & w' & Hl & Hf & ->).
  pose proof (disj_union_list_insert (reports_inflight fs) ps t l l' Hl) as Hins.
  pose proof (so_queue _ Hs) as Hq.
  unfold reports_owed. simpl in *.
  thread_cases Hf; simpl in *.
  all: try match goal with
       | Hl : _ = Some (L182 _) |- _ => rewrite reports_path_unfold in Hins
       end.
  all: unfold reports_stream in Hins.
  all: repeat match goal with
       | H : d_names ?d = _ |- _ =>
           rewrite H in Hins;
           rewrite ?fmap_cons, ?gmultiset_disj_union_list_cons, ?fmap_nil,
             ?gmultiset_disj_union_list_nil in Hins
       | H : lstat _ _ = _ |- _ => rewrite H in Hins
       | H : opendir _ _ = _ |- _ => rewrite H in Hins
       | H : close_fails _ = _ |- _ => rewrite H in Hins
       | H : entry_action_of _ _ _ = _ |- _ =>
           unfold reports_entry at 1 in Hins; rewrite H in Hins
       end.
  all: rewrite ?list_to_set_disj_app, ?list_to_set_disj_cons, ?list_to_set_disj_nil.
  all: try (clear Hq; unfold queue; simpl; multiset_solver).
  - (* pop *)
    unfold queue. simpl.
    replace (Z.to_nat (nr_available_files w))
      with (S (Z.to_nat (nr_available_files w - 1))) by lia.
    rewrite (take_S_r _ _ _ Hpop), fmap_app, gmultiset_disj_union_list_app. simpl.
    clear Hq. multiset_solver.
  - (* push *)
    match goal with H : entry_action_of _ _ _ = _ |- _ =>
      apply entry_action_of_subdir in H as (-> & _) end.
    rewrite set_available_file_queue, fmap_app, gmultiset_disj_union_list_app by done.
    simpl in *. clear Hq. multiset_solver.
Qed.

(** Lists with the same elements, each as often, are permutations of each
    other. *)
Lemma list_to_set_disj_inv {A} `{Countable A} (l k : list A) :
  (list_to_set_disj l : gmultiset A) = list_to_set_disj k → l ≡ₚ k.
Proof.
  revert k. induction l as [|x l IH]; intros k Heq.
  - destruct k as [|y k]; [done|]. rewrite list_to_set_disj_nil, list_to_set_disj_cons in Heq.
    multiset_solver.
  - assert (x ∈ k) as Hx.
    { apply elem_of_list_to_set_disj. rewrite <- Heq, list_to_set_disj_cons.
      multiset_solver. }
    apply elem_of_Permutation in Hx as [k' Hk]. rewrite Hk. f_equiv. apply IH.
    rewrite Hk, !list_to_set_disj_cons in Heq. multiset_solver.
Qed.

Lemma list_to_set_disj_empty_inv {A} `{Countable A} (l : list A) :
  (list_to_set_disj l : gmultiset A) = ∅ ↔ l = [].
Proof.
  split; [|by intros ->]. destruct l as [|x l]; [done|].
  rewrite list_to_set_disj_cons. multiset_solver.
Qed.

(** What has been written plus what is still to be written is what the
    file system and the roots make expect. *)
Lemma run_reports fs g argv K tr c :
  run fs (run_threads (initialize fs g argv K) K) tr c →
  list_to_set_disj (stderr c.1) ⊎ reports_owed fs c = expected_reports fs g argv.
Proof.
  intros Hrun.
  assert (structure_ok c ∧
          list_to_set_disj (stderr c.1) ⊎ reports_owed fs c = expected_reports fs g argv)
    as [_ ?]; [|done].
  induction Hrun as [|tr c t e c' _ [IHs IH] Hstep].
  - pose proof (seeded_initialize fs g argv K) as Hsd.
    split; [by apply seeded_structure_ok|].
    unfold reports_owed, expected_reports, initialize. simpl.
    rewrite initialize_from_stderr, (initialize_from_queue K) by by split. simpl.
    rewrite (disj_union_list_empty (reports_inflight fs));
      [|by intros i l [-> _]%lookup_replicate].
    multiset_solver.
  - split; [by eapply structure_ok_step|].
    by rewrite (reports_step _ _ _ _ _ IHs Hstep).
Qed.

(** When [main] returns every line to expect has been written. *)
Lemma main_final_reports fs g argv K w :
  (1 ≤ K)%nat → main_final fs g argv K w →
  list_to_set_disj (stderr w) = expected_reports fs g argv
  ∧ exit_status w = (if stderr w is [] then 0 else 1).
Proof.
  intros HK [Hno|tr w' ps Hyes Hrun Hj].
  - pose proof (run_reports fs g argv K [] _ (run_nil _ _)) as Hrep.
    pose proof (run_exit_status fs g argv K [] _ (run_nil _ _)) as Hex.
    split; [|done]. rewrite <- Hrep. unfold reports_owed, queue. simpl.
    pose proof (seeded_initialize fs g argv K) as Hsd.
    unfold pool_started in Hno. apply bool_decide_eq_false in Hno.
    pose proof (sd_queue _ _ Hsd).
    replace (nr_available_files (initialize fs g argv K)) with 0 by lia. simpl.
    rewrite (disj_union_list_empty (reports_inflight fs));
      [|by intros i l [-> _]%lookup_replicate].
    multiset_solver.
  - pose proof (run_reports _ _ _ _ _ _ Hrun) as Hrep.
    pose proof (run_exit_status _ _ _ _ _ _ Hrun) as Hex.
    split; [|done]. rewrite <- Hrep.
    destruct (run_invariants _ _ _ _ _ _ HK Hrun) as [_ Hp].
    pose proof (run_length _ _ _ _ Hrun) as HlenK. simpl in HlenK.
    rewrite length_replicate in HlenK.
    destruct (joined_declared (w', ps)) as [d Hde]; [simpl; lia|done|done|].
    unfold reports_owed, queue. rewrite (de_empty _ _ Hde). simpl.
    rewrite (disj_union_list_empty (reports_inflight fs)); [multiset_solver|].
    intros i l Hl. unfold joined in Hj. rewrite Forall_lookup in Hj.
    by rewrite (Hj _ _ Hl).
Qed.

(** On a file system without failures a directory stands for no line. *)
Lemma trouble_free_readable fs p st :
  trouble_free fs = true → lstat fs p = Some st → readable fs p st = true.
Proof.
  unfold trouble_free, lstat. rewrite forallb_forall. intros Hall Hst.
  apply (Hall (p, st)). apply list_elem_of_In. by apply elem_of_map_to_list.
Qed.

Lemma trouble_free_reports fs n p st :
  trouble_free fs = true →
  (fuel_for fs p ≤ n)%nat → lstat fs p = Some st → is_dir st = true →
  reports fs n p = ∅.
Proof.
  intros Hfree. revert p st. induction n as [|n IH]; intros p st Hn Hst Hdir.
  { apply lstat_length in Hst. unfold fuel_for in Hn. lia. }
  pose proof (trouble_free_readable _ _ _ Hfree Hst) as Hr.
  unfold readable in Hr. rewrite Hdir in Hr. simpl in Hr.
  rewrite reports_S, Hst. destruct (opendir fs p) as [d|]; [|done].
  apply andb_true_iff in Hr as [Hclose Hent]. apply negb_true_iff in Hclose.
  rewrite Hclose. rewrite forallb_forall in Hent.
  rewrite disj_union_list_empty; [multiset_solver|].
  intros i e He. specialize (Hent e). 
  assert (In e (d_names d)) as Hin by (apply list_elem_of_In; by eapply list_elem_of_lookup_2).
  specialize (Hent Hin). unfold entry_action_of. simpl.
  destruct (skip_name e); [done|]. simpl in Hent. apply bool_decide_eq_true in Hent as [st' Hst'].
  rewrite Hst'. destruct (is_dir st') eqn:Hdir'; [|done]. simpl.
  apply (IH _ st'); [|done|done].
  apply lstat_length in Hst. unfold fuel_for in *. rewrite path_join_length. lia.
Qed.

Lemma trouble_free_expected fs g argv :
  trouble_free fs = true →
  Forall (λ a, is_Some (lstat fs a)) argv →
  expected_reports fs g argv = ∅.
Proof.
  intros Hfree Hroots. unfold expected_reports.
  apply filter_failed_roots in Hroots as Hnone. rewrite Hnone. simpl.
  rewrite disj_union_list_empty; [multiset_solver|].
  intros i f Hf.
  apply list_elem_of_lookup_2, seeded_dirs_elem in Hf as (r & a & Ha & -> & Hdir).
  simpl. rewrite Forall_forall in Hroots.
  destruct (Hroots a) as [st Hst]; [by eapply list_elem_of_lookup_2|].
  rewrite Hst in Hdir. simpl in Hdir. by apply (trouble_free_reports _ _ _ st).
Qed.

(** * Runs of [main] *)

(** [main] can always get to its [print]. *)
Lemma main_final_exists fs g argv K :
  (1 ≤ K)%nat → ∃ w, main_final fs g argv K w.
Proof.
  intros HK. destruct (pool_started (initialize fs g argv K)) eqn:Hstart.
  - destruct (run_invariants fs g argv K [] _ HK (run_nil _ _)) as [Hs Hp].
    destruct (run_completes fs _ Hs Hp) as (tr & [w ps] & Hrun & Hj).
    exists w. by eapply main_pool.
  - eexists. by apply main_no_pool.
Qed.

(** [main] prints and cleans up with the lock free. *)
Lemma main_final_lock fs g argv K w :
  main_final fs g argv K w → available_lock w = None.
Proof.
  intros [Hno|tr w' ps Hyes Hrun Hj].
  - apply (sd_lock K), seeded_initialize.
  - pose proof (run_structure _ _ _ _ _ _ Hrun) as Hs.
    destruct (available_lock w') as [t|] eqn:Hlock; [|done].
    destruct (so_lock_out _ Hs _ Hlock) as (l & Hl & Hcs).
    unfold joined in Hj. rewrite Forall_lookup in Hj. by rewrite (Hj _ _ Hl) in Hcs.
Qed.

(** [total_sizes] has a slot for every root. *)
Lemma main_final_slots fs g argv K w :
  main_final fs g argv K w → length (total_sizes w) = length argv.
Proof.
  intros [Hno|tr w' ps Hyes Hrun Hj].
  - by destruct (initialize_accounts fs g argv K).
  - by destruct (run_accounts _ _ _ _ _ _ Hrun) as (_ & _ & ?).
Qed.

(** [print] finds a total for every name. *)
Lemma print_from_Some j files w :
  length (total_sizes w) = (j + length files)%nat →
  print_from j files w = Some (zip (drop j (print w)) files).
Proof.
  revert j. induction files as [|file files IH]; intros j Hlen; simpl.
  { by destruct (drop j (print w)). }
  destruct (lookup_lt_is_Some_2 (total_sizes w) j) as [t Ht]; [simpl in Hlen; lia|].
  rewrite Ht. simpl. rewrite IH by (simpl in Hlen; lia). simpl.
  assert (print w !! j = Some (Z.quot t 2)) as Hp.
  { unfold print. by rewrite list_lookup_fmap, Ht. }
  by rewrite (drop_S _ _ _ Hp).
Qed.

Lemma print_lines_Some files w :
  length (total_sizes w) = length files →
  print_lines files w = Some (zip (print w) files).
Proof. intros Hlen. unfold print_lines. by rewrite print_from_Some. Qed.

(** * The buffers for paths *)

(** The seeder leaves allocated the names it has queued. *)
Lemma initialize_mem_exec fs g id argv h :
  mem_exec (initialize_mem fs g id argv) h
  = Some (h ⊎ list_to_set_disj (name <$> seeded_dirs fs g id argv)).
Proof.
  revert id h. induction argv as [|a argv IH]; intros id h.
  { simpl. f_equal. multiset_solver. }
  cbn [initialize_mem seeded_dirs].
  destruct (is_dir (default (g id) (lstat fs a))).
  - cbn [app mem_exec mem_step mbind option_bind].
    rewrite IH, fmap_cons, list_to_set_disj_cons. f_equal. simpl. clear IH. multiset_solver.
  - cbn [app mem_exec mem_step mbind option_bind].
    rewrite decide_True by multiset_solver. cbn [mbind option_bind].
    rewrite IH. f_equal. clear IH. multiset_solver.
Qed.

(** A step of a worker frees only what is allocated, and leaves allocated
    what is in use. *)
Lemma live_step fs t c l e c' :
  structure_ok c → c.2 !! t = Some l → step fs t c = Some (e, c') →
  mem_exec (thread_func_mem fs l) (live c) = Some (live c').
Proof.
  destruct c as [w ps]. intros Hs Hl0 Hstep.
  apply step_inv in Hstep as (l1 & l' & w' & Hl & Hf & ->). simpl in *.
  assert (l1 = l) as -> by congruence. clear Hl0.
  pose proof (disj_union_list_insert holds ps t l l' Hl) as Hins.
  pose proof (so_queue _ Hs) as Hq.
  unfold live. simpl.
  thread_cases Hf; simpl in *.
  all: repeat match goal with
       | H : d_names ?d = _ |- _ => rewrite H
       | H : lstat _ _ = _ |- _ => rewrite H
       | H : opendir _ _ = _ |- _ => rewrite H
       | H : entry_action_of _ _ _ = _ |- _ => rewrite H
       end.
  all: simpl.
  all: try (rewrite decide_True by (clear Hq; multiset_solver); simpl).
  all: try (f_equal; unfold queue; simpl; clear Hq; multiset_solver).
  - (* pop *)
    f_equal. unfold queue. simpl.
    replace (Z.to_nat (nr_available_files w))
      with (S (Z.to_nat (nr_available_files w - 1))) by lia.
    rewrite (take_S_r _ _ _ Hpop), fmap_app, list_to_set_disj_app. simpl.
    clear Hq. multiset_solver.
  - (* push *)
    match goal with H : entry_action_of _ _ _ = _ |- _ =>
      apply entry_action_of_subdir in H as (-> & _) end.
    f_equal. rewrite set_available_file_queue, fmap_app, list_to_set_disj_app by done.
    simpl in *. clear Hq. multiset_solver.
Qed.

Lemma disj_union_list_lookup {A} `{Countable A} {B} (f : B → gmultiset A)
    (ps : list B) t l :
  ps !! t = Some l → f l ⊆ ⋃+ (f <$> ps).
Proof.
  revert t. induction ps as [|a ps IH]; intros [|t] Hl; simplify_eq/=.
  - multiset_solver.
  - specialize (IH _ Hl). multiset_solver.
Qed.

(** The heap of an execution is made of the buffers in use. *)
Lemma run_heap_run fs g argv K tr c :
  let c0 := run_threads (initialize fs g argv K) K in
  run fs c0 tr c → heap_run fs c0 (live c0) tr c (live c).
Proof.
  intros c0 Hrun.
  assert (structure_ok c ∧ heap_run fs c0 (live c0) tr c (live c)) as [_ ?]; [|done].
  induction Hrun as [|tr c t e c' _ [IHs IH] Hstep].
  - split; [apply seeded_structure_ok, seeded_initialize|constructor].
  - split; [by eapply structure_ok_step|].
    destruct c as [w ps]. pose proof Hstep as Hstep'.
    apply step_inv in Hstep' as (l & l' & w' & Hl & _ & _).
    eapply heap_run_snoc; [done|done|done|]. by eapply live_step.
Qed.

(** An execution with the heap is an execution. *)
Lemma heap_run_run fs c0 h0 tr c h :
  heap_run fs c0 h0 tr c h → run fs c0 tr c.
Proof.
  induction 1 as [|tr c h t l e c' h' _ IH Hl Hstep _]; [constructor|].
  by eapply run_snoc.
Qed.

(** The heap of an execution is determined. *)
Lemma heap_run_live fs g argv K tr c h :
  let c0 := run_threads (initialize fs g argv K) K in
  heap_run fs c0 (live c0) tr c h → h = live c.
Proof.
  intros c0. induction 1 as [|tr c h t l e c' h' Hrun IH Hl Hstep Hmem]; [done|].
  subst h. apply heap_run_run in Hrun.
  pose proof (run_structure _ _ _ _ _ _ Hrun) as Hs.
  rewrite (live_step _ _ _ _ _ _ Hs Hl Hstep) in Hmem. by simplify_eq.
Qed.

(** * The directories scanned *)

Section scans.
Context (fs : filesystem).

Lemma scans_S n f :
  scans fs (S n) f =
  {[+ f +]} ⊎
  match lstat fs (name f) with
  | None => ∅
  | Some _ =>
      match opendir fs (name f) with
      | None => ∅
      | Some d =>
          ⋃+ ((λ e, match entry_action_of fs f e with
                    | SubDirectory temp_dir _ => scans fs n temp_dir
                    | _ => ∅
                    end) <$> d_names d)
      end
  end.
Proof. done. Qed.

Lemma scans_stable n m f :
  (fuel_for fs (name f) ≤ n)%nat → (fuel_for fs (name f) ≤ m)%nat →
  scans fs n f = scans fs m f.
Proof.
  revert m f. induction n as [|n IH]; intros m f Hn Hm.
  - destruct m as [|m]; [done|]. rewrite scans_S. simpl.
    destruct (lstat fs (name f)) as [st|] eqn:Hst; [|done].
    apply lstat_length in Hst. unfold fuel_for in Hn. lia.
  - destruct m as [|m]; rewrite !scans_S.
    + simpl. destruct (lstat fs (name f)) as [st|] eqn:Hst; [|done].
      apply lstat_length in Hst. unfold fuel_for in Hm. lia.
    + destruct (lstat fs (name f)) as [st|] eqn:Hst; [|done].
      destruct (opendir fs (name f)) as [d|]; [|done].
      f_equal. f_equal. apply list_fmap_ext. intros i e _.
      destruct (entry_action_of fs f e) as [| |temp_dir st'|] eqn:He; try done.
      apply entry_action_of_subdir in He as (-> & _ & _ & _).
      apply IH; unfold fuel_for in *; simpl; rewrite path_join_length; lia.
Qed.

(** The directories below a queued directory, free of fuel. *)
Lemma scans_path_unfold f :
  scans_path fs f =
  {[+ f +]} ⊎
  match lstat fs (name f), opendir fs (name f) with
  | Some _, Some d => ⋃+ (scans_entry fs f <$> d_names d)
  | _, _ => ∅
  end.
Proof.
  unfold scans_path. destruct (lstat fs (name f)) as [st|] eqn:Hst.
  - pose proof (lstat_length _ _ _ Hst) as Hlen.
    destruct (fuel_for fs (name f)) as [|n] eqn:Hf; [unfold fuel_for in Hf; lia|].
    rewrite scans_S, Hst. destruct (opendir fs (name f)) as [d|]; [|done].
    f_equal. f_equal. apply list_fmap_ext. intros i e _. unfold scans_entry.
    destruct (entry_action_of fs f e) as [| |temp_dir st'|] eqn:He; try done.
    apply entry_action_of_subdir in He as (-> & _ & _ & _).
    apply scans_stable; unfold fuel_for in *; simpl; rewrite path_join_length; lia.
  - destruct (fuel_for fs (name f)); [done|]. by rewrite scans_S, Hst.
Qed.

End scans.

(** No step changes the directories popped plus those still to be popped. *)
Lemma scans_step fs t c e c' :
  structure_ok c → step fs t c = Some (e, c') →
  list_to_set_disj (match e with Pop f => [f] | _ => [] end) ⊎ scans_owed fs c'
  = scans_owed fs c.
Proof.
  destruct c as [w ps]. intros Hs Hstep.
  apply step_inv in Hstep as (l & l' & w' & Hl & Hf & ->).
  pose proof (disj_union_list_insert (scans_inflight fs) ps t l l' Hl) as Hins.
  pose proof (so_queue _ Hs) as Hq.
  unfold scans_owed. simpl in *.
  thread_cases Hf; simpl in *.
  all: try match goal with
       | Hl : _ = Some (L182 ?f) |- _ =>
           pose proof (scans_path_unfold fs f) as Hunf; rewrite Hunf in Hins
       end.
  all: repeat match goal with
       | H : d_names ?d = _ |- _ =>
           rewrite H in *;
           rewrite ?fmap_cons, ?gmultiset_disj_union_list_cons, ?fmap_nil,
             ?gmultiset_disj_union_list_nil in *
       | H : lstat _ _ = _ |- _ => rewrite H in *
       | H : opendir _ _ = _ |- _ => rewrite H in *
       | H : entry_action_of _ _ _ = _ |- _ =>
           unfold scans_entry at 1 in Hins; rewrite H in Hins
       end.
  all: rewrite ?list_to_set_disj_cons, ?list_to_set_disj_nil.
  all: try (clear Hq; unfold queue; simpl; multiset_solver).
  - (* pop *)
    unfold queue. simpl.
    replace (Z.to_nat (nr_available_files w))
      with (S (Z.to_nat (nr_available_files w - 1))) by lia.
    rewrite (take_S_r _ _ _ Hpop), fmap_app, gmultiset_disj_union_list_app. simpl.
    match type of Hpop with _ = Some ?f => pose proof (scans_path_unfold fs f) as Hunf end.
    clear Hq. multiset_solver.
  - (* push *)
    match goal with H : entry_action_of _ _ _ = _ |- _ =>
      apply entry_action_of_subdir in H as (-> & _) end.
    rewrite set_available_file_queue, fmap_app, gmultiset_disj_union_list_app by done.
    simpl in *. clear Hq. multiset_solver.
Qed.

(** What has been popped plus what is still to be popped is what the roots
    make expect. *)
Lemma run_scans fs g argv K tr c :
  run fs (run_threads (initialize fs g argv K) K) tr c →
  list_to_set_disj (pops tr) ⊎ scans_owed fs c = expected_scans fs g argv.
Proof.
  intros Hrun.
  assert (structure_ok c ∧
          list_to_set_disj (pops tr) ⊎ scans_owed fs c = expected_scans fs g argv)
    as [_ ?]; [|done].
  induction Hrun as [|tr c t e c' _ [IHs IH] Hstep].
  - pose proof (seeded_initialize fs g argv K) as Hsd.
    split; [by apply seeded_structure_ok|].
    unfold scans_owed, expected_scans, initialize. simpl.
    rewrite (initialize_from_queue K) by by split. simpl.
    rewrite (disj_union_list_empty (scans_inflight fs));
      [|by intros i l [-> _]%lookup_replicate].
    multiset_solver.
  - split; [by eapply structure_ok_step|].
    pose proof (scans_step _ _ _ _ _ IHs Hstep) as Hsc.
    rewrite pops_snoc, list_to_set_disj_app. multiset_solver.
Qed.

(** * Accesses outside the critical section *)

(** A worker between its [sem_wait] and its pop excludes a worker that has
    found the queue empty. *)
Lemma credit_excludes_empty c t l t' l' :
  protocol_ok c →
  c.2 !! t = Some l → credit l = 1%nat →
  c.2 !! t' = Some l' → saw_empty l' = true → False.
Proof.
  intros [Hse|[d Hde]] Hl Hcr Hl' Hem.
  - pose proof (se_tokens _ Hse) as Htok.
    pose proof (se_empty _ Hse _ _ Hl' Hem) as Hnr.
    pose proof (sum_list_with_lookup credit _ _ _ Hl). lia.
  - destruct Hde as [(ld & Hld & Hdecl & _) _ _ Hoth].
    destruct (decide (t' = d)) as [->|Hne].
    + simplify_eq. by destruct ld.
    + pose proof (Hoth _ _ Hne Hl'). by destruct l'.
Qed.

(** * What the stat buffers decide *)

(** Only the buffers of roots that cannot be stat-ed decide what is queued. *)
Lemma seeded_dirs_garbage fs g1 g2 id argv :
  (∀ r a, argv !! r = Some a → lstat fs a = None → g1 (id + r)%nat = g2 (id + r)%nat) →
  seeded_dirs fs g1 id argv = seeded_dirs fs g2 id argv.
Proof.
  revert id. induction argv as [|a argv IH]; intros id Hg; simpl; [done|].
  rewrite (IH (S id)).
  2:{ intros r a' Ha' Hn. specialize (Hg (S r) a' Ha' Hn).
      by replace (S id + r)%nat with (id + S r)%nat by lia. }
  destruct (lstat fs a) as [st|] eqn:Hst; [done|]. simpl.
  specialize (Hg 0%nat a eq_refl Hst). rewrite Nat.add_0_r in Hg. by rewrite Hg.
Qed.

(** So they alone decide which lines are to expect. *)
Lemma expected_reports_garbage fs g1 g2 argv :
  (∀ r a, argv !! r = Some a → lstat fs a = None → g1 r = g2 r) →
  expected_reports fs g1 argv = expected_reports fs g2 argv.
Proof.
  intros Hg. unfold expected_reports. by rewrite (seeded_dirs_garbage fs g1 g2 0 argv).
Qed.

(** Whether any line is to expect does not depend on the buffers at all: a
    root that cannot be stat-ed is reported by the seeder. *)
Lemma expected_reports_empty fs g1 g2 argv :
  expected_reports fs g1 argv = ∅ → expected_reports fs g2 argv = ∅.
Proof.
  intros H1. destruct (decide (Forall (λ a, is_Some (lstat fs a)) argv)) as [Hall|Hnot].
  - rewrite <- H1. apply expected_reports_garbage. intros r a Ha Hn.
    rewrite Forall_lookup in Hall. destruct (Hall _ _ Ha). congruence.
  - exfalso. unfold expected_reports in H1.
    destruct (filter (λ a, lstat fs a = None) argv) as [|a l] eqn:Hf.
    + by apply filter_failed_roots in Hf.
    + rewrite fmap_cons, list_to_set_disj_cons in H1. multiset_solver.
Qed.

(** The exit status of a complete run tells whether a line was to expect. *)
Lemma main_final_status fs g argv K w :
  (1 ≤ K)%nat → main_final fs g argv K w →
  exit_status w = (if decide (expected_reports fs g argv = ∅) then 0 else 1).
Proof.
  intros HK Hmain. destruct (main_final_reports _ _ _ _ _ HK Hmain) as [Hrep Hex].
  rewrite <- Hrep, Hex. destruct (stderr w) as [|m l].
  - by rewrite decide_True.
  - rewrite decide_False; [done|]. rewrite list_to_set_disj_cons. multiset_solver.
Qed.

(** What is on the error stream during a run is part of what is to expect. *)
Lemma run_reports_sub fs g argv K tr c :
  run fs (run_threads (initialize fs g argv K) K) tr c →
  list_to_set_disj (stderr c.1) ⊆ expected_reports fs g argv.
Proof. intros Hrun. rewrite <- (run_reports _ _ _ _ _ _ Hrun). multiset_solver. Qed.

(** * The output of [main] *)

(** A list zipped with its image. *)
Lemma zip_fmap_self {A B} (f : A → B) (l : list A) :
  zip (f <$> l) l = (λ a, (f a, a)) <$> l.
Proof. induction l as [|a l IH]; [done|]. rewrite !fmap_cons. simpl. by rewrite IH. Qed.

(** The error stream only grows. *)
Lemma run_stderr_prefix fs c0 tr c :
  run fs c0 tr c → stderr c0.1 `prefix_of` stderr c.1.
Proof.
  induction 1 as [|tr c t e c' _ IH Hstep]; [done|].
  destruct (step_report _ _ _ _ _ Hstep) as [[-> _]|(m & -> & _)]; [done|].
  by apply prefix_app_r.
Qed.

(** * Further properties of the code *)

(** X1: the work queue is a stack.  On a queue whose counter is within the
    array, [set_available_file] appends the item behind the pending ones,
    [realloc] cutting the array down to the pending items and the new one;
    a [get_available_file] that follows returns that very item and leaves the
    queue, the counter and everything else as they were before the push.  On
    an empty queue [get_available_file] reads in front of the array and has
    no defined result. *)
Theorem queue_is_stack f w :
  0 ≤ nr_available_files w ≤ Z.of_nat (length (available_files w)) →
  queue (set_available_file f w) = queue w ++ [f]
  ∧ nr_available_files (set_available_file f w) = nr_available_files w + 1
  ∧ available_files (set_available_file f w) = queue w ++ [f]
  ∧ (∃ w', get_available_file (set_available_file f w) = Some (f, w')
           ∧ queue w' = queue w
           ∧ nr_available_files w' = nr_available_files w
           ∧ total_sizes w' = total_sizes w ∧ exit_status w' = exit_status w
           ∧ done_threads w' = done_threads w ∧ done w' = done w
           ∧ available_lock w' = available_lock w ∧ available_sem w' = available_sem w
           ∧ stderr w' = stderr w)
  ∧ (nr_available_files w = 0 → get_available_file w = None).
Proof.
  intros Hq. pose proof (set_available_file_queue f w Hq) as Hpush.
  split_and!.
  - done.
  - done.
  - rewrite <- Hpush. unfold queue. rewrite take_ge; [done|].
    simpl. rewrite length_insert, length_resize. lia.
  - destruct (get_available_file_last (queue w) f (set_available_file f w))
      as (w' & Hpop & Hq' & Hnr); [|done|].
    { simpl. rewrite length_insert, length_resize. lia. }
    exists w'. apply get_available_file_Some in Hpop as Hw'.
    destruct Hw' as (_ & _ & ->). simpl in *. split_and!; try done. lia.
  - intros Hnr. unfold get_available_file. rewrite Hnr. done.
Qed.

(** X1 on the state left by the seeder for the scenario, whose queue holds
    the root [a/]. *)
Lemma queue_is_stack_witness :
  let f := DirInfo 0 "a//b" in
  let w := initialize scenario_fs zeroed ["a/"] 2 in
  queue w = [DirInfo 0 "a/"]
  ∧ queue (set_available_file f w) = queue w ++ [f]
  ∧ nr_available_files (set_available_file f w) = nr_available_files w + 1
  ∧ available_files (set_available_file f w) = queue w ++ [f]
  ∧ (∃ w', get_available_file (set_available_file f w) = Some (f, w')
           ∧ queue w' = queue w
           ∧ nr_available_files w' = nr_available_files w
           ∧ total_sizes w' = total_sizes w ∧ exit_status w' = exit_status w
           ∧ done_threads w' = done_threads w ∧ done w' = done w
           ∧ available_lock w' = available_lock w ∧ available_sem w' = available_sem w
           ∧ stderr w' = stderr w)
  ∧ (nr_available_files w = 0 → get_available_file w = None).
Proof.
  split; [by vm_compute|].
  apply (queue_is_stack (DirInfo 0 "a//b") (initialize scenario_fs zeroed ["a/"] 2)).
  vm_compute. split; discriminate.
Defined.

(** X2: mutual exclusion on [available_lock].  In every reachable state a
    worker between the [pthread_mutex_lock] of line 150 and the unlock of
    line 166 or 170 is the holder of the lock, so at most one worker is
    there; the lock is held by nobody else: its holder is a worker between
    these lines, which can take its next step (it never waits for the
    semaphore or for another lock), and a worker that waits in [sem_wait] or
    has returned does not hold the lock. *)
Theorem mutual_exclusion fs g argv K tr c :
  run fs (run_threads (initialize fs g argv K) K) tr c →
  (∀ t l, c.2 !! t = Some l → in_cs l = true → available_lock c.1 = Some t)
  ∧ (∀ t t' l l', c.2 !! t = Some l → c.2 !! t' = Some l' →
       in_cs l = true → in_cs l' = true → t = t')
  ∧ (∀ t, available_lock c.1 = Some t →
       (∃ l, c.2 !! t = Some l ∧ in_cs l = true)
       ∧ ∃ e c', step fs t c = Some (e, c'))
  ∧ (∀ t l, c.2 !! t = Some l → l = L172 ∨ l = L188 → available_lock c.1 ≠ Some t).
Proof.
  intros Hrun. pose proof (run_structure _ _ _ _ _ _ Hrun) as Hs.
  split_and!.
  - apply (so_lock_in _ Hs).
  - intros t t' l l' Hl Hl' Hcs Hcs'.
    pose proof (so_lock_in _ Hs _ _ Hl Hcs). pose proof (so_lock_in _ Hs _ _ Hl' Hcs').
    congruence.
  - intros t Hlock. split; [by apply (so_lock_out _ Hs)|by apply holder_enabled].
  - intros t l Hl Hpk Hlock. destruct (so_lock_out _ Hs _ Hlock) as (l' & Hl' & Hcs).
    simplify_eq. by destruct Hpk as [-> | ->].
Qed.

(** X2 in the scenario run by two workers, in the state in which worker 1 is
    inside the critical section and worker 0 waits in [sem_wait]. *)
Lemma mutual_exclusion_witness :
  available_lock scenario_quiet.2.1 = Some 1%nat
  ∧ scenario_quiet.2.2 = [L172; L162]
  ∧ (∀ t l, scenario_quiet.2.2 !! t = Some l → in_cs l = true →
       available_lock scenario_quiet.2.1 = Some t)
  ∧ (∀ t t' l l', scenario_quiet.2.2 !! t = Some l → scenario_quiet.2.2 !! t' = Some l' →
       in_cs l = true → in_cs l' = true → t = t')
  ∧ (∀ t, available_lock scenario_quiet.2.1 = Some t →
       (∃ l, scenario_quiet.2.2 !! t = Some l ∧ in_cs l = true)
       ∧ ∃ e c', step scenario_fs t scenario_quiet.2 = Some (e, c'))
  ∧ (∀ t l, scenario_quiet.2.2 !! t = Some l → l = L172 ∨ l = L188 →
       available_lock scenario_quiet.2.1 ≠ Some t).
Proof.
  split; [by vm_compute|]. split; [by vm_compute|].
  apply (mutual_exclusion scenario_fs zeroed ["a/"] 2 scenario_quiet.1 scenario_quiet.2).
  apply (exec_run scenario_fs (take 41 scenario_schedule)). vm_compute. reflexivity.
Defined.

(** X3: what [done_threads] tells.  In every reachable state the array has
    one cell per worker, and the cell of a worker is [false] exactly from its
    store of line 178 (or from the start) up to its next store of line 151:
    it is [false] while the worker pops and scans a directory and adds the
    size found, and [true] while the worker waits in [sem_wait].  The stores
    of lines 151 and 178 and the reads of line 155 stay within the array. *)
Theorem done_threads_meaning fs g argv K tr c :
  run fs (run_threads (initialize fs g argv K) K) tr c →
  length (done_threads c.1) = K
  ∧ done_threads c.1 = idle <$> c.2
  ∧ (∀ t l f, c.2 !! t = Some l → l = L181 ∨ pc_dir l = Some f →
       done_threads c.1 !! t = Some false)
  ∧ (∀ t, c.2 !! t = Some L172 → done_threads c.1 !! t = Some true)
  ∧ (∀ t l, c.2 !! t = Some l → is_Some (done_threads c.1 !! t))
  ∧ (∀ i, (i < K)%nat → is_Some (done_threads c.1 !! i)).
Proof.
  intros Hrun. pose proof (run_structure _ _ _ _ _ _ Hrun) as Hs.
  pose proof (so_flags _ Hs) as Hfl.
  assert (length (done_threads c.1) = K) as Hlen.
  { rewrite Hfl, length_fmap. by eapply run_workers. }
  split_and!.
  - done.
  - done.
  - intros t l f Hl Hscan. rewrite Hfl, list_lookup_fmap, Hl. simpl. f_equal.
    destruct Hscan as [->|Hdir]; [done|]. by destruct l.
  - intros t Hl. by rewrite Hfl, list_lookup_fmap, Hl.
  - intros t l Hl. rewrite Hfl, list_lookup_fmap, Hl. by eexists.
  - intros i Hi. apply lookup_lt_is_Some_2. lia.
Qed.

(** X3 in the scenario run by two workers, in the state in which worker 0
    scans [a/] and worker 1 waits. *)
Lemma done_threads_meaning_witness :
  scenario_scan.2.2
  = [L288 (DirInfo 0 "a/") (DirStream [] false) 8 (Stat true 8); L172]
  ∧ done_threads scenario_scan.2.1 = [false; true]
  ∧ length (done_threads scenario_scan.2.1) = 2%nat
  ∧ done_threads scenario_scan.2.1 = idle <$> scenario_scan.2.2
  ∧ (∀ t l f, scenario_scan.2.2 !! t = Some l → l = L181 ∨ pc_dir l = Some f →
       done_threads scenario_scan.2.1 !! t = Some false)
  ∧ (∀ t, scenario_scan.2.2 !! t = Some L172 →
       done_threads scenario_scan.2.1 !! t = Some true)
  ∧ (∀ t l, scenario_scan.2.2 !! t = Some l →
       is_Some (done_threads scenario_scan.2.1 !! t))
  ∧ (∀ i, (i < 2)%nat → is_Some (done_threads scenario_scan.2.1 !! i)).
Proof.
  split; [by vm_compute|]. split; [by vm_compute|].
  apply (done_threads_meaning scenario_fs zeroed ["a/"] 2 scenario_scan.1 scenario_scan.2).
  apply (exec_run scenario_fs (take 17 scenario_schedule)). vm_compute. reflexivity.
Defined.

(** X4: the state in which the pool is joined.  When all K >= 1 workers have
    returned, exactly one of them has declared termination, [done] is set,
    every cell of [done_threads] is set, the queue is empty,
    [available_lock] is free, and the semaphore holds exactly one unit: of
    the K wake-up signals of the declaring worker each of the K - 1 others
    has used one.  So [free_memory] destroys an unlocked mutex. *)
Theorem pool_final_state fs g argv K tr c :
  (1 ≤ K)%nat →
  run fs (run_threads (initialize fs g argv K) K) tr c →
  joined c →
  length (declarations tr) = 1%nat
  ∧ done c.1 = true
  ∧ done_threads c.1 = replicate K true
  ∧ nr_available_files c.1 = 0
  ∧ queue c.1 = []
  ∧ available_lock c.1 = None
  ∧ available_sem c.1 = 1%nat
  ∧ free_memory c.1 = Some ().
Proof.
  intros HK Hrun Hj.
  destruct (run_invariants _ _ _ _ _ _ HK Hrun) as [Hs Hp].
  pose proof (run_workers _ _ _ _ _ _ Hrun) as Hlen.
  assert (available_lock c.1 = None) as Hlock.
  { destruct (available_lock c.1) as [t|] eqn:Hlock; [|done].
    destruct (so_lock_out _ Hs _ Hlock) as (l & Hl & Hcs).
    unfold joined in Hj. rewrite Forall_lookup in Hj. by rewrite (Hj _ _ Hl) in Hcs. }
  destruct (run_phase _ _ _ _ _ _ HK Hrun) as [[_ Hse]|(d & Hd & Hde)].
  { exfalso. destruct (joined_declared c) as [d Hde]; [lia|done|by left|].
    destruct Hde as [(l & Hl & Hdecl & _) _ _ _].
    by pose proof (se_before _ Hse _ _ Hl) as Hb; rewrite Hdecl in Hb. }
  destruct Hde as [(l & Hl & _ & _ & Hsum) Hdone Hnr _].
  split_and!; try done.
  - by rewrite Hd.
  - rewrite (so_flags _ Hs), <- Hlen. by apply joined_idle.
  - unfold queue. by rewrite Hnr.
  - unfold joined in Hj. rewrite (joined_spent _ Hj) in Hsum.
    rewrite Forall_lookup in Hj. rewrite (Hj _ _ Hl) in Hsum. simpl in Hsum. lia.
  - unfold free_memory. by rewrite Hlock.
Qed.

(** X4 at the end of the scenario run by two workers. *)
Lemma pool_final_state_witness :
  length (declarations scenario_exec.1) = 1%nat
  ∧ done scenario_exec.2.1 = true
  ∧ done_threads scenario_exec.2.1 = replicate 2 true
  ∧ nr_available_files scenario_exec.2.1 = 0
  ∧ queue scenario_exec.2.1 = []
  ∧ available_lock scenario_exec.2.1 = None
  ∧ available_sem scenario_exec.2.1 = 1%nat
  ∧ free_memory scenario_exec.2.1 = Some ().
Proof.
  apply (pool_final_state scenario_fs zeroed ["a/"] 2 scenario_exec.1 scenario_exec.2).
  - lia.
  - apply (exec_run scenario_fs scenario_schedule). vm_compute. reflexivity.
  - repeat constructor.
Defined.

(** X5: what the seeder reports.  [initialize] writes one line
    [unable to stat: '<path>': ] for every root path whose [lstat] fails, in
    the order of the command line, and nothing else; it leaves
    [exit_status] at 0 when every root can be stat-ed and at 1 otherwise.
    No worker flag is set, [done] is unset and the lock is free. *)
Theorem initialize_reports fs g argv K :
  stderr (initialize fs g argv K)
  = (λ a, LogLine "unable to stat: '%s': " (Some a)) <$> filter (λ a, lstat fs a = None) argv
  ∧ exit_status (initialize fs g argv K)
    = (if decide (Forall (λ a, is_Some (lstat fs a)) argv) then 0 else 1)
  ∧ done_threads (initialize fs g argv K) = replicate K false
  ∧ done (initialize fs g argv K) = false
  ∧ available_lock (initialize fs g argv K) = None.
Proof.
  destruct (seeded_initialize fs g argv K) as [Hfl Hd Hlk _ _].
  split_and!; try done.
  - unfold initialize. by rewrite initialize_from_stderr.
  - unfold initialize. by rewrite initialize_from_exit.
Qed.

(** X6: the traversal stays below its roots.  In every reachable state each
    directory in the queue or in the hands of a worker, and each directory
    ever pushed or popped, carries the id of a root of the command line and
    a path that is this root's path extended, entry by entry, with names
    other than [.] and [..]; and [lstat] has said that it is a directory,
    unless it is a root that [lstat] did not find.  In particular the id is
    an index into [total_sizes]: the addition of line 184 updates an
    existing slot, that of the root the directory lies below. *)
Theorem traversal_stays_below fs g argv K tr c :
  run fs (run_threads (initialize fs g argv K) K) tr c →
  Forall (below argv) (queue c.1)
  ∧ (∀ t l f, c.2 !! t = Some l → pc_dir l = Some f → below argv f)
  ∧ Forall (below argv) (pushes tr)
  ∧ Forall (below argv) (pops tr)
  ∧ Forall (taken_for_dir fs g argv) (queue c.1 ++ pushes tr ++ pops tr)
  ∧ (∀ t l f, c.2 !! t = Some l → pc_dir l = Some f → taken_for_dir fs g argv f)
  ∧ length (total_sizes c.1) = length argv
  ∧ (∀ t f size, c.2 !! t = Some (L183 f size) →
       ∃ x, total_sizes c.1 !! parent_id f = Some x
            ∧ step fs t c
              = Some (Tau, (with_total_sizes
                              (<[parent_id f := wrap32 (x + size)]> (total_sizes c.1)) c.1,
                            <[t := L150]> c.2))).
Proof.
  intros Hrun. destruct (run_below _ _ _ _ _ _ Hrun) as (Hq & Hp & Hpush & Hpop).
  destruct (run_taken _ _ _ _ _ _ Hrun) as (Hq' & Hp' & Hpush' & Hpop').
  destruct (run_accounts _ _ _ _ _ _ Hrun) as (_ & _ & Hlen).
  split_and!; try done.
  { by rewrite !Forall_app. }
  intros t f size Hl.
  destruct (Hp _ _ f Hl eq_refl) as (a & es & Ha & _).
  destruct (lookup_lt_is_Some_2 (total_sizes c.1) (parent_id f)) as [x Hx].
  { rewrite Hlen. by eapply lookup_lt_Some. }
  exists x. split; [done|]. unfold step. rewrite Hl. simpl. unfold add_size.
  do 4 f_equal. apply list_eq. intros i.
  rewrite list_lookup_alter. case_decide as Hi.
  - subst i. rewrite Hx. simpl. rewrite list_lookup_insert_eq; [done|].
    by eapply lookup_lt_Some.
  - by rewrite list_lookup_insert_ne.
Qed.

(** X6 in the scenario run by two workers, when worker 0 has queued [a//b]. *)
Lemma traversal_stays_below_witness :
  queue scenario_scan.2.1 = [DirInfo 0 "a//b"]
  ∧ Forall (below ["a/"]) (queue scenario_scan.2.1)
  ∧ (∀ t l f, scenario_scan.2.2 !! t = Some l → pc_dir l = Some f → below ["a/"] f)
  ∧ Forall (below ["a/"]) (pushes scenario_scan.1)
  ∧ Forall (below ["a/"]) (pops scenario_scan.1)
  ∧ Forall (taken_for_dir scenario_fs zeroed ["a/"])
      (queue scenario_scan.2.1 ++ pushes scenario_scan.1 ++ pops scenario_scan.1)
  ∧ (∀ t l f, scenario_scan.2.2 !! t = Some l → pc_dir l = Some f →
       taken_for_dir scenario_fs zeroed ["a/"] f)
  ∧ length (total_sizes scenario_scan.2.1) = length ["a/"]
  ∧ (∀ t f size, scenario_scan.2.2 !! t = Some (L183 f size) →
       ∃ x, total_sizes scenario_scan.2.1 !! parent_id f = Some x
            ∧ step scenario_fs t scenario_scan.2
              = Some (Tau, (with_total_sizes
                              (<[parent_id f := wrap32 (x + size)]>
                                 (total_sizes scenario_scan.2.1)) scenario_scan.2.1,
                            <[t := L150]> scenario_scan.2.2))).
Proof.
  split; [by vm_compute|].
  apply (traversal_stays_below scenario_fs zeroed ["a/"] 2 scenario_scan.1 scenario_scan.2).
  apply (exec_run scenario_fs (take 17 scenario_schedule)). vm_compute. reflexivity.
Defined.

(** X7: the buffers for paths are exactly as large as what is written to
    them.  The [sprintf] of line 269 writes the directory's path, a slash,
    the entry's name and a NUL into the bytes [malloc] was asked for in line
    264, and the [strcpy] of line 391 fills the bytes asked for in line 380;
    neither writes past the end. *)
Theorem path_buffers_fit (file : dir_info) (d_name arg : string) :
  c_size (path_join (name file) d_name) = temp_alloc file d_name
  ∧ c_size arg = name_alloc arg.
Proof.
  unfold c_size, temp_alloc, name_alloc. rewrite path_join_length. lia.
Qed.

(** X8: [get_directory_size] as a worker runs it.  A worker that has popped
    [f] and is at the call of line 182 reaches, by steps of its own while
    the others stand still and none of them holds [available_lock], the
    assignment to [size] with exactly the value and the shared state that
    [get_directory_size], run without interruption, gives; on the way it
    pops nothing and pushes the sub-directories of [f] in the order of
    [readdir].  Its next step adds the value to [total_sizes[f.parent_id]]. *)
Theorem get_directory_size_refined fs t f w ps :
  ps !! t = Some (L182 f) →
  available_lock w = None →
  let r := get_directory_size fs f w in
  ∃ tr, run fs (w, ps) tr (r.2, <[t := L183 f r.1]> ps)
        ∧ Forall (λ te, te.1 = t) tr
        ∧ pops tr = []
        ∧ pushes tr = match lstat fs (name f), opendir fs (name f) with
                      | Some _, Some d => omap (entry_subdir fs f) (d_names d)
                      | _, _ => []
                      end
        ∧ step fs t (r.2, <[t := L183 f r.1]> ps)
          = Some (Tau, (add_size (parent_id f) r.1 r.2, <[t := L150]> ps)).
Proof.
  intros Hl Hlock r. pose proof (lookup_lt_Some _ _ _ Hl) as Hlt.
  assert (step fs t (r.2, <[t := L183 f r.1]> ps)
          = Some (Tau, (add_size (parent_id f) r.1 r.2, <[t := L150]> ps))) as Hadd.
  { unfold step. simpl. rewrite list_lookup_insert_eq by done. simpl.
    by rewrite list_insert_insert_eq. }
  unfold get_directory_size in r.
  destruct (lstat fs (name f)) as [st|] eqn:Hst.
  2:{ exists [(t, Tau)]. split_and!; try done; [|by repeat constructor].
      eapply run_cons; [|constructor]. unfold step. simpl. rewrite Hl. simpl.
      by rewrite Hst. }
  destruct (opendir fs (name f)) as [d|] eqn:Hop.
  2:{ exists [(t, Tau)]. split_and!; try done; [|by repeat constructor].
      eapply run_cons; [|constructor]. unfold step. simpl. rewrite Hl. simpl.
      by rewrite Hst, Hop. }
  destruct d as [entries cf].
  destruct (readdir_loop_run fs t f cf entries 0 w (<[t := L230 f (DirStream entries cf) 0]> ps))
    as (tr & Hrun & Ht & Hpush & Hpop & Hlock'); [by rewrite list_lookup_insert_eq|done|].
  rewrite list_insert_insert_eq in Hrun. simpl in r.
  destruct (readdir_loop fs f entries 0 w) as [size w'] eqn:Hloop. simpl in *.
  exists ((t, Tau) :: tr ++ [(t, Tau)]). split_and!.
  - eapply run_cons.
    { unfold step. simpl. rewrite Hl. simpl. by rewrite Hst, Hop. }
    eapply run_snoc; [done|].
    unfold step. simpl. rewrite list_lookup_insert_eq by done. subst r.
    destruct cf; simpl; by rewrite list_insert_insert_eq.
  - constructor; [done|]. apply Forall_app. split; [done|]. by repeat constructor.
  - change (pops ((t, Tau) :: tr ++ [(t, Tau)])) with (pops (tr ++ [(t, Tau)])).
    by rewrite pops_snoc, Hpop.
  - change (pushes ((t, Tau) :: tr ++ [(t, Tau)])) with (pushes (tr ++ [(t, Tau)])).
    by rewrite pushes_snoc, Hpush, app_nil_r.
  - done.
Qed.

(** X8 at the root [a/] of the scenario, for a worker that runs alone. *)
Lemma get_directory_size_refined_witness :
  let fs := scenario_fs in
  let f := DirInfo 0 "a/" in
  let w := initialize scenario_fs zeroed ["a/"] 1 in
  let r := get_directory_size fs f w in
  r.1 = 16
  ∧ ∃ tr, run fs (w, [L182 f]) tr (r.2, <[0%nat := L183 f r.1]> [L182 f])
        ∧ Forall (λ te, te.1 = 0%nat) tr
        ∧ pops tr = []
        ∧ pushes tr = match lstat fs (name f), opendir fs (name f) with
                      | Some _, Some d => omap (entry_subdir fs f) (d_names d)
                      | _, _ => []
                      end
        ∧ step fs 0 (r.2, <[0%nat := L183 f r.1]> [L182 f])
          = Some (Tau, (add_size (parent_id f) r.1 r.2, <[0%nat := L150]> [L182 f])).
Proof.
  split; [by vm_compute|].
  apply (get_directory_size_refined scenario_fs 0 (DirInfo 0 "a/")
           (initialize scenario_fs zeroed ["a/"] 1) [L182 (DirInfo 0 "a/")]).
  - reflexivity.
  - reflexivity.
Defined.

(** X9: what [get_directory_size] computes.  For a directory that can be
    stat-ed and opened it returns the block counts of its entries other than
    [.] and [..] that can be stat-ed, directories included, added up as an
    [int]; it appends the sub-directories among them to the queue, in the
    order of [readdir], and posts the semaphore once for each; it writes one
    line for every entry that cannot be stat-ed, and a last one if
    [closedir] fails.  When [lstat] or [opendir] of the directory fails it
    returns 0 and writes one line.  [exit_status] becomes 1 if a line is
    written and is left alone otherwise; [total_sizes], [done_threads],
    [done] and the lock are never touched. *)
Theorem get_directory_size_spec fs f w :
  0 ≤ nr_available_files w ≤ Z.of_nat (length (available_files w)) →
  let r := get_directory_size fs f w in
  match lstat fs (name f), opendir fs (name f) with
  | Some _, Some d =>
      r.1 = wrap32 (sumZ (entry_blocks fs f <$> d_names d))
      ∧ queue r.2 = queue w ++ omap (entry_subdir fs f) (d_names d)
      ∧ available_sem r.2
        = (available_sem w + length (omap (entry_subdir fs f) (d_names d)))%nat
      ∧ stderr r.2
        = stderr w ++ omap (entry_error fs f) (d_names d)
          ++ (if close_fails d then [LogLine "closedir error: " None] else [])
  | Some _, None =>
      r = (0, report (LogLine "du: cannot read directory '%s': " (Some (name f))) w)
  | None, _ => r = (0, report (LogLine "unable to stat: '%s'" (Some (name f))) w)
  end
  ∧ (stderr r.2 = stderr w ∧ exit_status r.2 = exit_status w
     ∨ stderr r.2 ≠ stderr w ∧ exit_status r.2 = 1)
  ∧ total_sizes r.2 = total_sizes w
  ∧ done_threads r.2 = done_threads w
  ∧ done r.2 = done w
  ∧ available_lock r.2 = available_lock w.
Proof.
  intros Hq r.
  destruct (get_directory_size_frame fs f w Hq) as (H7 & H8 & H9 & H10 & _).
  fold r in H7, H8, H9, H10. split_and!; try done.
  - subst r. unfold get_directory_size.
    destruct (lstat fs (name f)) as [st|]; [|done].
    destruct (opendir fs (name f)) as [d|]; [|done].
    destruct (readdir_loop_spec fs f (d_names d) 0 w Hq eq_refl)
      as (H1 & H2 & _ & H4 & H5 & _).
    destruct (readdir_loop fs f (d_names d) 0 w) as [size w'].
    destruct (close_fails d); simpl in *; split_and!; try done.
    + by rewrite H5, app_assoc.
    + by rewrite H5, app_nil_r.
  - subst r. unfold get_directory_size.
    assert (∀ (l k : list logline) m, l ++ m :: k ≠ l) as Hne.
    { intros l k m Heq. apply (f_equal length) in Heq. rewrite length_app in Heq.
      simpl in Heq. lia. }
    destruct (lstat fs (name f)) as [st|]; [|right; split; [apply Hne|done]].
    destruct (opendir fs (name f)) as [d|]; [|right; split; [apply Hne|done]].
    destruct (readdir_loop_spec fs f (d_names d) 0 w Hq eq_refl)
      as (_ & _ & _ & _ & H5 & H6 & _).
    destruct (readdir_loop fs f (d_names d) 0 w) as [size w'].
    destruct (close_fails d); simpl in *.
    + right. split; [|done]. rewrite H5. destruct (omap (entry_error fs f) (d_names d)).
      * rewrite app_nil_r. apply Hne.
      * rewrite <- app_assoc. apply Hne.
    + rewrite H5, H6. destruct (omap (entry_error fs f) (d_names d)) as [|m l].
      * left. by rewrite app_nil_r.
      * right. split; [apply Hne|done].
Qed.

(** X9 at the directory [d] of [faulty_fs]: 16 blocks, one directory queued,
    two lines written. *)
Lemma get_directory_size_spec_witness :
  let fs := faulty_fs in
  let f := DirInfo 0 "d" in
  let w := initialize faulty_fs zeroed ["d"] 1 in
  let r := get_directory_size fs f w in
  r.1 = 16
  ∧ stderr r.2 = [LogLine "unable to stat: '%s': " (Some "d"); LogLine "closedir error: " None]
  ∧ match lstat fs (name f), opendir fs (name f) with
    | Some _, Some d =>
        r.1 = wrap32 (sumZ (entry_blocks fs f <$> d_names d))
        ∧ queue r.2 = queue w ++ omap (entry_subdir fs f) (d_names d)
        ∧ available_sem r.2
          = (available_sem w + length (omap (entry_subdir fs f) (d_names d)))%nat
        ∧ stderr r.2
          = stderr w ++ omap (entry_error fs f) (d_names d)
            ++ (if close_fails d then [LogLine "closedir error: " None] else [])
    | Some _, None =>
        r = (0, report (LogLine "du: cannot read directory '%s': " (Some (name f))) w)
    | None, _ => r = (0, report (LogLine "unable to stat: '%s'" (Some (name f))) w)
    end
  ∧ (stderr r.2 = stderr w ∧ exit_status r.2 = exit_status w
     ∨ stderr r.2 ≠ stderr w ∧ exit_status r.2 = 1)
  ∧ total_sizes r.2 = total_sizes w
  ∧ done_threads r.2 = done_threads w
  ∧ done r.2 = done w
  ∧ available_lock r.2 = available_lock w.
Proof.
  split; [by vm_compute|]. split; [by vm_compute|].
  apply (get_directory_size_spec faulty_fs (DirInfo 0 "d")
           (initialize faulty_fs zeroed ["d"] 1)).
  vm_compute. split; discriminate.
Defined.

(** X10: the error stream and the exit status do not depend on the schedule.
    Whatever the number K >= 1 of workers and whatever the interleaving, the
    lines on the error stream when [main] returns are, each with its
    multiplicity, the lines to expect: one line per failing [lstat],
    [opendir] and [closedir] met by the traversal, every directory being
    scanned once.  The traversal starts from the roots the seeder queued, so
    for a root that cannot be stat-ed the lines depend on what the never
    written stat buffer held.  [main] returns 0 if there is no such line and
    1 otherwise.  Two runs in which the roots that cannot be stat-ed found
    the same contents in the stat buffer (any two runs, when every root can
    be stat-ed) differ at most in the order of the lines; and all runs
    return the same exit status, whatever the buffers held. *)
Theorem reports_schedule_independent fs g argv K w :
  (1 ≤ K)%nat →
  main_final fs g argv K w →
  list_to_set_disj (stderr w) = expected_reports fs g argv
  ∧ (exit_status w = 0 ∧ stderr w = [] ∧ expected_reports fs g argv = ∅
     ∨ exit_status w = 1 ∧ stderr w ≠ [] ∧ expected_reports fs g argv ≠ ∅)
  ∧ (∀ g' K' w', (1 ≤ K')%nat →
       (∀ r a, argv !! r = Some a → lstat fs a = None → g' r = g r) →
       main_final fs g' argv K' w' →
       stderr w' ≡ₚ stderr w)
  ∧ (∀ g' K' w', (1 ≤ K')%nat → main_final fs g' argv K' w' →
       exit_status w' = exit_status w).
Proof.
  intros HK Hmain.
  destruct (main_final_reports _ _ _ _ _ HK Hmain) as [Hrep Hex].
  split_and!.
  - done.
  - rewrite <- Hrep, Hex. destruct (stderr w) as [|m l]; [left|right]; split_and!; try done.
    rewrite list_to_set_disj_cons. multiset_solver.
  - intros g' K' w' HK' Hg Hmain'.
    destruct (main_final_reports _ _ _ _ _ HK' Hmain') as [Hrep' _].
    apply list_to_set_disj_inv.
    by rewrite Hrep, Hrep', (expected_reports_garbage fs g' g argv Hg).
  - intros g' K' w' HK' Hmain'.
    rewrite (main_final_status _ _ _ _ _ HK Hmain), (main_final_status _ _ _ _ _ HK' Hmain').
    destruct (decide (expected_reports fs g argv = ∅)) as [He|Hne].
    + by rewrite decide_True by by apply (expected_reports_empty fs g g').
    + rewrite decide_False; [done|]. intros He'. apply Hne.
      by apply (expected_reports_empty fs g' g).
Qed.

(** X10 at [faulty_fs]: three lines are expected, and written. *)
Lemma reports_schedule_independent_witness :
  expected_reports faulty_fs zeroed ["d"]
  = {[+ LogLine "unable to stat: '%s': " (Some "d");
        LogLine "du: cannot read directory '%s': " (Some "d/s");
        LogLine "closedir error: " None +]}
  ∧ list_to_set_disj (stderr faulty_exec.2.1) = expected_reports faulty_fs zeroed ["d"]
  ∧ (exit_status faulty_exec.2.1 = 0 ∧ stderr faulty_exec.2.1 = []
       ∧ expected_reports faulty_fs zeroed ["d"] = ∅
     ∨ exit_status faulty_exec.2.1 = 1 ∧ stderr faulty_exec.2.1 ≠ []
       ∧ expected_reports faulty_fs zeroed ["d"] ≠ ∅)
  ∧ (∀ g' K' w', (1 ≤ K')%nat →
       (∀ r a, ["d"] !! r = Some a → lstat faulty_fs a = None → g' r = zeroed r) →
       main_final faulty_fs g' ["d"] K' w' →
       stderr w' ≡ₚ stderr faulty_exec.2.1)
  ∧ (∀ g' K' w', (1 ≤ K')%nat → main_final faulty_fs g' ["d"] K' w' →
       exit_status w' = exit_status faulty_exec.2.1).
Proof.
  split; [apply (bool_decide_unpack _); by vm_compute|].
  apply (reports_schedule_independent faulty_fs zeroed ["d"] 1 faulty_exec.2.1).
  - lia.
  - apply (main_pool _ _ _ _ faulty_exec.1 faulty_exec.2.1 faulty_exec.2.2).
    + by vm_compute.
    + apply (exec_run faulty_fs (replicate 37 0%nat)). vm_compute. reflexivity.
    + repeat constructor.
Defined.

(** X11: a run without failures is silent.  When every root can be stat-ed,
    every directory the file system knows can be opened and closed and every
    entry [readdir] returns can be stat-ed, [main] writes nothing to the
    error stream and returns 0, for every number K >= 1 of workers and every
    schedule. *)
Theorem quiet_run fs g argv K w :
  trouble_free fs = true →
  Forall (λ a, is_Some (lstat fs a)) argv →
  (1 ≤ K)%nat →
  main_final fs g argv K w →
  stderr w = [] ∧ exit_status w = 0.
Proof.
  intros Hfree Hroots HK Hmain.
  destruct (main_final_reports _ _ _ _ _ HK Hmain) as [Hrep Hex].
  rewrite (trouble_free_expected _ _ _ Hfree Hroots) in Hrep.
  apply list_to_set_disj_empty_inv in Hrep. by rewrite Hex, Hrep.
Qed.

(** X11 at the scenario run by two workers. *)
Lemma quiet_run_witness :
  stderr scenario_exec.2.1 = [] ∧ exit_status scenario_exec.2.1 = 0.
Proof.
  apply (quiet_run scenario_fs zeroed ["a/"] 2 scenario_exec.2.1).
  - vm_compute. reflexivity.
  - repeat constructor. eexists. vm_compute. reflexivity.
  - lia.
  - apply (main_pool _ _ _ _ scenario_exec.1 scenario_exec.2.1 scenario_exec.2.2).
    + by vm_compute.
    + apply (exec_run scenario_fs scenario_schedule). vm_compute. reflexivity.
    + repeat constructor.
Defined.

(** X12: the behaviour of [main].  With fewer than two arguments the only
    run writes the usage line and exits with 1.  Otherwise, let the thread
    count (1 when no option is given, the number of the last [-j] converted
    to an [int] when the last option is a [-j]) be at least 1 and let
    [threads] fit on the stack.
    - When the system grants what the run needs ([done_threads] can be
      allocated and, if a root is queued, [thread_arg] fits on the stack and
      all threads can be created), [main] has a run, every run returns, and,
      for given contents of the never written stat buffers, every run shows
      the same output: one line per operand, in the order of the command
      line, with half of the [int] total of the blocks found for it ([print]
      never reads behind [total_sizes] and [free_memory] finds the lock
      free); the error stream holds the lines to expect, in some order; and
      the value returned is 0 when there is no such line and 1 otherwise.
      When every operand can be stat-ed the output does not depend on the
      stat buffers: the number printed is half of the [int] value of the
      disk usage of the operand.
    - When a root is queued and [thread_arg] fits but the system refuses one
      of the threads, [main] has a run, and every run prints nothing, writes
      the line of [perror("pthread_create: ")] after the lines of the seeder
      and among some of the lines to expect, and exits with 1.
    - When [done_threads] cannot be allocated the only run writes the line
      of [perror("malloc 'done_threads': ")] and exits with 1.
    - When options are given but no operand and [done_threads] can be
      allocated, nothing is printed and 0 is returned.
    - With a thread count below 1, or with an array that does not fit on
      the stack, there is no run with a defined outcome. *)
Theorem main_behaviour sys fs g cl :
  ((argc cl < 2)%nat →
   ∀ o, main sys fs g cl o ↔ o = Outcome [] [LogLine "usage: ./mdu file [files]\n" None] 1)
  ∧ ((2 ≤ argc cl)%nat → 1 ≤ thread_amount cl ≤ stack_main sys →
     thread_amount cl ≤ heap_flags sys →
     (pool_started (initialize fs g (operands cl) (Z.to_nat (thread_amount cl))) = true →
      thread_amount cl ≤ stack_pool sys
      ∧ (Z.to_nat (thread_amount cl) ≤ thread_limit sys)%nat) →
     (∃ o, main sys fs g cl o)
     ∧ (∀ o, main sys fs g cl o →
         out_lines o
         = zip ((λ r, Z.quot (wrap32 (expected fs g (operands cl) r)) 2)
                  <$> seq 0 (length (operands cl)))
               (operands cl)
         ∧ list_to_set_disj (err_lines o) = expected_reports fs g (operands cl)
         ∧ status o = (if decide (expected_reports fs g (operands cl) = ∅) then 0 else 1))
     ∧ ((∀ a, a ∈ operands cl → is_Some (lstat fs a)) →
        ∀ o, main sys fs g cl o →
          out_lines o = (λ a, (Z.quot (wrap32 (du_path fs a)) 2, a)) <$> operands cl))
  ∧ ((2 ≤ argc cl)%nat → 1 ≤ thread_amount cl ≤ stack_main sys →
     thread_amount cl ≤ heap_flags sys →
     pool_started (initialize fs g (operands cl) (Z.to_nat (thread_amount cl))) = true →
     thread_amount cl ≤ stack_pool sys →
     (thread_limit sys < Z.to_nat (thread_amount cl))%nat →
     (∃ o, main sys fs g cl o)
     ∧ ∀ o, main sys fs g cl o →
         out_lines o = [] ∧ status o = 1
         ∧ ∃ l1 l2,
             err_lines o = l1 ++ LogLine "pthread_create: " None :: l2
             ∧ stderr (initialize fs g (operands cl) (Z.to_nat (thread_amount cl)))
               `prefix_of` l1
             ∧ list_to_set_disj (l1 ++ l2) ⊆ expected_reports fs g (operands cl))
  ∧ ((2 ≤ argc cl)%nat → 1 ≤ thread_amount cl ≤ stack_main sys →
     heap_flags sys < thread_amount cl →
     ∀ o, main sys fs g cl o ↔ o = Outcome [] [LogLine "malloc 'done_threads': " None] 1)
  ∧ ((2 ≤ argc cl)%nat → operands cl = [] → thread_amount cl ≤ heap_flags sys →
     ∀ o, main sys fs g cl o → o = Outcome [] [] 0)
  ∧ ((2 ≤ argc cl)%nat →
     thread_amount cl < 1 ∨ stack_main sys < thread_amount cl
     ∨ (thread_amount cl ≤ heap_flags sys
        ∧ pool_started (initialize fs g (operands cl) (Z.to_nat (thread_amount cl))) = true
        ∧ stack_pool sys < thread_amount cl) →
     ∀ o, ¬ main sys fs g cl o)
  ∧ (options cl = [] → thread_amount cl = 1)
  ∧ (∀ n opts v files,
       thread_amount (CommandLine n (opts ++ [(opt_j, v)]) files) = wrap32 v).
Proof.
  assert (∀ o, (2 ≤ argc cl)%nat → 1 ≤ thread_amount cl →
            (pool_started (initialize fs g (operands cl) (Z.to_nat (thread_amount cl)))
             = true → (Z.to_nat (thread_amount cl) ≤ thread_limit sys)%nat) →
            thread_amount cl ≤ heap_flags sys →
            main sys fs g cl o →
            ∃ w, main_final fs g (operands cl) (Z.to_nat (thread_amount cl)) w
                 ∧ o = Outcome (zip (print w) (operands cl)) (stderr w) (exit_status w))
    as Hreturns.
  { intros o Hargc HK Hlim Hheap
      [Hargc'|_ _ Hmem|tr c n _ _ _ Hyes _ Hfew _ _ _|w lines _ _ _ _ Hmain Hprint _].
    - lia.
    - lia.
    - specialize (Hlim Hyes). lia.
    - rewrite print_lines_Some in Hprint by by eapply main_final_slots.
      simplify_eq. by exists w. }
  split_and!.
  - intros Hargc o. split.
    + intros [_|Hargc' _ _|tr c n Hargc' _ _ _ _ _ _ _ _|w lines Hargc' _ _ _ _ _ _];
        [done|lia..].
    + intros ->. by apply main_usage.
  - intros Hargc [HK Hstack] Hheap Hpool.
    assert (1 ≤ Z.to_nat (thread_amount cl))%nat as HK' by lia.
    split_and!.
    + destruct (main_final_exists fs g (operands cl) _ HK') as [w Hmain].
      eexists. apply (main_returns _ _ _ _ w); try done.
      * apply print_lines_Some. by eapply main_final_slots.
      * unfold free_memory. by rewrite (main_final_lock _ _ _ _ _ Hmain).
    + intros o Ho.
      destruct (Hreturns o Hargc HK (λ H, proj2 (Hpool H)) Hheap Ho) as (w & Hmain & ->).
      simpl. split_and!.
      * unfold print.
        by rewrite (main_final_totals _ _ _ _ _ HK' Hmain), <- list_fmap_compose.
      * by destruct (main_final_reports _ _ _ _ _ HK' Hmain).
      * by apply (main_final_status _ _ _ _ _ HK' Hmain).
    + intros Hst o Ho.
      destruct (Hreturns o Hargc HK (λ H, proj2 (Hpool H)) Hheap Ho) as (w & Hmain & ->).
      simpl. unfold print.
      by rewrite (main_final_du _ _ _ _ _ HK' Hst Hmain), <- list_fmap_compose,
        zip_fmap_self.
  - intros Hargc [HK Hstack] Hheap Hyes Hfits Hfew. split.
    + eexists.
      apply (main_no_thread _ _ _ _ []
               (run_threads (initialize fs g (operands cl) (Z.to_nat (thread_amount cl)))
                            (Z.to_nat (thread_amount cl)))
               (length (stderr (initialize fs g (operands cl)
                                           (Z.to_nat (thread_amount cl)))))); try done.
      apply run_nil.
    + intros o
        [Hargc'|_ _ Hmem|tr c n _ _ _ _ _ _ Hrun _ [Hn1 Hn2]|w lines _ _ _ Hpool _ _ _].
      * lia.
      * lia.
      * simpl. split_and!; try done. eexists _, _. split_and!; [done| |].
        -- destruct (run_stderr_prefix _ _ _ _ Hrun) as [k Hk]. simpl in Hk.
           rewrite Hk, take_app_ge by done. by apply prefix_app_r.
        -- rewrite take_drop. by eapply run_reports_sub.
      * specialize (Hpool Hyes). lia.
  - intros Hargc [HK Hstack] Hmem o. split.
    + intros [Hargc'|_ _ _|tr c n _ _ Hheap _ _ _ _ _ _|w lines _ _ Hheap _ _ _ _];
        [lia|done|lia..].
    + intros ->. by apply main_no_memory.
  - intros Hargc Hnone Hheap o
      [Hargc'|_ _ Hmem|tr c n _ _ _ Hyes _ _ _ _ _|w lines _ _ _ _ Hmain Hprint _].
    + lia.
    + lia.
    + rewrite Hnone in Hyes. by vm_compute in Hyes.
    + rewrite Hnone in Hmain, Hprint. unfold print_lines in Hprint. simpl in Hprint.
      simplify_eq.
      assert (w = initialize fs g [] (Z.to_nat (thread_amount cl))) as ->; [|reflexivity].
      destruct Hmain as [_|tr w ps Hyes _ _]; [done|]. by vm_compute in Hyes.
  - intros Hargc Hbad o
      [Hargc'|_ [? ?] Hmem|tr c n _ [? ?] _ _ ? _ _ _ _|w lines _ [? ?] _ Hpool _ _ _].
    + lia.
    + lia.
    + lia.
    + destruct Hbad as [?|[?|(_ & Hyes & ?)]]; [lia..|].
      specialize (Hpool Hyes). lia.
  - unfold thread_amount. by intros ->.
  - intros n opts v files. unfold thread_amount. simpl. by rewrite foldl_app.
Qed.

(** X12 at the command line [mdu -j 2 a/] on the scenario, on a system that
    grants 8 threads: 20 is printed for [a/], nothing is written to the
    error stream, and 0 is returned.  On a system that grants one thread
    only, nothing is printed and 1 is returned. *)
Lemma main_behaviour_witness :
  let sys := System 1024 1024 1024 8 in
  let cl := CommandLine 4 [(opt_j, 2)] ["a/"] in
  main (System 1024 1024 1024 1) scenario_fs zeroed cl
       (Outcome [] [LogLine "pthread_create: " None] 1)
  ∧ main sys scenario_fs zeroed cl (Outcome [(20, "a/")] [] 0)
  ∧ (∃ o, main sys scenario_fs zeroed cl o)
  ∧ (∀ o, main sys scenario_fs zeroed cl o →
      out_lines o
      = zip ((λ r, Z.quot (wrap32 (expected scenario_fs zeroed (operands cl) r)) 2)
               <$> seq 0 (length (operands cl)))
            (operands cl)
      ∧ list_to_set_disj (err_lines o) = expected_reports scenario_fs zeroed (operands cl)
      ∧ status o
        = (if decide (expected_reports scenario_fs zeroed (operands cl) = ∅) then 0 else 1))
  ∧ ((∀ a, a ∈ operands cl → is_Some (lstat scenario_fs a)) →
     ∀ o, main sys scenario_fs zeroed cl o →
       out_lines o = (λ a, (Z.quot (wrap32 (du_path scenario_fs a)) 2, a)) <$> operands cl).
Proof.
  split.
  { apply (main_no_thread (System 1024 1024 1024 1) scenario_fs zeroed
             (CommandLine 4 [(opt_j, 2)] ["a/"]) [] scenario_start 0).
    - simpl. lia.
    - vm_compute. split; discriminate.
    - vm_compute. discriminate.
    - by vm_compute.
    - vm_compute. discriminate.
    - vm_compute. lia.
    - apply run_nil.
    - constructor.
    - vm_compute. lia. }
  split.
  - apply (main_returns (System 1024 1024 1024 8) scenario_fs zeroed
             (CommandLine 4 [(opt_j, 2)] ["a/"]) scenario_exec.2.1 [(20, "a/")]).
    + simpl. lia.
    + vm_compute. split; discriminate.
    + vm_compute. discriminate.
    + intros _. split; [vm_compute; discriminate|vm_compute; lia].
    + apply scenario_main_final.
    + by vm_compute.
    + by vm_compute.
  - destruct (main_behaviour (System 1024 1024 1024 8) scenario_fs zeroed
                (CommandLine 4 [(opt_j, 2)] ["a/"]))
      as (_ & H & _).
    apply H.
    + simpl. lia.
    + vm_compute. split; discriminate.
    + vm_compute. discriminate.
    + intros _. split; [vm_compute; discriminate|vm_compute; lia].
Defined.

(** X13: the buffers for paths are freed once and never used afterwards.
    Counting the buffers by their contents: the seeder leaves allocated
    exactly the names it has queued; no step of a worker frees a buffer that
    is not allocated; in every reachable state the buffers allocated and not
    yet freed are exactly the names in the queue and the [file.name] of every
    worker between its pop and the [free] in [get_directory_size], so the
    name a worker passes to [lstat], [opendir] or [sprintf] is allocated; and
    when all K >= 1 workers have returned no buffer is left. *)
Theorem heap_discipline fs g argv K tr c :
  (1 ≤ K)%nat →
  run fs (run_threads (initialize fs g argv K) K) tr c →
  mem_exec (initialize_mem fs g 0 argv) ∅
  = Some (live (run_threads (initialize fs g argv K) K))
  ∧ heap_run fs (run_threads (initialize fs g argv K) K)
      (live (run_threads (initialize fs g argv K) K)) tr c (live c)
  ∧ (∀ h, heap_run fs (run_threads (initialize fs g argv K) K)
            (live (run_threads (initialize fs g argv K) K)) tr c h → h = live c)
  ∧ (∀ t l e c', c.2 !! t = Some l → step fs t c = Some (e, c') →
       mem_exec (thread_func_mem fs l) (live c) = Some (live c'))
  ∧ (∀ t f, c.2 !! t = Some (L182 f) → name f ∈ live c)
  ∧ (∀ t f d size, c.2 !! t = Some (L230 f d size) → name f ∈ live c)
  ∧ (joined c → live c = ∅).
Proof.
  intros HK Hrun. pose proof (run_structure _ _ _ _ _ _ Hrun) as Hs.
  split_and!.
  - rewrite initialize_mem_exec. f_equal. unfold live, initialize. simpl.
    rewrite (initialize_from_queue K) by by split. simpl.
    rewrite (disj_union_list_empty holds); [multiset_solver|].
    by intros i l [-> _]%lookup_replicate.
  - by apply run_heap_run.
  - intros h. apply heap_run_live.
  - intros t l e c' Hl Hstep. by eapply live_step.
  - intros t f Hl. pose proof (disj_union_list_lookup holds _ _ _ Hl) as Hin.
    unfold live. simpl in Hin. multiset_solver.
  - intros t f d size Hl. pose proof (disj_union_list_lookup holds _ _ _ Hl) as Hin.
    unfold live. simpl in Hin. multiset_solver.
  - intros Hj. destruct (run_invariants _ _ _ _ _ _ HK Hrun) as [_ Hp].
    pose proof (run_workers _ _ _ _ _ _ Hrun) as Hlen.
    destruct (joined_declared c) as [d Hde]; [lia|done|done|].
    unfold live, queue. rewrite (de_empty _ _ Hde). simpl.
    rewrite (disj_union_list_empty holds); [multiset_solver|].
    intros i l Hl. unfold joined in Hj. rewrite Forall_lookup in Hj.
    by rewrite (Hj _ _ Hl).
Qed.

(** X13 in the scenario run by two workers, when worker 0 holds [a/] and has
    queued [a//b]. *)
Lemma heap_discipline_witness :
  live scenario_scan.2 = {[+ "a/"; "a//b" +]}
  ∧ mem_exec (initialize_mem scenario_fs zeroed 0 ["a/"]) ∅ = Some (live scenario_start)
  ∧ heap_run scenario_fs scenario_start (live scenario_start)
      scenario_scan.1 scenario_scan.2 (live scenario_scan.2)
  ∧ (∀ h, heap_run scenario_fs scenario_start (live scenario_start)
            scenario_scan.1 scenario_scan.2 h → h = live scenario_scan.2)
  ∧ (∀ t l e c', scenario_scan.2.2 !! t = Some l →
       step scenario_fs t scenario_scan.2 = Some (e, c') →
       mem_exec (thread_func_mem scenario_fs l) (live scenario_scan.2) = Some (live c'))
  ∧ (∀ t f, scenario_scan.2.2 !! t = Some (L182 f) → name f ∈ live scenario_scan.2)
  ∧ (∀ t f d size, scenario_scan.2.2 !! t = Some (L230 f d size) →
       name f ∈ live scenario_scan.2)
  ∧ (joined scenario_scan.2 → live scenario_scan.2 = ∅).
Proof.
  split; [apply (bool_decide_unpack _); by vm_compute|].
  apply (heap_discipline scenario_fs zeroed ["a/"] 2 scenario_scan.1 scenario_scan.2).
  - lia.
  - apply (exec_run scenario_fs (take 17 scenario_schedule)). vm_compute. reflexivity.
Defined.

(** X14: every directory is scanned exactly once.  In every execution with
    K >= 1 workers the directories popped so far, together with those in the
    queue, those below the directories in the queue and those below the
    directories being scanned, are the directories the roots make expect:
    each directory root and every directory reachable from it through
    entries other than [.] and [..], once for each root it is reached from.
    So no directory is popped more often than that, and when all workers
    have returned each of them has been popped exactly once. *)
Theorem every_directory_scanned_once fs g argv K tr c :
  (1 ≤ K)%nat →
  run fs (run_threads (initialize fs g argv K) K) tr c →
  list_to_set_disj (pops tr) ⊎ scans_owed fs c = expected_scans fs g argv
  ∧ list_to_set_disj (pops tr) ⊆ expected_scans fs g argv
  ∧ (joined c →
     list_to_set_disj (pops tr) = expected_scans fs g argv
     ∧ length (pops tr) = size (expected_scans fs g argv)).
Proof.
  intros HK Hrun. pose proof (run_scans _ _ _ _ _ _ Hrun) as Hsc.
  split_and!.
  - done.
  - multiset_solver.
  - intros Hj. destruct (run_invariants _ _ _ _ _ _ HK Hrun) as [_ Hp].
    pose proof (run_workers _ _ _ _ _ _ Hrun) as Hlen.
    destruct (joined_declared c) as [d Hde]; [lia|done|done|].
    assert (scans_owed fs c = ∅) as Hz.
    { unfold scans_owed, queue. rewrite (de_empty _ _ Hde). simpl.
      rewrite (disj_union_list_empty (scans_inflight fs)); [multiset_solver|].
      intros i l Hl. unfold joined in Hj. rewrite Forall_lookup in Hj.
      by rewrite (Hj _ _ Hl). }
    assert (list_to_set_disj (pops tr) = expected_scans fs g argv) as Heq.
    { rewrite <- Hsc, Hz. multiset_solver. }
    split; [done|]. rewrite <- Heq. clear.
    induction (pops tr) as [|f l IH]; [done|].
    rewrite list_to_set_disj_cons, gmultiset_size_disj_union, gmultiset_size_singleton.
    simpl. by rewrite IH.
Qed.

(** X14 at the end of the scenario run by two workers: [a/] and [a//b] have
    been popped, each once. *)
Lemma every_directory_scanned_once_witness :
  expected_scans scenario_fs zeroed ["a/"] = {[+ DirInfo 0 "a/"; DirInfo 0 "a//b" +]}
  ∧ pops scenario_exec.1 = [DirInfo 0 "a/"; DirInfo 0 "a//b"]
  ∧ list_to_set_disj (pops scenario_exec.1) ⊎ scans_owed scenario_fs scenario_exec.2
    = expected_scans scenario_fs zeroed ["a/"]
  ∧ list_to_set_disj (pops scenario_exec.1) ⊆ expected_scans scenario_fs zeroed ["a/"]
  ∧ (joined scenario_exec.2 →
     list_to_set_disj (pops scenario_exec.1) = expected_scans scenario_fs zeroed ["a/"]
     ∧ length (pops scenario_exec.1) = size (expected_scans scenario_fs zeroed ["a/"])).
Proof.
  split; [apply (bool_decide_unpack _); by vm_compute|].
  split; [by vm_compute|].
  apply (every_directory_scanned_once scenario_fs zeroed ["a/"] 2
           scenario_exec.1 scenario_exec.2).
  - lia.
  - apply (exec_run scenario_fs scenario_schedule). vm_compute. reflexivity.
Defined.

(** X15: no data race on [done] and [done_threads].  Line 174 reads [done]
    and line 178 writes the worker's cell of [done_threads] without holding
    [available_lock].  Still, in no reachable state are two workers about to
    make conflicting accesses to one of these variables: a worker is at its
    read of line 174 or at its write of line 178 only while the queue is not
    empty or after termination has been declared, and another worker writes
    [done] (lines 153, 156) or reads the cells of others (line 155) only
    after it has found the queue empty under the lock, before any
    declaration. *)
Theorem no_data_race fs g argv K tr c :
  (1 ≤ K)%nat →
  run fs (run_threads (initialize fs g argv K) K) tr c →
  ∀ t t' l l' a b,
    t ≠ t' →
    c.2 !! t = Some l → c.2 !! t' = Some l' →
    next_access (ThreadInfo K t) l = Some a →
    next_access (ThreadInfo K t') l' = Some b →
    ¬ conflict a b.
Proof.
  intros HK Hrun t t' l l' a b Hne Hl Hl' Ha Hb Hconf.
  destruct (run_invariants _ _ _ _ _ _ HK Hrun) as [Hs Hp].
  destruct (decide (in_cs l = true ∧ in_cs l' = true)) as [[Hcs Hcs']|Hout].
  { pose proof (so_lock_in _ Hs _ _ Hl Hcs). pose proof (so_lock_in _ Hs _ _ Hl' Hcs').
    congruence. }
  destruct l; simplify_eq/=; destruct l'; simplify_eq/=;
    repeat case_bool_decide; simplify_eq/=;
    try (by destruct Hout);
    match goal with
    | H1 : c.2 !! ?i = Some ?li, H2 : c.2 !! ?j = Some ?lj |- _ =>
        first [ by apply (credit_excludes_empty c i li j lj Hp H1 eq_refl H2 eq_refl)
              | by apply (credit_excludes_empty c j lj i li Hp H2 eq_refl H1 eq_refl) ]
    end.
Qed.

(** X15 in the scenario run by two workers, when worker 0 is at its write of
    line 178 and worker 1 at its write of line 151. *)
Lemma no_data_race_witness :
  scenario_race.2.2 = [L178; L151]
  ∧ ∀ t t' l l' a b,
      t ≠ t' →
      scenario_race.2.2 !! t = Some l → scenario_race.2.2 !! t' = Some l' →
      next_access (ThreadInfo 2 t) l = Some a →
      next_access (ThreadInfo 2 t') l' = Some b →
      ¬ conflict a b.
Proof.
  split; [by vm_compute|].
  apply (no_data_race scenario_fs zeroed ["a/"] 2 scenario_race.1 scenario_race.2).
  - lia.
  - apply (exec_run scenario_fs (take 7 scenario_schedule)). vm_compute. reflexivity.
Defined.
